(** * Generative-UI: streaming helpers, window tools and the agent loop

    A shallow embedding of the parts of the agent library ([@/lib/ai]) and
    of the canvas component that carry the streaming tool-call
    orchestration:

    - [extractLatestJsonStringField] and [unescapeJsonString]
      (partial-JSON field extractor),
    - [healHtmlStream] (markup healer),
    - [createNewWindow], [domReplace], [updateWindowTitle] (tool handlers
      over the window store held in the component's refs),
    - [runAgentStream] (the bounded multi-step generator),
    - [setWindowHtml], [handleDelete], [updateIframeThrottled],
      [applyPreviewDomReplace] and the preview node of a streamed call of
      [create_new_window] ([ensureProvisionalCreateNode] and the branches
      of [processAgentStream] that drive it),
    - [convertHistoryToOpenAIMessages] and the history entries that the
      component writes after a run,
    - the settings kept in [localStorage] by [@/lib/utils] (keys,
      provider, models), [isAuthError], and [handleSave] of the key
      dialog.

    JavaScript strings are sequences of UTF-16 code units; they are modelled
    as [list N]; numbers are binary64 floats.  The browser DOM, the
    moment at which React runs a state updater, the chat-completion
    transport, the pseudo-random generator, [JSON] and the failures of
    [localStorage] are outside the repository and appear as parameters or
    oracles. *)

From Stdlib Require Import ZArith NArith Ascii String DecimalString DecimalN Lia Bool
  PrimFloat.
From stdpp Require Import base option list gmap countable numbers.

Set Default Proof Using "Type".
Local Open Scope N_scope.

(* ===================================================================== *)
(** ** JavaScript strings *)
(* ===================================================================== *)

Module JS.

(** A JS string: its UTF-16 code units. *)
Abbreviation jsstring := (list N).

(** String literals of the source, written in ASCII. *)
Definition js (s : string) : jsstring :=
  N_of_ascii <$> list_ascii_of_string s.

Global Arguments js : simpl never.

Definition c_quote : N := 34.      (* double quote *)
Definition c_backslash : N := 92.  (* backslash *)
Definition c_lt : N := 60.         (* less-than sign *)
Definition c_gt : N := 62.         (* greater-than sign *)
Definition c_slash : N := 47.      (* slash *)
Definition c_colon : N := 58.      (* colon *)

(** JSON texts are full of double quotes; [jq] reads every apostrophe of
    its argument as a double quote, so that [jq "{'a':'b'}"] is the text
    of a one-field JSON object. *)
Definition jq (s : string) : jsstring :=
  (λ c, if c =? 39 then c_quote else c) <$> js s.

Global Arguments jq : simpl never.

(** [a === b] on strings. *)
Definition str_eqb (a b : jsstring) : bool := bool_decide (a = b).

(** The class [\s] of ECMAScript regular expressions, which is also the
    set removed by [String.prototype.trim]: WhiteSpace and
    LineTerminator. *)
Definition is_ws (c : N) : bool :=
  ((9 <=? c) && (c <=? 13)) || (c =? 32) || (c =? 160) || (c =? 5760)
  || ((8192 <=? c) && (c <=? 8202)) || (c =? 8232) || (c =? 8233)
  || (c =? 8239) || (c =? 8287) || (c =? 12288) || (c =? 65279).

(** Greedy [X*] for a one-character class [X]: what is left after it. *)
Fixpoint skip_while (p : N -> bool) (s : jsstring) : jsstring :=
  match s with
  | c :: t => if p c then skip_while p t else s
  | [] => []
  end.

(** [s.trim()]. *)
Definition trim (s : jsstring) : jsstring :=
  rev (skip_while is_ws (rev (skip_while is_ws s))).

(** Literal prefix: the rest of [s] after [p], if [s] starts with [p]. *)
Fixpoint strip_prefix (p s : jsstring) : option jsstring :=
  match p, s with
  | [], _ => Some s
  | a :: p', b :: s' => if a =? b then strip_prefix p' s' else None
  | _ :: _, [] => None
  end.

Definition startsWith (s p : jsstring) : bool :=
  match strip_prefix p s with Some _ => true | None => false end.

Definition endsWith (s p : jsstring) : bool :=
  startsWith (rev s) (rev p).

(** [String(n)] for a non-negative integer. *)
Definition of_N (n : N) : jsstring :=
  js (NilEmpty.string_of_uint (N.to_uint n)).

Global Arguments of_N : simpl never.

(** ASCII [toLowerCase] (the only part of it the sources rely on: it is
    applied to names matched by [[a-zA-Z][a-zA-Z0-9]*]). *)
Definition lower (c : N) : N :=
  if (65 <=? c) && (c <=? 90) then c + 32 else c.

Definition toLowerCase (s : jsstring) : jsstring := lower <$> s.

(** Case-insensitive literal prefix, for a regular expression literal made
    of ASCII letters and punctuation under the [i] flag (without [u], a
    non-ASCII code unit never folds to an ASCII one). *)
Fixpoint strip_prefix_ci (p s : jsstring) : option jsstring :=
  match p, s with
  | [], _ => Some s
  | a :: p', b :: s' =>
      if (b <? 128) && (lower a =? lower b) then strip_prefix_ci p' s'
      else None
  | _ :: _, [] => None
  end.

(** Does the literal [p] occur somewhere in [s] (case-insensitively)? *)
Fixpoint occurs_ci (p s : jsstring) : bool :=
  match strip_prefix_ci p s with
  | Some _ => true
  | None => match s with [] => false | _ :: t => occurs_ci p t end
  end.

(** [s.lastIndexOf(p)]: [-1] when [p] does not occur. *)
Fixpoint lastIndexOf_from (p s : jsstring) (i : Z) (found : Z) : Z :=
  let found' := if startsWith s p then i else found in
  match s with
  | [] => found'
  | _ :: t => lastIndexOf_from p t (i + 1)%Z found'
  end.

Definition lastIndexOf (s p : jsstring) : Z := lastIndexOf_from p s 0%Z (-1)%Z.

(** [s.substring(0, e)]: a negative end counts as 0, one past the length as
    the length. *)
Definition substring0 (s : jsstring) (e : Z) : jsstring :=
  take (Z.to_nat e) s.

(** [s.replace(/ab/g, r)] for a two-character literal [ab]. *)
Fixpoint replace_pair (a b : N) (r : jsstring) (s : jsstring) : jsstring :=
  match s with
  | x :: t =>
      match t with
      | y :: t' =>
          if (x =? a) && (y =? b) then r ++ replace_pair a b r t'
          else x :: replace_pair a b r t
      | [] => [x]
      end
  | [] => []
  end.

(** [s.replace(/a/g, r)] for a one-character literal. *)
Definition replace_char (a : N) (r : jsstring) (s : jsstring) : jsstring :=
  mjoin ((λ c, if c =? a then r else [c]) <$> s).

End JS.
Export JS.

(* ===================================================================== *)
(** ** Partial-JSON field extractor                                       *)
(* ===================================================================== *)

Module Extract.

(** *** [JSON.parse] on a text that starts with a double quote

    Such a text is valid JSON exactly when it is one string literal
    followed by JSON white space only. *)

Definition hex_digit (c : N) : option N :=
  if (48 <=? c) && (c <=? 57) then Some (c - 48)
  else if (65 <=? c) && (c <=? 70) then Some (c - 55)
  else if (97 <=? c) && (c <=? 102) then Some (c - 87)
  else None.

Definition json_ws (c : N) : bool :=
  (c =? 9) || (c =? 10) || (c =? 13) || (c =? 32).

Definition simple_escape (c : N) : option N :=
  if c =? 34 then Some 34        (* quote *)
  else if c =? 92 then Some 92   (* backslash *)
  else if c =? 47 then Some 47   (* slash *)
  else if c =? 98 then Some 8    (* b: backspace *)
  else if c =? 102 then Some 12  (* f: form feed *)
  else if c =? 110 then Some 10  (* n: line feed *)
  else if c =? 114 then Some 13  (* r: carriage return *)
  else if c =? 116 then Some 9   (* t: tab *)
  else None.

(** The characters of a string literal after its opening quote; [None] is
    a [SyntaxError]. *)
Fixpoint json_string_body (s : jsstring) (acc : jsstring) {struct s}
  : option jsstring :=
  match s with
  | [] => None
  | c :: t =>
      if c =? c_quote then
        if forallb json_ws t then Some acc else None
      else if c =? c_backslash then
        match t with
        | [] => None
        | e :: t' =>
            if e =? 117 (* u *) then
              match t' with
              | h1 :: h2 :: h3 :: h4 :: t'' =>
                  match hex_digit h1, hex_digit h2, hex_digit h3, hex_digit h4 with
                  | Some d1, Some d2, Some d3, Some d4 =>
                      json_string_body t''
                        (acc ++ [((d1 * 16 + d2) * 16 + d3) * 16 + d4])
                  | _, _, _, _ => None
                  end
              | _ => None
              end
            else
              match simple_escape e with
              | Some v => json_string_body t' (acc ++ [v])
              | None => None
              end
        end
      else if c <? 32 then None
      else json_string_body t (acc ++ [c])
  end.

Definition JSON_parse_quoted (text : jsstring) : option jsstring :=
  match text with
  | c :: t => if c =? c_quote then json_string_body t [] else None
  | [] => None
  end.

(** [unescapeJsonString]: [JSON.parse] of the re-quoted text, and on a
    [SyntaxError] the chain of five literal replacements. *)
Definition unescapeJsonString (s : jsstring) : jsstring :=
  match JSON_parse_quoted
          ([c_quote] ++ replace_char c_quote [c_backslash; c_quote] s ++ [c_quote]) with
  | Some v => v
  | None =>
      replace_pair c_backslash c_backslash [c_backslash]
        (replace_pair c_backslash c_quote [c_quote]
           (replace_pair c_backslash 114 [13]
              (replace_pair c_backslash 116 [9]
                 (replace_pair c_backslash 110 [10] s))))
  end.

(** *** The regular expression: quote, field, quote, [\s*:\s*], quote

    [field] is escaped character by character before it is spliced into
    the pattern, so it matches literally.  [field_match_at field s] is the
    text after a match that starts at the head of [s]. *)
Definition field_match_at (field s : jsstring) : option jsstring :=
  match strip_prefix ([c_quote] ++ field ++ [c_quote]) s with
  | None => None
  | Some r1 =>
      match skip_while is_ws r1 with
      | c :: r2 =>
          if c =? c_colon then
            match skip_while is_ws r2 with
            | q :: r3 => if q =? c_quote then Some r3 else None
            | [] => None
            end
          else None
      | [] => None
      end
  end.

(** The [while ((m = re.exec(jsonLike)) !== null)] loop of a global
    regular expression: each search resumes where the previous match
    ended.  The result is the text from the last [lastIndex] on. *)
Fixpoint exec_loop (fuel : nat) (field s : jsstring) (last : option jsstring)
  : option jsstring :=
  match fuel with
  | O => last
  | S fuel =>
      match field_match_at field s with
      | Some rest => exec_loop fuel field rest (Some rest)
      | None =>
          match s with
          | [] => last
          | _ :: t => exec_loop fuel field t last
          end
      end
  end.

Definition last_field_match (field jsonLike : jsstring) : option jsstring :=
  exec_loop (S (length jsonLike)) field jsonLike None.

(** The scanning loop [while (i < jsonLike.length)], with its [escaped]
    flag and its accumulator [out].  It leaves either at the [break] on an
    unescaped quote or at the end of the buffer, and the accumulator is
    what the code goes on with in both cases. *)
Fixpoint scan_value (s : jsstring) (escaped : bool) (out : jsstring) : jsstring :=
  match s with
  | [] => out
  | ch :: rest =>
      if escaped then scan_value rest false (out ++ [c_backslash; ch])
      else if ch =? c_backslash then scan_value rest true out
      else if ch =? c_quote then out
      else scan_value rest false (out ++ [ch])
  end.

(** [null] is [None]. *)
Definition extractLatestJsonStringField (jsonLike field : jsstring)
  : option jsstring :=
  match last_field_match field jsonLike with
  | None => None
  | Some tail => Some (unescapeJsonString (scan_value tail false []))
  end.

End Extract.

(* ===================================================================== *)
(** ** Markup healer                                                      *)
(* ===================================================================== *)

Module Heal.

(** The two constant sets of [healHtmlStream]. *)
Definition selfClosing : list jsstring :=
  js <$> ["img"; "br"; "hr"; "input"; "meta"; "link"; "area"; "base"; "col";
          "embed"; "param"; "source"; "track"; "wbr"]%string.

Definition complex : list jsstring := js <$> ["script"; "style"]%string.

Definition has (set : list jsstring) (x : jsstring) : bool :=
  existsb (str_eqb x) set.

Definition not_gt (c : N) : bool := negb (c =? c_gt).

(** *** Regular expressions anchored at the end of the input

    Each of the three patterns below ends in [$], so a match is a suffix
    of the input.  A pattern is given by the test [P] that says whether it
    matches at the head of a suffix. *)

(** [re.test(s)]. *)
Fixpoint re_test (P : jsstring -> bool) (s : jsstring) : bool :=
  P s || match s with [] => false | _ :: t => re_test P t end.

(** [s.match(re)]: the leftmost match, that is [m[0]]. *)
Fixpoint re_match (P : jsstring -> bool) (s : jsstring) : option jsstring :=
  if P s then Some s
  else match s with [] => None | _ :: t => re_match P t end.

(** [s.replace(re, '')]: the input without its leftmost match. *)
Fixpoint re_remove (P : jsstring -> bool) (s : jsstring) : jsstring :=
  if P s then []
  else match s with [] => [] | c :: t => c :: re_remove P t end.

(** [openTagRegex]: [<tag[^>]*>(?:(?!<\/tag>)[\s\S])*$] with flag [i]. *)
Definition openTagRegex (tag : jsstring) (s : jsstring) : bool :=
  match strip_prefix_ci ([c_lt] ++ tag) s with
  | None => false
  | Some r =>
      match skip_while not_gt r with
      | _ :: body => negb (occurs_ci ([c_lt; c_slash] ++ tag ++ [c_gt]) body)
      | [] => false
      end
  end.

(** [incompleteOpen]: [<tag[^>]*$] with flag [i]. *)
Definition incompleteOpen (tag : jsstring) (s : jsstring) : bool :=
  match strip_prefix_ci ([c_lt] ++ tag) s with
  | None => false
  | Some r => forallb not_gt r
  end.

(** [/<[^>]*$/]. *)
Definition incompleteTag (s : jsstring) : bool :=
  match s with
  | c :: r => (c =? c_lt) && forallb not_gt r
  | [] => false
  end.

(** One turn of the loop [for (const tag of complex)]. *)
Definition drop_incomplete_block (healed tag : jsstring) : jsstring :=
  let healed :=
    match re_match (openTagRegex tag) healed with
    | Some m0 => substring0 healed (lastIndexOf healed m0)
    | None => healed
    end in
  if re_test (incompleteOpen tag) healed
  then re_remove (incompleteOpen tag) healed
  else healed.

(** *** [tagRegex], with flag [g]

    The pattern is: a less-than sign, an optional slash, the captured name
    (a letter of [a-zA-Z] and then any number of [a-zA-Z0-9]), any number
    of [[^>]], and a greater-than sign. *)

Definition is_alpha (c : N) : bool :=
  ((65 <=? c) && (c <=? 90)) || ((97 <=? c) && (c <=? 122)).

Definition is_alnum (c : N) : bool :=
  is_alpha c || ((48 <=? c) && (c <=? 57)).

Fixpoint take_while (p : N -> bool) (s : jsstring) : jsstring :=
  match s with
  | c :: t => if p c then c :: take_while p t else []
  | [] => []
  end.

Record tag_match := {
  full : jsstring;   (* match[0] *)
  name1 : jsstring;  (* match[1] *)
  after : jsstring;  (* the input from lastIndex on *)
}.

(** A match of [tagRegex] at the head of [s]. *)
Definition tag_at (s : jsstring) : option tag_match :=
  match s with
  | c :: r =>
      if c =? c_lt then
        let r1 := match r with
                  | d :: r' => if d =? c_slash then r' else r
                  | [] => r
                  end in
        match r1 with
        | l :: r2 =>
            if is_alpha l then
              match skip_while not_gt (skip_while is_alnum r2) with
              | _ :: rest =>
                  Some {| full := take (length s - length rest)%nat s;
                          name1 := l :: take_while is_alnum r2;
                          after := rest |}
              | [] => None
              end
            else None
        | [] => None
        end
      else None
  | [] => None
  end.

(** The body of the [while ((match = tagRegex.exec(healed)) !== null)]
    loop.  [tagStack] is the JS array: [push] appends, [pop] removes the
    last element. *)
Definition walk_step (m : tag_match) (tagStack : list jsstring) : list jsstring :=
  let name := toLowerCase (name1 m) in
  if has selfClosing name || has complex name then tagStack
  else if startsWith (full m) [c_lt; c_slash] then
    if bool_decide (list.last tagStack = Some name) then removelast tagStack
    else tagStack
  else if negb (endsWith (full m) [c_slash; c_gt]) then tagStack ++ [name]
  else tagStack.

Fixpoint walk (fuel : nat) (s : jsstring) (tagStack : list jsstring)
  : list jsstring :=
  match fuel with
  | O => tagStack
  | S fuel =>
      match tag_at s with
      | Some m => walk fuel (after m) (walk_step m tagStack)
      | None =>
          match s with
          | [] => tagStack
          | _ :: t => walk fuel t tagStack
          end
      end
  end.

Definition open_tags (healed : jsstring) : list jsstring :=
  walk (S (length healed)) healed [].

(** [tagStack.reverse().map(t => `</${t}>`).join('')]. *)
Definition closers (tagStack : list jsstring) : jsstring :=
  mjoin ((λ t, [c_lt; c_slash] ++ t ++ [c_gt]) <$> rev tagStack).

(** The first half of [healHtmlStream]: the loop over [complex], and the
    removal of a trailing incomplete tag. *)
Definition cut_incomplete (partialHTML : jsstring) : jsstring :=
  let healed := partialHTML in
  let healed := fold_left drop_incomplete_block complex healed in
  if re_test incompleteTag healed
  then re_remove incompleteTag healed else healed.

Definition healHtmlStream (partialHTML : jsstring) : jsstring :=
  let healed := cut_incomplete partialHTML in
  let tagStack := open_tags healed in
  match tagStack with
  | [] => healed
  | _ => healed ++ closers tagStack
  end.

End Heal.

(* ===================================================================== *)
(** ** The browser DOM, as the tool handlers use it                       *)
(* ===================================================================== *)

(** A JS call either throws or returns. *)
Inductive outcome (A : Type) : Type :=
| Throws (e : jsstring)
| Returns (a : A).
Arguments Throws {A} e.
Arguments Returns {A} a.

(** The DOM is the browser's.  A [Document] value is the state of one parsed
    document; a call that mutates the document returns its new state, and a
    call that throws leaves it as it was.  [Element] values are node
    references: they stay usable while the document changes. *)
Class DomApi := {
  Document : Type;
  Element : Type;
  (** [new DOMParser().parseFromString(s, 'text/html')] *)
  parseFromString : jsstring → Document;
  (** [doc.documentElement], and its [outerHTML] when there is one *)
  documentElement_outerHTML : Document → option jsstring;
  (** [Array.from(doc.querySelectorAll(sel))] *)
  querySelectorAll : Document → jsstring → outcome (list Element);
  (** [el.textContent = text] *)
  set_textContent : jsstring → Element → Document → outcome Document;
  (** [el.innerHTML = html] *)
  set_innerHTML : jsstring → Element → Document → outcome Document;
  (** the template element filled with [html], cloned, and
      [el.replaceWith(...childNodes)] *)
  replaceWith_html : jsstring → Element → Document → outcome Document;
  (** [el.insertAdjacentHTML(position, html)] *)
  insertAdjacentHTML : jsstring → jsstring → Element → Document → outcome Document;
  (** [el.setAttribute(name, value)] *)
  setAttribute : jsstring → jsstring → Element → Document → outcome Document;
  (** [el.removeAttribute(name)] *)
  removeAttribute : jsstring → Element → Document → outcome Document;
  (** [el.classList.add(c)] *)
  classList_add : jsstring → Element → Document → outcome Document;
  (** [el.classList.remove(c)] *)
  classList_remove : jsstring → Element → Document → outcome Document;
  (** [el.remove()] *)
  remove_element : Element → Document → outcome Document;
}.

(* ===================================================================== *)
(** ** The window store and the tool handlers                             *)
(* ===================================================================== *)

Module Tools.

(** [DomMutation] of the agent library. *)
Inductive DomMutation : Type :=
| set_text (selector text : jsstring)
| set_html (selector html : jsstring)
| replace_with_html (selector html : jsstring)
| insert_html (selector position html : jsstring)
| set_attr (selector name value : jsstring)
| remove_attr (selector name : jsstring)
| add_class (selector class : jsstring)
| remove_class (selector class : jsstring)
| remove (selector : jsstring).

Definition action (m : DomMutation) : jsstring :=
  match m with
  | set_text _ _ => js "set_text"
  | set_html _ _ => js "set_html"
  | replace_with_html _ _ => js "replace_with_html"
  | insert_html _ _ _ => js "insert_html"
  | set_attr _ _ _ => js "set_attr"
  | remove_attr _ _ => js "remove_attr"
  | add_class _ _ => js "add_class"
  | remove_class _ _ => js "remove_class"
  | remove _ => js "remove"
  end.

Definition selector (m : DomMutation) : jsstring :=
  match m with
  | set_text s _ | set_html s _ | replace_with_html s _ | insert_html s _ _
  | set_attr s _ _ | remove_attr s _ | add_class s _ | remove_class s _
  | remove s => s
  end.

(** One entry of [details]. *)
Record detail := {
  d_action : jsstring;
  d_selector : jsstring;
  matched : N;
  applied : N;
  error : option jsstring;
}.

Record totals_t := {
  totalMutations : N;
  totalTargets : N;
  totalApplied : N;
  failed : Z;
}.

Record DomReplaceResult := {
  dr_status : jsstring;
  dr_windowId : jsstring;
  dr_html : jsstring;
  totals : totals_t;
  details : list detail;
}.

Inductive create_status := created | renamed.

Record CreateNewWindowResult := {
  status : create_status;
  name : jsstring;
  finalName : jsstring;
  nodeId : jsstring;
  windowId : jsstring;
}.

Record UpdateTitleResult := {
  ut_status : jsstring;
  ut_windowId : jsstring;
  ut_title : jsstring;
}.

(** A canvas node, with the fields the handlers read or write (position
    and size, computed from the viewport, are left out).  A missing
    [data.html] and a missing [zIndex] read as the empty string and 0, as
    in [html || ''] and [zIndex || 0]. *)
Record node := {
  id : jsstring;
  html : jsstring;
  title : jsstring;
  zIndex : N;
  selected : bool;
}.

(** The refs of the component and its [nodes] state. *)
Record store := {
  nodes : list node;
  nameToNodeId : gmap jsstring jsstring;
  nodeIdToName : gmap jsstring jsstring;
  windowIdToNodeId : gmap jsstring jsstring;
  nodeIdToWindowId : gmap jsstring jsstring;
  provisionalNameToNodeId : gmap jsstring jsstring;
  (** pending throttled preview writes, by node id *)
  iframeUpdateQueue : gmap jsstring jsstring;
  (** [documentElement.outerHTML] of the live iframe document of a node,
      for the nodes whose iframe has one *)
  liveOuterHTML : gmap jsstring jsstring;
  createSequence : N;
  focusedWindowId : option jsstring;
}.

(** A string is truthy when it is not empty. *)
Definition truthy (s : jsstring) : bool :=
  match s with [] => false | _ => true end.

(** [map.get(k)] followed by a truthiness test. *)
Definition get_truthy (m : gmap jsstring jsstring) (k : jsstring) : option jsstring :=
  match m !! k with
  | Some v => if truthy v then Some v else None
  | None => None
  end.

Definition map_has (m : gmap jsstring jsstring) (k : jsstring) : bool :=
  bool_decide (is_Some (m !! k)).

(** *** [createNewWindow] *)

(** The loop [while (nameToNodeIdRef.current.has(finalName))].  Every turn
    tries a new name, so it ends within [size names + 1] tests; the fuel
    is that bound. *)
Fixpoint unique_name_loop (fuel : nat) (names : gmap jsstring jsstring)
    (name finalName : jsstring) (suffix : N) : option jsstring :=
  match fuel with
  | O => None
  | S fuel =>
      if map_has names finalName
      then unique_name_loop fuel names name
             (name ++ js " (" ++ of_N suffix ++ js ")") (suffix + 1)
      else Some finalName
  end.

Definition unique_name (names : gmap jsstring jsstring) (name : jsstring)
  : option jsstring :=
  unique_name_loop (S (size names)) names name (trim name) 2.

(** [genWindowId] draws from [Math.random]; [draws] lists the successive
    values of [Math.random().toString(36).slice(2, 8)].  The loop
    [while (windowIdToNodeIdRef.current.has(windowId))] draws again until
    the identifier is unused; [None] stands for a run in which the draws
    given do not suffice. *)
Fixpoint fresh_windowId (draws : list jsstring) (ids : gmap jsstring jsstring)
  : option (jsstring * list jsstring) :=
  match draws with
  | [] => None
  | r :: draws =>
      let windowId := js "w" ++ r in
      if map_has ids windowId then fresh_windowId draws ids
      else Some (windowId, draws)
  end.

(** [decodePossibleEscapes]. *)
Definition decodePossibleEscapes (value : jsstring) : jsstring :=
  if negb (existsb (N.eqb c_backslash) value) then value
  else Extract.unescapeJsonString value.

Definition maxZIndex (nds : list node) : N :=
  fold_left (λ mx n, N.max mx (zIndex n)) nds 0.

Definition deselect (n : node) : node :=
  {| id := id n; html := html n; title := title n; zIndex := zIndex n;
     selected := false |}.

(** What the handler takes from outside: the random draws and the clock. *)
Record env := {
  draws : list jsstring;
  now : N;
}.

Definition createNewWindow (name html : jsstring) (e : env) (st : store)
  : option (CreateNewWindowResult * store * env) :=
  finalName ← unique_name (nameToNodeId st) name;
  '(windowId, draws1) ← fresh_windowId (draws e) (windowIdToNodeId st);
  let provisionalId := get_truthy (provisionalNameToNodeId st) name in
  let normalizedHtml := decodePossibleEscapes html in
  let renamed := negb (str_eqb finalName name) in
  match provisionalId with
  | Some provisionalId =>
      let mz := maxZIndex (nodes st) in
      let nodes' :=
        (λ n, if negb (str_eqb (id n) provisionalId) then deselect n
              else {| id := id n; html := normalizedHtml; title := finalName;
                      zIndex := N.max (mz + 1) (zIndex n); selected := true |})
          <$> nodes st in
      Some ({| status := if renamed then Tools.renamed else created;
               name := name; finalName := finalName;
               nodeId := provisionalId; windowId := windowId |},
            {| nodes := nodes';
               nameToNodeId := <[finalName := provisionalId]> (nameToNodeId st);
               nodeIdToName := <[provisionalId := finalName]> (nodeIdToName st);
               windowIdToNodeId := <[windowId := provisionalId]> (windowIdToNodeId st);
               nodeIdToWindowId := <[provisionalId := windowId]> (nodeIdToWindowId st);
               provisionalNameToNodeId := delete name (provisionalNameToNodeId st);
               iframeUpdateQueue := iframeUpdateQueue st;
               liveOuterHTML := liveOuterHTML st;
               createSequence := createSequence st;
               focusedWindowId := Some windowId |},
            {| draws := draws1; now := now e |})
  | None =>
      match draws1 with
      | [] => None
      | r :: draws2 =>
          let newId := js "iframe-" ++ of_N (now e) ++ js "-" ++ r in
          let mz := maxZIndex (nodes st) in
          let newNode := {| id := newId; html := normalizedHtml; title := finalName;
                            zIndex := N.max (mz + 1) 1000; selected := true |} in
          Some ({| status := if renamed then Tools.renamed else created;
                   name := name; finalName := finalName;
                   nodeId := newId; windowId := windowId |},
                {| nodes := (deselect <$> nodes st) ++ [newNode];
                   nameToNodeId := <[finalName := newId]> (nameToNodeId st);
                   nodeIdToName := <[newId := finalName]> (nodeIdToName st);
                   windowIdToNodeId := <[windowId := newId]> (windowIdToNodeId st);
                   nodeIdToWindowId := <[newId := windowId]> (nodeIdToWindowId st);
                   provisionalNameToNodeId := provisionalNameToNodeId st;
                   iframeUpdateQueue := iframeUpdateQueue st;
                   liveOuterHTML := liveOuterHTML st;
                   createSequence := (createSequence st + 1) mod 2 ^ 32;
                   focusedWindowId := Some windowId |},
                {| draws := draws2; now := now e |})
      end
  end.

(** *** [updateWindowTitle] *)

Definition set_title (t : jsstring) (n : node) : node :=
  {| id := id n; html := html n; title := t; zIndex := zIndex n;
     selected := selected n |}.

Definition updateWindowTitle (windowId title : jsstring) (st : store)
  : UpdateTitleResult * store :=
  let res := {| ut_status := js "updated"; ut_windowId := windowId;
                ut_title := title |} in
  match get_truthy (windowIdToNodeId st) windowId with
  | None => (res, st)
  | Some nodeId =>
      let names1 :=
        match get_truthy (nodeIdToName st) nodeId with
        | Some prevName => delete prevName (nameToNodeId st)
        | None => nameToNodeId st
        end in
      (res,
       {| nodes := (λ n, if negb (str_eqb (id n) nodeId) then n
                         else set_title title n) <$> nodes st;
          nameToNodeId := <[title := nodeId]> names1;
          nodeIdToName := <[nodeId := title]> (nodeIdToName st);
          windowIdToNodeId := windowIdToNodeId st;
          nodeIdToWindowId := nodeIdToWindowId st;
          provisionalNameToNodeId := provisionalNameToNodeId st;
          iframeUpdateQueue := iframeUpdateQueue st;
          liveOuterHTML := liveOuterHTML st;
          createSequence := createSequence st;
          focusedWindowId := focusedWindowId st |})
  end.

(** *** [domReplace] *)

Definition skeleton : jsstring :=
  jq "<!DOCTYPE html><html><head><meta charset='utf-8'></head><body></body></html>".

Definition doctype : jsstring := js "<!DOCTYPE html>".

(** [getLiveIframeHtml]. *)
Definition getLiveIframeHtml (st : store) (nodeId : jsstring) : option jsstring :=
  (λ outer, doctype ++ outer) <$> liveOuterHTML st !! nodeId.

(** [nds.map(f)] for a callback [f] that also updates variables of the
    enclosing function. *)
Fixpoint map_acc {A B S : Type} (f : S → A → B * S) (s : S) (l : list A)
  : list B * S :=
  match l with
  | [] => ([], s)
  | a :: l =>
      let '(b, s1) := f s a in
      let '(bs, s2) := map_acc f s1 l in
      (b :: bs, s2)
  end.

Section WithDom.
Context `{dom : DomApi}.

(** The effect of a mutation on one matched element. *)
Definition effect (m : DomMutation) : Element → Document → outcome Document :=
  match m with
  | set_text _ text => set_textContent text
  | set_html _ html => set_innerHTML html
  | replace_with_html _ html => replaceWith_html html
  | insert_html _ position html => insertAdjacentHTML position html
  | set_attr _ name value => setAttribute name value
  | remove_attr _ name => removeAttribute name
  | add_class _ class => classList_add class
  | remove_class _ class => classList_remove class
  | remove _ => remove_element
  end.

(** [for (const el of list) { ...; appliedCount++; }]: the elements
    handled before a throw keep their change. *)
Fixpoint for_each (f : Element → Document → outcome Document)
    (list : list Element) (doc : Document) (appliedCount : N)
  : Document * outcome N :=
  match list with
  | [] => (doc, Returns appliedCount)
  | el :: list =>
      match f el doc with
      | Throws err => (doc, Throws err)
      | Returns doc' => for_each f list doc' (appliedCount + 1)
      end
  end.

(** The variables [applyMutations] works on: the document, the two
    counters of the enclosing handler and [localDetails]. *)
Record mut_state := {
  doc : Document;
  targets : N;
  applied_sum : N;
  localDetails : list detail;
}.

Definition failure (m : DomMutation) (err : jsstring) : detail :=
  {| d_action := action m; d_selector := selector m; matched := 0;
     applied := 0; error := Some err |}.

(** The body of [for (const m of muts)]: a [try] with its [catch]. *)
Definition apply_one (s : mut_state) (m : DomMutation) : mut_state :=
  match querySelectorAll (doc s) (selector m) with
  | Throws err =>
      {| doc := doc s; targets := targets s; applied_sum := applied_sum s;
         localDetails := localDetails s ++ [failure m err] |}
  | Returns list =>
      match for_each (effect m) list (doc s) 0 with
      | (doc', Throws err) =>
          {| doc := doc'; targets := targets s; applied_sum := applied_sum s;
             localDetails := localDetails s ++ [failure m err] |}
      | (doc', Returns appliedCount) =>
          {| doc := doc';
             targets := targets s + N.of_nat (length list);
             applied_sum := applied_sum s + appliedCount;
             localDetails := localDetails s ++
               [{| d_action := action m; d_selector := selector m;
                   matched := N.of_nat (length list);
                   applied := appliedCount; error := None |}] |}
      end
  end.

Definition applyMutations (s : mut_state) (muts : list DomMutation) : mut_state :=
  fold_left apply_one muts s.

(** The variables of [domReplace] that the [setNodes] callback assigns. *)
Record edit_acc := {
  acc_details : list detail;
  acc_targets : N;
  acc_applied : N;
  finalHtml : jsstring;
}.

Definition serialize (d : Document) : jsstring :=
  doctype ++ default [] (documentElement_outerHTML d).

(** The callback of [nds.map] in [domReplace]. *)
Definition edit_node (st : store) (nodeId : jsstring)
    (mutations : list DomMutation) (a : edit_acc) (n : node) : node * edit_acc :=
  if negb (str_eqb (id n) nodeId) then (n, a)
  else
    let currentHtml := default (html n) (getLiveIframeHtml st nodeId) in
    let d := parseFromString (if truthy currentHtml then currentHtml else skeleton) in
    let s := applyMutations
               {| doc := d; targets := acc_targets a;
                  applied_sum := acc_applied a; localDetails := [] |}
               mutations in
    let final := serialize (doc s) in
    ({| id := id n; html := final; title := title n; zIndex := zIndex n;
        selected := selected n |},
     {| acc_details := localDetails s; acc_targets := targets s;
        acc_applied := applied_sum s; finalHtml := final |}).

Definition count_applied (ds : list detail) : nat :=
  length (filter (λ d, 0 < applied d) ds).

(** When React runs the updater that a handler passes to [setNodes].
    React calls it inside [setNodes] when the component has no update
    pending, and queues it for the next render otherwise (as for the
    second tool call of a step, which follows the [setNodes] of the
    first).  Which of the two happens is decided outside the repository.
    The other handlers do not read what their updater assigns, and the
    store has their updaters applied in the order of the calls;
    [domReplace] reads the variables of its updater right after
    [setNodes], so it takes the dispatch as an argument. *)
Inductive dispatch := eager | queued.

(** The variables of [domReplace] as declared, before any updater has
    run. *)
Definition declared : edit_acc :=
  {| acc_details := []; acc_targets := 0; acc_applied := 0; finalHtml := [] |}.

(** The updater of [domReplace], [(nds) => nds.map(...)], run on the
    store [st]: the nodes it returns and the variables it leaves. *)
Definition domReplace_updater (nodeId : jsstring) (mutations : list DomMutation)
    (st : store) : list node * edit_acc :=
  map_acc (edit_node st nodeId mutations) declared (nodes st).

(** The result the handler builds after [setNodes], from the variables
    as they are then. *)
Definition edit_result (windowId : jsstring) (mutations : list DomMutation)
    (a : edit_acc) : DomReplaceResult :=
  {| dr_status := js "edited"; dr_windowId := windowId;
     dr_html := finalHtml a;
     totals := {| totalMutations := N.of_nat (length mutations);
                  totalTargets := acc_targets a;
                  totalApplied := acc_applied a;
                  failed := Z.of_nat (length mutations)
                            - Z.of_nat (count_applied (acc_details a)) |};
     details := acc_details a |}.

(** [domReplace].  With an [eager] dispatch the updater has run when
    [setNodes] returns: the canvas has the new nodes and the result is
    built from what the updater assigned.  With a [queued] dispatch the
    handler returns before the updater runs: the canvas is as it was and
    the result is built from the variables as declared. *)
Definition domReplace (t : dispatch) (windowId : jsstring)
    (mutations : list DomMutation) (st : store) : DomReplaceResult * store :=
  match get_truthy (windowIdToNodeId st) windowId with
  | None =>
      ({| dr_status := js "edited"; dr_windowId := windowId; dr_html := [];
          totals := {| totalMutations := N.of_nat (length mutations);
                       totalTargets := 0; totalApplied := 0;
                       failed := Z.of_nat (length mutations) |};
          details := (λ m, {| d_action := action m; d_selector := selector m;
                              matched := 0; applied := 0; error := None |})
                     <$> mutations |},
       st)
  | Some nodeId =>
      let '(nodes', a) :=
        match t with
        | eager => domReplace_updater nodeId mutations st
        | queued => (nodes st, declared)
        end in
      (edit_result windowId mutations a,
       {| nodes := nodes';
          nameToNodeId := nameToNodeId st;
          nodeIdToName := nodeIdToName st;
          windowIdToNodeId := windowIdToNodeId st;
          nodeIdToWindowId := nodeIdToWindowId st;
          provisionalNameToNodeId := provisionalNameToNodeId st;
          iframeUpdateQueue := delete nodeId (iframeUpdateQueue st);
          liveOuterHTML := liveOuterHTML st;
          createSequence := createSequence st;
          focusedWindowId := focusedWindowId st |})
  end.

(** The updater of a [queued] call of [domReplace] for the node
    [nodeId], when React runs it at a later render, on the store as it
    is by then.  What it assigns is read by nobody: the handler has
    returned. *)
Definition run_queued (nodeId : jsstring) (mutations : list DomMutation)
    (st : store) : store :=
  {| nodes := (domReplace_updater nodeId mutations st).1;
     nameToNodeId := nameToNodeId st;
     nodeIdToName := nodeIdToName st;
     windowIdToNodeId := windowIdToNodeId st;
     nodeIdToWindowId := nodeIdToWindowId st;
     provisionalNameToNodeId := provisionalNameToNodeId st;
     iframeUpdateQueue := iframeUpdateQueue st;
     liveOuterHTML := liveOuterHTML st;
     createSequence := createSequence st;
     focusedWindowId := focusedWindowId st |}.

End WithDom.

End Tools.

(* ===================================================================== *)
(** ** The orchestration loop: [runAgentStream]                           *)
(* ===================================================================== *)

Module Agent.

(** *** What the transport delivers *)

(** A property of a usage object: missing or null, a number, or a value of
    another type. *)
Inductive field : Type := Absent | Number (z : Z) | NotNumber.

(** [a ?? b]. *)
Definition nullish (a b : field) : field :=
  match a with Absent => b | _ => a end.

Record usage_obj := {
  prompt_tokens : field;
  input_tokens : field;
  total_prompt_tokens : field;
  completion_tokens : field;
  output_tokens : field;
  total_completion_tokens : field;
}.

(** One entry of [delta.tool_calls]. *)
Record tool_call_delta := {
  tc_index : option N;
  tc_id : option jsstring;
  tc_name : option jsstring;        (* [tc.function.name] *)
  tc_arguments : option jsstring;   (* [tc.function.arguments] *)
}.

Record chunk := {
  content : option jsstring;                  (* [choices[0].delta.content] *)
  tool_calls : option (list tool_call_delta); (* [choices[0].delta.tool_calls] *)
  usage : option usage_obj;                   (* [chunk.usage] *)
}.

(** How the iteration over a stream ends: it is exhausted, and
    [finalChatCompletion] (when present and not failing) gives a usage
    object; or reading it throws. *)
Inductive ending : Type :=
| Completed (final_usage : option usage_obj)
| Failed (err : jsstring).

(** The answer to one [chat.completions.create] call. *)
Inductive response : Type :=
| Rejected (err : jsstring)
| Stream (chunks : list chunk) (e : ending).

(** *** The caller-facing events and deferred values *)

Inductive finishReason := stop | length_reason.

Inductive event (R : Type) : Type :=
| text_delta (text : jsstring)
| tool_call (toolName toolCallId : jsstring)
| tool_input_delta (toolName : option jsstring) (toolCallId delta : jsstring)
| tool_result (toolCallId toolName : jsstring) (output : option R)
| finish_step
| finish (reason : finishReason)
| error_event (message : jsstring).
Arguments text_delta {R} text.
Arguments tool_call {R} toolName toolCallId.
Arguments tool_input_delta {R} toolName toolCallId delta.
Arguments tool_result {R} toolCallId toolName output.
Arguments finish_step {R}.
Arguments finish {R} reason.
Arguments error_event {R} message.

Inductive final_usage : Type :=
| tokens (promptTokens completionTokens : Z)
| no_tokens.   (* [{ inputTokens: null, outputTokens: null }] *)

(** The three promises; [None] is a pending one.  Resolving a promise
    that is already resolved does nothing. *)
Record deferred (R : Type) := {
  text : option jsstring;
  toolResults : option (list (jsstring * jsstring * option R));
  totalUsage : option final_usage;
}.
Arguments text {R} d.
Arguments toolResults {R} d.
Arguments totalUsage {R} d.

Definition settle {A : Type} (p : option A) (v : A) : option A :=
  match p with Some _ => p | None => Some v end.

Definition resolve_text {R} (v : jsstring) (d : deferred R) : deferred R :=
  {| text := settle (text d) v; toolResults := toolResults d;
     totalUsage := totalUsage d |}.

Definition resolve_toolResults {R} (v : list (jsstring * jsstring * option R))
    (d : deferred R) : deferred R :=
  {| text := text d; toolResults := settle (toolResults d) v;
     totalUsage := totalUsage d |}.

Definition resolve_usage {R} (v : final_usage) (d : deferred R) : deferred R :=
  {| text := text d; toolResults := toolResults d;
     totalUsage := settle (totalUsage d) v |}.

(** *** Messages of the request *)

Inductive message : Type :=
| plain (role content : jsstring)
| assistant_tool_calls (calls : list (jsstring * jsstring * jsstring))
| tool_message (tool_call_id content : jsstring).

(** *** Per-step streaming state *)

Record tool_st := {
  st_id : jsstring;
  st_name : option jsstring;
  argsText : jsstring;
  started : bool;
}.

(** [toolState], a [Map] from index to state: it keeps the order in which
    its keys were first set. *)
Fixpoint map_set (k : N) (v : tool_st) (m : list (N * tool_st)) : list (N * tool_st) :=
  match m with
  | [] => [(k, v)]
  | (k', v') :: r => if k =? k' then (k, v) :: r else (k', v') :: map_set k v r
  end.

Fixpoint map_get (k : N) (m : list (N * tool_st)) : option tool_st :=
  match m with
  | [] => None
  | (k', v') :: r => if k =? k' then Some v' else map_get k r
  end.

Definition truthy_opt (s : option jsstring) : bool :=
  match s with Some (_ :: _) => true | _ => false end.

(** The handlers given in [options.tools], acting on a world [W]. *)
Record AgentToolHandlers (W R Mut : Type) := {
  createNewWindow : jsstring → jsstring → W → outcome R * W;
  domReplace : jsstring → list Mut → W → outcome R * W;
  updateWindowTitle : jsstring → jsstring → W → outcome R * W;
  setWindowHtml : jsstring → jsstring → W → outcome R * W;
}.
Arguments createNewWindow {W R Mut} a.
Arguments domReplace {W R Mut} a.
Arguments updateWindowTitle {W R Mut} a.
Arguments setWindowHtml {W R Mut} a.

Section Run.
Context {W R Mut Args : Type}.

(** [options.tools]. *)
Variable tools : AgentToolHandlers W R Mut.

(** The transport: the answer to the [k]-th request, which carries the
    messages given. *)
Variable create : nat → list message → response.

(** JSON, as the loop uses it on tool arguments and results:
    [parse_args] stands for the whole
    [try { args = JSON.parse(...) } catch {}], which yields the empty
    object on a parse error; the projections are [String(args?.x || '')]
    and [Array.isArray(args?.mutations) ? args.mutations : []]. *)
Variable parse_args : jsstring → Args.
Variable stringify_args : Args → jsstring.
Variable stringify_result : option R → jsstring.
Variable arg_name arg_html arg_windowId arg_title : Args → jsstring.
Variable arg_mutations : Args → list Mut.

(** The variables of one step. *)
Record step_vars := {
  toolState : list (N * tool_st);
  stepText : jsstring;
  stepUsageFromChunks : option usage_obj;
}.

(** The variables of the generator, with what it has emitted so far and
    the world its tool calls act on. *)
Record gen := {
  events : list (event R);
  promises : deferred R;
  world : W;
  messagesParam : list message;
  finalTextForAllSteps : jsstring;
  aggregatedToolResults : list (jsstring * jsstring * option R);
  lastStepPromptTokens : Z;
  lastStepCompletionTokens : Z;
  requests : nat;
}.

Definition emit (e : event R) (g : gen) : gen :=
  {| events := events g ++ [e]; promises := promises g; world := world g;
     messagesParam := messagesParam g;
     finalTextForAllSteps := finalTextForAllSteps g;
     aggregatedToolResults := aggregatedToolResults g;
     lastStepPromptTokens := lastStepPromptTokens g;
     lastStepCompletionTokens := lastStepCompletionTokens g;
     requests := requests g |}.

Definition with_promises (f : deferred R → deferred R) (g : gen) : gen :=
  {| events := events g; promises := f (promises g); world := world g;
     messagesParam := messagesParam g;
     finalTextForAllSteps := finalTextForAllSteps g;
     aggregatedToolResults := aggregatedToolResults g;
     lastStepPromptTokens := lastStepPromptTokens g;
     lastStepCompletionTokens := lastStepCompletionTokens g;
     requests := requests g |}.

(** The body of [for (const tc of toolCalls)]. *)
Definition on_tool_call (step : N) (sg : step_vars * gen) (tc : tool_call_delta)
  : step_vars * gen :=
  let '(sv, g) := sg in
  let idx := default 0 (tc_index tc) in
  let st := default {| st_id := []; st_name := None; argsText := []; started := false |}
                    (map_get idx (toolState sv)) in
  let id1 := if Tools.truthy (st_id st) then st_id st
             else if truthy_opt (tc_id tc) then default [] (tc_id tc)
             else js "tc_" ++ of_N step ++ js "_" ++ of_N idx in
  let name := match tc_name tc with Some n => Some n | None => st_name st end in
  let start := negb (started st) && truthy_opt name in
  let g1 := if start then emit (tool_call (default [] name) id1) g else g in
  let grow := truthy_opt (tc_arguments tc) in
  let args1 := if grow then argsText st ++ default [] (tc_arguments tc)
               else argsText st in
  let g2 := if grow
            then emit (tool_input_delta name id1 (default [] (tc_arguments tc))) g1
            else g1 in
  let st' := {| st_id := id1; st_name := name; argsText := args1;
                started := started st || start |} in
  ({| toolState := map_set idx st' (toolState sv); stepText := stepText sv;
      stepUsageFromChunks := stepUsageFromChunks sv |}, g2).

(** The body of [for await (const chunk of stream)]. *)
Definition on_chunk (step : N) (sg : step_vars * gen) (c : chunk)
  : step_vars * gen :=
  let '(sv, g) := sg in
  let '(sv, g) :=
    if truthy_opt (content c) then
      let textDelta := default [] (content c) in
      ({| toolState := toolState sv; stepText := stepText sv ++ textDelta;
          stepUsageFromChunks := stepUsageFromChunks sv |},
       emit (text_delta textDelta)
         {| events := events g; promises := promises g; world := world g;
            messagesParam := messagesParam g;
            finalTextForAllSteps := finalTextForAllSteps g ++ textDelta;
            aggregatedToolResults := aggregatedToolResults g;
            lastStepPromptTokens := lastStepPromptTokens g;
            lastStepCompletionTokens := lastStepCompletionTokens g;
            requests := requests g |})
    else (sv, g) in
  let '(sv, g) :=
    match tool_calls c with
    | Some toolCalls => fold_left (on_tool_call step) toolCalls (sv, g)
    | None => (sv, g)
    end in
  match usage c with
  | Some chunkUsage =>
      ({| toolState := toolState sv; stepText := stepText sv;
          stepUsageFromChunks := Some chunkUsage |}, g)
  | None => (sv, g)
  end.

(** The updates of the two token counters after a stream. *)
Definition record_usage (stepUsage : option usage_obj) (g : gen) : gen :=
  match stepUsage with
  | None => g
  | Some u =>
      let pt := nullish (nullish (prompt_tokens u) (input_tokens u))
                        (total_prompt_tokens u) in
      let ct := nullish (nullish (completion_tokens u) (output_tokens u))
                        (total_completion_tokens u) in
      {| events := events g; promises := promises g; world := world g;
         messagesParam := messagesParam g;
         finalTextForAllSteps := finalTextForAllSteps g;
         aggregatedToolResults := aggregatedToolResults g;
         lastStepPromptTokens :=
           match pt with Number z => z | _ => lastStepPromptTokens g end;
         lastStepCompletionTokens :=
           match ct with Number z => z | _ => lastStepCompletionTokens g end;
         requests := requests g |}
  end.

Definition finalUsage (g : gen) : final_usage :=
  tokens (lastStepPromptTokens g) (lastStepCompletionTokens g).

(** The dispatch on the tool name; an unknown name leaves [result] null. *)
Definition dispatch (name : jsstring) (args : Args) (w : W) : outcome (option R) * W :=
  let lift (r : outcome R * W) : outcome (option R) * W :=
    match r with
    | (Returns v, w') => (Returns (Some v), w')
    | (Throws e, w') => (Throws e, w')
    end in
  if str_eqb name (js "create_new_window") then
    lift (createNewWindow tools (arg_name args) (arg_html args) w)
  else if str_eqb name (js "dom_replace") then
    lift (domReplace tools (arg_windowId args) (arg_mutations args) w)
  else if str_eqb name (js "update_window_title") then
    lift (updateWindowTitle tools (arg_windowId args) (arg_title args) w)
  else if str_eqb name (js "set_window_html") then
    lift (setWindowHtml tools (arg_windowId args) (arg_html args) w)
  else (Returns None, w).

(** The two history arrays built while the tools of a step run. *)
Record hist := {
  assistantToolCallsForHistory : list (jsstring * jsstring * jsstring);
  toolResultMessagesForHistory : list message;
}.

(** [for (const call of toolCallsToExecute)]; [Some err] when a handler
    throws, which ends the loop. *)
Fixpoint execute (calls : list tool_st) (h : hist) (g : gen)
  : hist * gen * option jsstring :=
  match calls with
  | [] => (h, g, None)
  | call :: calls =>
      let name := default [] (st_name call) in
      let id := st_id call in
      let args := parse_args (argsText call) in
      match dispatch name args (world g) with
      | (Throws e, w') =>
          (h, {| events := events g; promises := promises g; world := w';
                 messagesParam := messagesParam g;
                 finalTextForAllSteps := finalTextForAllSteps g;
                 aggregatedToolResults := aggregatedToolResults g;
                 lastStepPromptTokens := lastStepPromptTokens g;
                 lastStepCompletionTokens := lastStepCompletionTokens g;
                 requests := requests g |}, Some e)
      | (Returns result, w') =>
          let g1 :=
            emit (tool_result id name result)
              {| events := events g; promises := promises g; world := w';
                 messagesParam := messagesParam g;
                 finalTextForAllSteps := finalTextForAllSteps g;
                 aggregatedToolResults :=
                   aggregatedToolResults g ++ [(id, name, result)];
                 lastStepPromptTokens := lastStepPromptTokens g;
                 lastStepCompletionTokens := lastStepCompletionTokens g;
                 requests := requests g |} in
          execute calls
            {| assistantToolCallsForHistory :=
                 assistantToolCallsForHistory h ++ [(id, name, stringify_args args)];
               toolResultMessagesForHistory :=
                 toolResultMessagesForHistory h
                 ++ [tool_message id (stringify_result result)] |}
            g1
      end
  end.

(** How one turn of the [for] loop is left. *)
Inductive exit : Type :=
| next            (* the end of the body: on to [step++] *)
| break           (* the [break] after the stop event *)
| raise (err : jsstring).

Definition toolCallsToExecute (sv : step_vars) : list tool_st :=
  filter (λ t, truthy_opt (st_name t) = true) (snd <$> toolState sv).

(** The body of [for (let step = 0; step < 12; step++)]. *)
Definition step_body (step : N) (g : gen) : gen * exit :=
  let k := requests g in
  let g := {| events := events g; promises := promises g; world := world g;
              messagesParam := messagesParam g;
              finalTextForAllSteps := finalTextForAllSteps g;
              aggregatedToolResults := aggregatedToolResults g;
              lastStepPromptTokens := lastStepPromptTokens g;
              lastStepCompletionTokens := lastStepCompletionTokens g;
              requests := S (requests g) |} in
  match create k (messagesParam g) with
  | Rejected err => (g, raise err)
  | Stream chunks e =>
      let '(sv, g) :=
        fold_left (on_chunk step) chunks
          ({| toolState := []; stepText := []; stepUsageFromChunks := None |}, g) in
      match e with
      | Failed err => (g, raise err)
      | Completed final =>
          let stepUsage := match final with Some u => Some u
                                       | None => stepUsageFromChunks sv end in
          let g := record_usage stepUsage g in
          match toolCallsToExecute sv with
          | [] =>
              let g := with_promises (resolve_text (stepText sv)) g in
              let g := with_promises (resolve_usage (finalUsage g)) g in
              (emit (finish stop) g, break)
          | calls =>
              match execute calls
                      {| assistantToolCallsForHistory := [];
                         toolResultMessagesForHistory := [] |} g with
              | (_, g, Some err) => (g, raise err)
              | (h, g, None) =>
                  let g :=
                    {| events := events g; promises := promises g;
                       world := world g;
                       messagesParam :=
                         messagesParam g
                         ++ [assistant_tool_calls (assistantToolCallsForHistory h)]
                         ++ toolResultMessagesForHistory h;
                       finalTextForAllSteps := finalTextForAllSteps g;
                       aggregatedToolResults := aggregatedToolResults g;
                       lastStepPromptTokens := lastStepPromptTokens g;
                       lastStepCompletionTokens := lastStepCompletionTokens g;
                       requests := requests g |} in
                  (emit finish_step g, next)
              end
          end
      end
  end.

(** The [for] loop, with [n] turns left; [Some err] when it is left by
    an exception. *)
Fixpoint loop (n : nat) (step : N) (g : gen) : gen * option jsstring :=
  match n with
  | O => (g, None)
  | S n =>
      match step_body step g with
      | (g, next) => loop n (step + 1) g
      | (g, break) => (g, None)
      | (g, raise err) => (g, Some err)
      end
  end.

(** The statements after the loop. *)
Definition after_loop (g : gen) : gen :=
  let g := with_promises (resolve_text (finalTextForAllSteps g)) g in
  let g := with_promises (resolve_usage (finalUsage g)) g in
  let g := with_promises (resolve_toolResults (aggregatedToolResults g)) g in
  emit (finish length_reason) g.

(** The [catch] block. *)
Definition on_error (err : jsstring) (g : gen) : gen :=
  let g := with_promises (resolve_toolResults []) g in
  let g := with_promises (resolve_usage no_tokens) g in
  let g := with_promises (resolve_text []) g in
  emit (error_event err) g.

(** The generator of [runAgentStream], run to its end on the messages
    built from the history and the prompt. *)
Definition initial (openaiMessagesBase : list message) (w : W) : gen :=
  {| events := [];
     promises := {| text := None; toolResults := None; totalUsage := None |};
     world := w; messagesParam := openaiMessagesBase;
     finalTextForAllSteps := []; aggregatedToolResults := [];
     lastStepPromptTokens := 0; lastStepCompletionTokens := 0;
     requests := 0 |}.

Definition runAgentStream (openaiMessagesBase : list message) (w : W) : gen :=
  match loop 12 0 (initial openaiMessagesBase w) with
  | (g, None) => after_loop g
  | (g, Some err) => on_error err g
  end.

End Run.

End Agent.

(* ===================================================================== *)
(** ** Vocabulary of the properties                                       *)
(* ===================================================================== *)

Module Props.
Import Extract Heal Tools.

(** *** Extractor *)

(** Is there an unescaped double quote in [s]?  [escaped] tells whether
    the character before [s] was an unpaired backslash. *)
Fixpoint has_closing_quote (s : jsstring) (escaped : bool) : bool :=
  match s with
  | [] => false
  | ch :: rest =>
      if escaped then has_closing_quote rest false
      else if ch =? c_backslash then has_closing_quote rest true
      else if ch =? c_quote then true
      else has_closing_quote rest false
  end.

(** Does [s] end in an unpaired backslash? *)
Fixpoint ends_escaped (s : jsstring) (escaped : bool) : bool :=
  match s with
  | [] => escaped
  | ch :: rest =>
      if escaped then ends_escaped rest false
      else ends_escaped rest (ch =? c_backslash)
  end.

(** The regular expression of the extractor matches at the head of [s],
    and [tail] follows the match. *)
Definition field_pattern (field s tail : jsstring) : Prop :=
  ∃ ws1 ws2,
    s = [c_quote] ++ field ++ [c_quote] ++ ws1 ++ [c_colon] ++ ws2
        ++ [c_quote] ++ tail
    ∧ forallb is_ws ws1 = true ∧ forallb is_ws ws2 = true.

(** The buffer holds the field, and the value that follows its latest
    match is not closed yet. *)
Definition unterminated_field (B F : jsstring) : Prop :=
  ∃ tail, last_field_match F B = Some tail
          ∧ has_closing_quote tail false = false.

(** *** Healer *)

(** A name as the tag walk pushes it: a letter and then letters or digits,
    in lower case, not of a void element and not [script] or [style]. *)
Definition pushed_name (n : jsstring) : Prop :=
  ∃ l tl, n = l :: tl
          ∧ is_alpha l = true ∧ forallb is_alnum tl = true
          ∧ toLowerCase n = n
          ∧ has selfClosing n = false ∧ has complex n = false.

(** The same match, with [x] put after the input. *)
Definition extend (x : jsstring) (m : tag_match) : tag_match :=
  {| full := full m; name1 := name1 m; after := after m ++ x |}.

(** *** Windows *)

(** The window [windowId] exists: it is registered to a node, and the
    canvas holds that node, once. *)
Definition existing_window (st : store) (windowId : jsstring) (n : node) : Prop :=
  get_truthy (windowIdToNodeId st) windowId = Some (id n)
  ∧ ∃ before after,
      nodes st = before ++ n :: after
      ∧ Forall (λ x, id x ≠ id n) (before ++ after).

(** The name [createNewWindow] tries with the suffix [k]. *)
Definition suffixed (name : jsstring) (k : N) : jsstring :=
  name ++ js " (" ++ of_N k ++ js ")".

(** The two maps between nodes and window identifiers agree: the window
    identifier of a node leads back to that node. *)
Definition ids_agree (st : store) : Prop :=
  ∀ n w, nodeIdToWindowId st !! n = Some w → windowIdToNodeId st !! w = Some n.

(** The markup stored for the node [nodeId]. *)
Definition stored_html (st : store) (nodeId : jsstring) : option jsstring :=
  html <$> List.find (λ n, str_eqb (id n) nodeId) (nodes st).

(** The random source serves a call of [createNewWindow]: the loop over
    window identifiers comes to a draw that is not in use, and, unless a
    preview node waits under the name, one more draw is left for the
    identifier of the new node. *)
Definition source_serves (name : jsstring) (e : env) (st : store) : Prop :=
  ∃ windowId rest,
    fresh_windowId (draws e) (windowIdToNodeId st) = Some (windowId, rest)
    ∧ (get_truthy (provisionalNameToNodeId st) name = None → rest ≠ []).

(** *** A small instance of the DOM interface

    It serves to run the handlers on examples.  A document is the list of
    the texts of its elements, an element is a position in that list.
    The universal selector matches every element, the empty selector is a
    syntax error, as is an empty attribute name or class token. *)
Definition mini_select (d : list jsstring) (sel : jsstring) : outcome (list nat) :=
  if str_eqb sel [] then Throws (js "SyntaxError")
  else if str_eqb sel (js "*") then Returns (seq 0 (length d))
  else Returns [].

Definition mini_named (nm : jsstring) (d : list jsstring) : outcome (list jsstring) :=
  if str_eqb nm [] then Throws (js "InvalidCharacterError") else Returns d.

Definition strip_doctype (s : jsstring) : jsstring :=
  default s (strip_prefix doctype s).

Definition MiniDom : DomApi := {|
  Document := list jsstring;
  Element := nat;
  parseFromString s := [strip_doctype s];
  documentElement_outerHTML d := Some (mjoin d);
  querySelectorAll := mini_select;
  set_textContent text el d := Returns (<[el := text]> d);
  set_innerHTML h el d := Returns (<[el := h]> d);
  replaceWith_html h el d := Returns (<[el := h]> d);
  insertAdjacentHTML position h el d := Returns (d ++ [h]);
  setAttribute nm value el d := mini_named nm d;
  removeAttribute nm el d := mini_named nm d;
  classList_add c el d := mini_named c d;
  classList_remove c el d := mini_named c d;
  remove_element el d := Returns (<[el := []]> d);
|}.

Section WithDom.
Context `{dom : DomApi}.

(** Applying [m] to the document [d] throws [err] and leaves the
    document [d']: the selector is refused, or the effect fails on one
    of the matched elements after it went through on those before. *)
Inductive throws (m : DomMutation) (d : Document) (err : jsstring)
  : Document → Prop :=
| throws_selector :
    querySelectorAll d (selector m) = Throws err →
    throws m d err d
| throws_effect list d' :
    querySelectorAll d (selector m) = Returns list →
    for_each (effect m) list d 0 = (d', Throws err) →
    throws m d err d'.

(** The state [applyMutations] starts from in a call of [domReplace]. *)
Definition fresh_state (d : Document) : mut_state :=
  {| doc := d; targets := 0; applied_sum := 0; localDetails := [] |}.

(** The document [domReplace] parses for the node [n]. *)
Definition current_document (st : store) (n : node) : Document :=
  let currentHtml := default (html n) (getLiveIframeHtml st (id n)) in
  parseFromString (if truthy currentHtml then currentHtml else skeleton).

(** [ds] put before the detail records of a state: [localDetails] only
    grows at its end. *)
Definition prepend (ds : list detail) (s : mut_state) : mut_state :=
  {| doc := doc s; targets := targets s; applied_sum := applied_sum s;
     localDetails := ds ++ localDetails s |}.

(** The operations of a list that count as failed: those with no
    successful application. *)
Definition failed_among (ds : list detail) : Z :=
  Z.of_nat (length ds) - Z.of_nat (count_applied ds).

(** The store once the updater of a call of [domReplace] has run: at the
    return of an [eager] call, and for a [queued] call after the render
    that follows it, when nothing else has touched the store in
    between. *)
Definition settled (t : dispatch) (windowId : jsstring)
    (mutations : list DomMutation) (st : store) : store :=
  let st' := (domReplace t windowId mutations st).2 in
  match t, get_truthy (windowIdToNodeId st) windowId with
  | queued, Some nodeId => run_queued nodeId mutations st'
  | _, _ => st'
  end.
End WithDom.

(** *** Stores used in the examples *)

Definition empty_store : store :=
  {| nodes := []; nameToNodeId := ∅; nodeIdToName := ∅;
     windowIdToNodeId := ∅; nodeIdToWindowId := ∅;
     provisionalNameToNodeId := ∅; iframeUpdateQueue := ∅;
     liveOuterHTML := ∅; createSequence := 0; focusedWindowId := None |}.

(** One window [w1], titled [tl], on the node [n1] that stores the markup
    [h]; its iframe has no live document. *)
Definition one_window (tl h : jsstring) : store :=
  {| nodes := [{| id := js "n1"; html := h; title := tl; zIndex := 1000;
                  selected := true |}];
     nameToNodeId := {[ tl := js "n1" ]};
     nodeIdToName := {[ js "n1" := tl ]};
     windowIdToNodeId := {[ js "w1" := js "n1" ]};
     nodeIdToWindowId := {[ js "n1" := js "w1" ]};
     provisionalNameToNodeId := ∅; iframeUpdateQueue := ∅;
     liveOuterHTML := ∅; createSequence := 1;
     focusedWindowId := Some (js "w1") |}.

(** *** Orchestration loop *)

Section WithRun.
Context {W R Mut Args : Type}.
Variable tools : Agent.AgentToolHandlers W R Mut.
Variable create : nat → list Agent.message → Agent.response.
Variable parse_args : jsstring → Args.
Variable stringify_args : Args → jsstring.
Variable stringify_result : option R → jsstring.
Variable arg_name arg_html arg_windowId arg_title : Args → jsstring.
Variable arg_mutations : Args → list Mut.

(** The concatenation of the text deltas of an event sequence. *)
Definition emitted_text (evs : list (Agent.event R)) : jsstring :=
  mjoin ((λ e, match e with Agent.text_delta t => t | _ => [] end) <$> evs).

(** [steady g g']: from [g] to [g'] no request was made, no promise was
    resolved, and the text accumulated over all steps still is the
    concatenation of the text deltas emitted. *)
Definition steady (g g' : @Agent.gen W R) : Prop :=
  Agent.requests g' = Agent.requests g
  ∧ Agent.promises g' = Agent.promises g
  ∧ (Agent.finalTextForAllSteps g = emitted_text (Agent.events g) →
     Agent.finalTextForAllSteps g' = emitted_text (Agent.events g')).

Abbreviation step_body' :=
  (Agent.step_body tools create parse_args stringify_args stringify_result
     arg_name arg_html arg_windowId arg_title arg_mutations).

(** [n] turns of the loop, from [step] and [g] on, each run their tool
    calls to the end (none stops, none fails) and lead to [g_end]. *)
Fixpoint reaches (n : nat) (step : N) (g g_end : Agent.gen) : Prop :=
  match n with
  | O => g_end = g
  | S n =>
      ∃ g', step_body' step g = (g', Agent.next)
            ∧ reaches n (step + 1) g' g_end
  end.

(** The step budget is used up: all twelve turns call tools. *)
Definition all_steps_call_tools (g : Agent.gen) : Prop :=
  ∃ g_end, reaches 12 0 g g_end.

(** The turn [k] is the first that calls no tool, and the stream it
    read has left [g_stop]. *)
Definition stops_at (k : nat) (g g_stop : Agent.gen) : Prop :=
  ∃ g_k, reaches k 0 g g_k
         ∧ step_body' (N.of_nat k) g_k = (g_stop, Agent.break).
End WithRun.

(** *** A scripted transport and inert handlers, for the examples *)

Definition inert_tools : Agent.AgentToolHandlers unit unit unit :=
  {| Agent.createNewWindow := λ _ _ w, (Returns tt, w);
     Agent.domReplace := λ _ _ w, (Returns tt, w);
     Agent.updateWindowTitle := λ _ _ w, (Returns tt, w);
     Agent.setWindowHtml := λ _ _ w, (Returns tt, w) |}.

(** A stream with the text delta [t] and one call of [set_window_html]. *)
Definition calling (t : jsstring) : Agent.response :=
  Agent.Stream
    [{| Agent.content := Some t;
        Agent.tool_calls :=
          Some [{| Agent.tc_index := Some 0; Agent.tc_id := Some (js "call_1");
                   Agent.tc_name := Some (js "set_window_html");
                   Agent.tc_arguments := Some (js "{}") |}];
        Agent.usage := None |}]
    (Agent.Completed None).

(** A stream with the text delta [t] and no tool call. *)
Definition answering (t : jsstring) : Agent.response :=
  Agent.Stream
    [{| Agent.content := Some t; Agent.tool_calls := None; Agent.usage := None |}]
    (Agent.Completed None).

Definition run_script (create : nat → list Agent.message → Agent.response)
  : Agent.gen :=
  Agent.runAgentStream inert_tools create
    (λ _, tt) (λ _, js "{}") (λ _, js "null")
    (λ _, []) (λ _, []) (λ _, []) (λ _, []) (λ _, [])
    [Agent.plain (js "user") (js "hi")] tt.

End Props.

(* ===================================================================== *)
(** ** More of the canvas: the remaining handlers and the live previews   *)
(* ===================================================================== *)

Module Canvas.
Import Tools.

(** *** [setWindowHtml] *)

Record SetHtmlResult := {
  sh_status : jsstring;
  sh_windowId : jsstring;
  htmlLength : N;
}.

Definition with_html (h : jsstring) (n : node) : node :=
  {| id := id n; html := h; title := title n; zIndex := zIndex n;
     selected := selected n |}.

(** [setWindowHtml].  The write to the iframe ([srcdoc]) reloads the
    frame after the handler has returned; the store holds the document
    the frame shows at that point, which the handler leaves as it is. *)
Definition setWindowHtml (windowId html : jsstring) (st : store)
  : SetHtmlResult * store :=
  let nodeId := get_truthy (windowIdToNodeId st) windowId in
  let normalizedHtml := decodePossibleEscapes html in
  let res := {| sh_status := js "set"; sh_windowId := windowId;
                htmlLength := N.of_nat (length normalizedHtml) |} in
  match nodeId with
  | None => (res, st)
  | Some nodeId =>
      (res,
       {| nodes := (λ n, if negb (str_eqb (id n) nodeId) then n
                         else with_html normalizedHtml n) <$> nodes st;
          nameToNodeId := nameToNodeId st;
          nodeIdToName := nodeIdToName st;
          windowIdToNodeId := windowIdToNodeId st;
          nodeIdToWindowId := nodeIdToWindowId st;
          provisionalNameToNodeId := provisionalNameToNodeId st;
          iframeUpdateQueue := iframeUpdateQueue st;
          liveOuterHTML := liveOuterHTML st;
          createSequence := createSequence st;
          focusedWindowId := focusedWindowId st |})
  end.

(** *** [handleDelete]

    The handler of the close button of a window.  The canvas has no
    edges (nothing adds one), so the filter on edges is left out.  The
    entry of the node in [nodeIdToIframeRef] goes, and with it the live
    document that [getLiveIframeHtml] could read. *)
Definition handleDelete (nodeId : jsstring) (st : store) : store :=
  let name := get_truthy (nodeIdToName st) nodeId in
  let winId := get_truthy (nodeIdToWindowId st) nodeId in
  {| nodes := filter (λ n, id n ≠ nodeId) (nodes st);
     nameToNodeId :=
       match name with
       | Some name => delete name (nameToNodeId st)
       | None => nameToNodeId st
       end;
     nodeIdToName :=
       match name with
       | Some _ => delete nodeId (nodeIdToName st)
       | None => nodeIdToName st
       end;
     windowIdToNodeId :=
       match winId with
       | Some winId => delete winId (windowIdToNodeId st)
       | None => windowIdToNodeId st
       end;
     nodeIdToWindowId :=
       match winId with
       | Some _ => delete nodeId (nodeIdToWindowId st)
       | None => nodeIdToWindowId st
       end;
     provisionalNameToNodeId := provisionalNameToNodeId st;
     iframeUpdateQueue := iframeUpdateQueue st;
     liveOuterHTML := delete nodeId (liveOuterHTML st);
     createSequence := createSequence st;
     focusedWindowId := focusedWindowId st |}.

(** *** [updateIframeThrottled]

    The queue keeps, for a node, the markup of the latest preview asked
    for; the timer that writes it to the iframe runs later. *)
Definition updateIframeThrottled (nodeId html : jsstring) (st : store) : store :=
  {| nodes := nodes st;
     nameToNodeId := nameToNodeId st;
     nodeIdToName := nodeIdToName st;
     windowIdToNodeId := windowIdToNodeId st;
     nodeIdToWindowId := nodeIdToWindowId st;
     provisionalNameToNodeId := provisionalNameToNodeId st;
     iframeUpdateQueue := <[nodeId := html]> (iframeUpdateQueue st);
     liveOuterHTML := liveOuterHTML st;
     createSequence := createSequence st;
     focusedWindowId := focusedWindowId st |}.

(** *** [applyPreviewDomReplace] *)

(** The part of a streaming session of [dom_replace] that the preview
    reads and writes. *)
Record session := {
  baseHtml : option jsstring;
  currentHtml : option jsstring;
}.

Section WithDom.
Context `{dom : DomApi}.

(** The [applyMutations] of the preview: an operation that throws is
    dropped without a record, and the elements it changed before the
    throw keep their change. *)
Definition preview_one (d : Document) (m : DomMutation) : Document :=
  match querySelectorAll d (selector m) with
  | Throws _ => d
  | Returns list => (for_each (effect m) list d 0).1
  end.

Definition preview_mutations (d : Document) (muts : list DomMutation)
  : Document :=
  fold_left preview_one muts d.

(** [applyPreviewDomReplace].  [nodes] is the state variable as the
    closure of the running stream processor holds it: the list of nodes
    of the render in which the processor was made, not the list of the
    store. *)
Definition applyPreviewDomReplace (nodes : list node) (windowId : jsstring)
    (newMutations : list DomMutation) (s : session) (st : store)
  : option jsstring * session * store :=
  match get_truthy (windowIdToNodeId st) windowId with
  | None => (None, s, st)
  | Some nodeId =>
      let s1 :=
        if negb (Agent.truthy_opt (baseHtml s))
           || negb (Agent.truthy_opt (currentHtml s))
        then
          let live := getLiveIframeHtml st nodeId in
          let node := List.find (λ n, str_eqb (id n) nodeId) nodes in
          let html := match live with
                      | Some live => live
                      | None => match node with
                                | Some node => html node
                                | None => []
                                end
                      end in
          {| baseHtml := Some html; currentHtml := Some html |}
        else s in
      let cur := default [] (currentHtml s1) in
      let d := parseFromString (if truthy cur then cur else skeleton) in
      let d := preview_mutations d newMutations in
      let updated := serialize d in
      (Some nodeId,
       {| baseHtml := baseHtml s1; currentHtml := Some updated |},
       updateIframeThrottled nodeId updated st)
  end.

End WithDom.

End Canvas.

(* ===================================================================== *)
(** ** JavaScript values, JSON and the browser storage                    *)
(* ===================================================================== *)

Module Values.

Local Set Warnings "-register-all".

(** The values the sources take from outside with the type [any] or
    [unknown]: what [JSON.parse] gives, the fields of an error object, the
    content of a history message.  Numbers are the doubles of the
    language.  An object is the list of its own properties in the order
    of their creation (none of the keys the sources use is an index). *)
Inductive value : Type :=
| VUndefined
| VNull
| VBool (b : bool)
| VNum (x : float)
| VStr (s : jsstring)
| VArr (items : list value)
| VObj (fields : list (jsstring * value)).

(** [x === y] on numbers, and [Number.isNaN]. *)
Definition num_eqb (x y : float) : bool := PrimFloat.eqb x y.
Definition is_nan (x : float) : bool := negb (PrimFloat.eqb x x).

(** [ToBoolean]. *)
Definition truthy_value (v : value) : bool :=
  match v with
  | VUndefined | VNull => false
  | VBool b => b
  | VNum x => negb (num_eqb x 0 || is_nan x)
  | VStr s => Tools.truthy s
  | VArr _ | VObj _ => true
  end.

(** [a || b], [a ?? b] and [a && b]. *)
Definition or_else (a b : value) : value := if truthy_value a then a else b.

Definition nullish (v : value) : bool :=
  match v with VUndefined | VNull => true | _ => false end.

Definition coalesce (a b : value) : value := if nullish a then b else a.

Definition and_then (a b : value) : value := if truthy_value a then b else a.

(** The own property [k] of an object. *)
Fixpoint own (fields : list (jsstring * value)) (k : jsstring) : option value :=
  match fields with
  | [] => None
  | (k', v) :: rest => if str_eqb k' k then Some v else own rest k
  end.

(** [v?.k], for the keys the sources read: none of them is an index, a
    length or a property of a prototype, so a string, a number, a boolean
    and an array have no such property. *)
Definition optional (v : value) (k : jsstring) : value :=
  match v with
  | VObj fields => default VUndefined (own fields k)
  | _ => VUndefined
  end.

(** [v[k]] and [v.k]: a [TypeError] on [undefined] and [null]. *)
Definition member (v : value) (k : jsstring) : outcome value :=
  if nullish v then Throws (js "TypeError") else Returns (optional v k).

(** [k in v]: a [TypeError] when [v] is not an object. *)
Definition has_member (k : jsstring) (v : value) : outcome bool :=
  match v with
  | VObj fields => Returns (bool_decide (is_Some (own fields k)))
  | VArr _ => Returns false
  | _ => Throws (js "TypeError")
  end.

(** A property set on an object: an existing property keeps its place, a
    new one goes last. *)
Fixpoint set_own (k : jsstring) (x : value) (fields : list (jsstring * value))
  : list (jsstring * value) :=
  match fields with
  | [] => [(k, x)]
  | (k', v) :: rest =>
      if str_eqb k' k then (k, x) :: rest else (k', v) :: set_own k x rest
  end.

Definition delete_own (k : jsstring) (fields : list (jsstring * value))
  : list (jsstring * value) :=
  filter (λ kv, kv.1 ≠ k) fields.

(** [v[k] = x] in strict code.  On a primitive value it is a [TypeError].
    On an array it adds a property that is not an element:
    [JSON.stringify], the only reader of the array afterwards, leaves it
    out, so the array is given back as it is. *)
Definition assign (v : value) (k : jsstring) (x : value) : outcome value :=
  match v with
  | VObj fields => Returns (VObj (set_own k x fields))
  | VArr items => Returns (VArr items)
  | _ => Throws (js "TypeError")
  end.

(** [typeof v === 'string'] with the string, and [Array.isArray]. *)
Definition as_string (v : value) : option jsstring :=
  match v with VStr s => Some s | _ => None end.

Definition as_array (v : value) : option (list value) :=
  match v with VArr items => Some items | _ => None end.

(** [s.includes(p)]. *)
Fixpoint includes (s p : jsstring) : bool :=
  startsWith s p || match s with [] => false | _ :: t => includes t p end.

(** [toLowerCase], as far as a search for ASCII text in its result can
    tell: besides the ASCII capitals, the only code units whose lower
    case holds an ASCII letter are the Kelvin sign (its lower case is
    [k]) and the capital I with dot above (lower case: [i] and a
    combining dot); every other code unit stands for itself or for
    non-ASCII text. *)
Definition lower_units (c : N) : jsstring :=
  if c =? 8490 then [107]
  else if c =? 304 then [105; 775]
  else [lower c].

Definition lowered (s : jsstring) : jsstring := mjoin (lower_units <$> s).

End Values.

(** [JSON.parse] and [JSON.stringify] are the engine's.  [JSON_parse]
    throws on a text that is not JSON; [JSON_stringify] gives no string
    ([undefined]) where the engine gives none. *)
Class JsonApi := {
  JSON_parse : jsstring → outcome Values.value;
  JSON_stringify : Values.value → option jsstring;
}.

(* ===================================================================== *)
(** ** Provider, key and model settings ([@/lib/utils])                   *)
(* ===================================================================== *)

Module Utils.
Import Values.

(** *** [localStorage]

    The entries, and the two ways a call can fail: every access throws
    when the site may not use the storage, and [setItem] throws when the
    storage refuses a value (its quota). *)
Record Storage := {
  items : gmap jsstring jsstring;
  denied : bool;
  refuses : jsstring → jsstring → bool;
}.

Definition getItem (k : jsstring) (ls : Storage) : outcome (option jsstring) :=
  if denied ls then Throws (js "SecurityError") else Returns (items ls !! k).

Definition setItem (k v : jsstring) (ls : Storage) : outcome Storage :=
  if denied ls then Throws (js "SecurityError")
  else if refuses ls k v then Throws (js "QuotaExceededError")
  else Returns {| items := <[k := v]> (items ls); denied := denied ls;
                  refuses := refuses ls |}.

Definition removeItem (k : jsstring) (ls : Storage) : outcome Storage :=
  if denied ls then Throws (js "SecurityError")
  else Returns {| items := delete k (items ls); denied := denied ls;
                  refuses := refuses ls |}.

(** *** Constants *)

Inductive AIProvider := openai | anthropic | gemini.

Global Instance AIProvider_eq_dec : EqDecision AIProvider.
Proof. solve_decision. Defined.

(** The string a provider is at run time. *)
Definition provider_name (p : AIProvider) : jsstring :=
  match p with
  | openai => js "openai"
  | anthropic => js "anthropic"
  | gemini => js "gemini"
  end.

Definition LOCAL_STORAGE_PROVIDER : jsstring := js "ai_provider".
Definition LOCAL_STORAGE_API_KEYS : jsstring := js "ai_api_keys".
Definition LOCAL_STORAGE_SELECTED_MODELS : jsstring := js "ai_selected_models".

(** [MODEL_OPTIONS]: the pairs of [id] and [label]; the entry of
    [gemini] is commented out in the source. *)
Definition MODEL_OPTIONS (p : AIProvider) : option (list (jsstring * jsstring)) :=
  match p with
  | openai =>
      Some [(js "gpt-5", js "GPT-5"); (js "gpt-5-mini", js "GPT-5 Mini");
            (js "gpt-4.1", js "GPT-4.1"); (js "gpt-4.1-mini", js "GPT-4.1 Mini")]
  | anthropic =>
      Some [(js "claude-sonnet-4-5-20250929", js "Claude Sonnet 4.5");
            (js "claude-sonnet-4-20250514", js "Claude Sonnet 4");
            (js "claude-haiku-4-5-20251001", js "Claude Haiku 4.5")]
  | gemini => None
  end.

Definition getDefaultModel (p : AIProvider) : jsstring :=
  match p with
  | openai => js "gpt-5"
  | anthropic => js "claude-3-5-haiku-20241022"
  | gemini => js "gemini-2.5-pro"
  end.

Section WithJson.
Context `{json : JsonApi}.

(** *** Reading a map of the storage

    The body that [getSelectedModel] and [getApiKey] share: the entry
    [key] of the storage, parsed, and its property for the provider;
    [null] when any step throws or gives a falsy value. *)
Definition stored_entry (key : jsstring) (provider : AIProvider) (ls : Storage)
  : value :=
  match getItem key ls with
  | Throws _ => VNull
  | Returns raw =>
      if negb (Agent.truthy_opt raw) then VNull
      else
        match JSON_parse (default [] raw) with
        | Throws _ => VNull
        | Returns map =>
            match member map (provider_name provider) with
            | Throws _ => VNull
            | Returns v => or_else v VNull
            end
        end
  end.

Definition getSelectedModel (provider : AIProvider) (ls : Storage) : value :=
  stored_entry LOCAL_STORAGE_SELECTED_MODELS provider ls.

Definition getApiKey (provider : AIProvider) (ls : Storage) : value :=
  stored_entry LOCAL_STORAGE_API_KEYS provider ls.

(** *** Writing a map of the storage

    The body that [setSelectedModel] and [setApiKey] share.  Whatever
    throws is swallowed, and the storage is then as it was. *)
Definition store_entry (key : jsstring) (provider : AIProvider) (x : jsstring)
    (ls : Storage) : Storage :=
  match getItem key ls with
  | Throws _ => ls
  | Returns raw =>
      match (if Agent.truthy_opt raw then JSON_parse (default [] raw)
             else Returns (VObj [])) with
      | Throws _ => ls
      | Returns map =>
          match assign map (provider_name provider) (VStr x) with
          | Throws _ => ls
          | Returns map =>
              match setItem key (default (js "undefined") (JSON_stringify map))
                      ls with
              | Throws _ => ls
              | Returns ls' => ls'
              end
          end
      end
  end.

Definition setSelectedModel (provider : AIProvider) (modelId : jsstring)
    (ls : Storage) : Storage :=
  store_entry LOCAL_STORAGE_SELECTED_MODELS provider modelId ls.

Definition setApiKey (provider : AIProvider) (key : jsstring) (ls : Storage)
  : Storage :=
  store_entry LOCAL_STORAGE_API_KEYS provider key ls.

(** *** The selected provider *)

(** The stored string, whatever it is: the cast to [AIProvider] checks
    nothing. *)
Definition getSelectedProvider (ls : Storage) : option jsstring :=
  match getItem LOCAL_STORAGE_PROVIDER ls with
  | Throws _ => None
  | Returns r => if Agent.truthy_opt r then r else None
  end.

Definition setSelectedProvider (provider : AIProvider) (ls : Storage) : Storage :=
  match setItem LOCAL_STORAGE_PROVIDER (provider_name provider) ls with
  | Throws _ => ls
  | Returns ls' => ls'
  end.

(** *** [deleteApiKey] *)

(** The statements of the [try] block from [delete map[provider]] on,
    for a map that is an object: the storage they leave, also when one
    of them throws and the rest is skipped. *)
Definition forget_key (provider : AIProvider) (fields : list (jsstring * value))
    (ls : Storage) : Storage :=
  let fields := delete_own (provider_name provider) fields in
  match fields with
  | [] =>
      match removeItem LOCAL_STORAGE_API_KEYS ls with
      | Throws _ => ls
      | Returns ls1 =>
          match removeItem LOCAL_STORAGE_PROVIDER ls1 with
          | Throws _ => ls1
          | Returns ls2 => ls2
          end
      end
  | _ =>
      match setItem LOCAL_STORAGE_API_KEYS
              (default (js "undefined") (JSON_stringify (VObj fields))) ls with
      | Throws _ => ls
      | Returns ls1 =>
          let selected := getSelectedProvider ls1 in
          if bool_decide (selected = Some (provider_name provider)) then
            match removeItem LOCAL_STORAGE_PROVIDER ls1 with
            | Throws _ => ls1
            | Returns ls2 => ls2
            end
          else ls1
      end
  end.

Definition deleteApiKey (provider : AIProvider) (ls : Storage) : Storage :=
  match getItem LOCAL_STORAGE_API_KEYS ls with
  | Throws _ => ls
  | Returns raw =>
      if negb (Agent.truthy_opt raw) then ls
      else
        match JSON_parse (default [] raw) with
        | Throws _ => ls
        | Returns map =>
            match has_member (provider_name provider) map with
            | Throws _ => ls
            | Returns false => ls
            | Returns true =>
                match map with
                | VObj fields => forget_key provider fields ls
                | _ => ls
                end
            end
        end
  end.

End WithJson.

(** *** [isAuthError] *)

Definition auth_codes : list jsstring :=
  js <$> ["invalid_api_key"; "unauthorized"; "permission_denied"]%string.

Definition auth_phrases : list jsstring :=
  js <$> ["invalid api key"; "incorrect api key"; "unauthorized"; "401";
          "forbidden"]%string.

(** [isAuthError].  The three fields are read with [error && error.x];
    a truthy message that is not a string has no [toLowerCase], and the
    call of it throws. *)
Definition isAuthError (error : value) : outcome bool :=
  let message := and_then error (optional error (js "message")) in
  let status := and_then error (optional error (js "status")) in
  let code := and_then error (optional error (js "code")) in
  if truthy_value status
     && match status with
        | VNum x => num_eqb x 401 || num_eqb x 403
        | _ => false
        end
  then Returns true
  else if truthy_value code
          && match code with
             | VStr c => existsb (str_eqb c) auth_codes
             | _ => false
             end
  then Returns true
  else if truthy_value message then
    match message with
    | VStr s =>
        let m := lowered s in
        Returns (existsb (includes m) auth_phrases)
    | _ => Throws (js "TypeError")
    end
  else Returns false.

End Utils.

(* ===================================================================== *)
(** ** The history of a conversation and the messages of a request        *)
(* ===================================================================== *)

Module History.
Import Values.

(** [ModelMessage]. *)
Record ModelMessage := {
  role : jsstring;
  content : value;
}.

(** One entry of [tool_calls]: [id], [function.name] and
    [function.arguments] ([type] is always [function]). *)
Record ToolCall := {
  call_id : value;
  call_name : value;
  call_arguments : option jsstring;
}.

(** The messages [convertHistoryToOpenAIMessages] builds. *)
Inductive OpenAIMessage : Type :=
| text_message (role content : jsstring)
| calls_message (tool_calls : list ToolCall)  (* assistant, content null *)
| result_message (tool_call_id : value) (content : option jsstring).

(** [c?.type === t]. *)
Definition of_type (t : jsstring) (c : value) : bool :=
  match optional c (js "type") with
  | VStr s => str_eqb s t
  | _ => false
  end.

(** [extractTextFromContentArray]; [None] is [null]. *)
Definition extractTextFromContentArray (arr : value) : option jsstring :=
  match as_array arr with
  | None => as_string arr
  | Some items =>
      head (omap (λ c, if of_type (js "text") c
                       then as_string (optional c (js "text")) else None)
              items)
  end.

Section WithJson.
Context `{json : JsonApi}.

(** [typeof result === 'string' ? result : JSON.stringify(result)]. *)
Definition as_content (result : value) : option jsstring :=
  match as_string result with
  | Some s => Some s
  | None => JSON_stringify result
  end.

(** What one turn of the loop over the history pushes. *)
Definition convert_one (m : ModelMessage) : list OpenAIMessage :=
  if str_eqb (role m) (js "user") then
    let text := match as_string (content m) with
                | Some s => Some s
                | None => extractTextFromContentArray (content m)
                end in
    [text_message (js "user") (default [] text)]
  else if str_eqb (role m) (js "assistant") then
    match content m with
    | VStr s => [text_message (js "assistant") s]
    | VArr items =>
        if existsb (of_type (js "tool-call")) items then
          [calls_message
             ((λ c, {| call_id := optional c (js "toolCallId");
                       call_name := optional c (js "toolName");
                       call_arguments :=
                         JSON_stringify
                           (coalesce (optional c (js "input")) (VObj [])) |})
              <$> List.filter (of_type (js "tool-call")) items)]
        else
          [text_message (js "assistant")
             (default [] (extractTextFromContentArray (content m)))]
    | _ => []
    end
  else if str_eqb (role m) (js "tool") then
    let first := match content m with
                 | VArr items => default VUndefined (head items)
                 | c => c
                 end in
    let tool_call_id := or_else (optional first (js "toolCallId"))
                                (optional first (js "tool_call_id")) in
    let result := coalesce (coalesce (optional first (js "result"))
                                     (optional first (js "content")))
                           first in
    [result_message tool_call_id (as_content result)]
  else [].

(** [convertHistoryToOpenAIMessages]; a missing history is the empty
    one. *)
Definition convertHistoryToOpenAIMessages (history : list ModelMessage)
    (systemPrompt userPrompt : jsstring) : list OpenAIMessage :=
  [text_message (js "system") systemPrompt]
  ++ (history ≫= convert_one)
  ++ [text_message (js "user") userPrompt].

End WithJson.

(** *** The entries the canvas component writes *)

(** [toToolMessageFromResult], on the fields of its argument. *)
Definition toToolMessageFromResult (toolCallId toolName result : value)
  : ModelMessage :=
  {| role := js "tool";
     content := VArr [VObj [(js "type", VStr (js "tool-result"));
                            (js "toolCallId", toolCallId);
                            (js "toolName", toolName);
                            (js "result", result)]] |}.

Definition toToolCallAssistantMessage (toolName toolCallId : jsstring)
    (argsObj : value) : ModelMessage :=
  {| role := js "assistant";
     content := VArr [VObj [(js "type", VStr (js "tool-call"));
                            (js "toolCallId", VStr toolCallId);
                            (js "toolName", VStr toolName);
                            (js "input", or_else argsObj (VObj []))]] |}.

(** What [processAgentStream] appends to the history after a run: the
    user message, the messages of the tool exchanges, and the final
    assistant turn. *)
Definition turn (userMessageForHistory : jsstring)
    (toolMsgs : list ModelMessage) (text finalText : jsstring)
  : list ModelMessage :=
  [{| role := js "user"; content := VStr userMessageForHistory |}]
  ++ toolMsgs
  ++ [{| role := js "assistant";
         content :=
           VArr [VObj [(js "type", VStr (js "text"));
                       (js "text",
                        VStr (if Tools.truthy text then text else finalText))]] |}].

End History.

(* ===================================================================== *)
(** ** The ApiKeyDialog: saving the settings                              *)
(* ===================================================================== *)

Module Dialog.
Import Values Utils.

(** The state of the dialog. *)
Record state := {
  provider : AIProvider;
  apiKeyValue : jsstring;
  modelId : jsstring;
}.

Section WithJson.
Context `{json : JsonApi}.

(** [handleSave].  [existingKey] is the memoised
    [getApiKey(provider) || ""].  The second component is the pair that
    [onSave] receives, [None] when the handler returns before it. *)
Definition handleSave (d : state) (existingKey : value) (ls : Storage)
  : Storage * option (AIProvider * value) :=
  let entered := trim (apiKeyValue d) in
  if negb (truthy_value existingKey) && negb (Tools.truthy entered)
  then (ls, None)
  else
    let ls := setSelectedProvider (provider d) ls in
    let ls := if Tools.truthy entered
              then setApiKey (provider d) entered ls else ls in
    let ls := if Tools.truthy (modelId d)
              then setSelectedModel (provider d) (modelId d) ls else ls in
    (ls, Some (provider d, or_else (VStr entered) existingKey)).

(** The model a run uses: [options.model || getSelectedModel(provider)
    || getDefaultModel(provider)], as [runAgentStream] and the dialog
    compute it. *)
Definition resolve_model (model : option jsstring) (provider : AIProvider)
    (ls : Storage) : value :=
  let persistedModel :=
    or_else (getSelectedModel provider ls) (VStr (getDefaultModel provider)) in
  if Agent.truthy_opt model then VStr (default [] model) else persistedModel.

End WithJson.
End Dialog.

(* ===================================================================== *)
(** ** Vocabulary and a small JSON codec for the settings                 *)
(* ===================================================================== *)

Module Settings.
Import Values Utils.

Section WithJson.
Context `{json : JsonApi}.

(** The entry [key] of the storage holds the object with the properties
    [fields]; a missing or empty entry counts as the empty object, as in
    [raw ? JSON.parse(raw) : {}]. *)
Definition holds (ls : Storage) (key : jsstring)
    (fields : list (jsstring * value)) : Prop :=
  match items ls !! key with
  | Some (c :: raw) => JSON_parse (c :: raw) = Returns (VObj fields)
  | _ => fields = []
  end.

(** The object with the properties [fields] can be written to the entry
    [key] and read back. *)
Definition writes_back (ls : Storage) (key : jsstring)
    (fields : list (jsstring * value)) : Prop :=
  ∃ text, JSON_stringify (VObj fields) = Some text
          ∧ text ≠ []
          ∧ refuses ls key text = false
          ∧ JSON_parse text = Returns (VObj fields).

(** The entry [key] is of no use: the storage denies access, or the
    entry is a text that [JSON.parse] rejects or reads as something
    that is neither an object nor an array. *)
Definition unusable (ls : Storage) (key : jsstring) : Prop :=
  denied ls = true
  ∨ ∃ c raw, items ls !! key = Some (c :: raw)
             ∧ match JSON_parse (c :: raw) with
               | Throws _ => True
               | Returns (VObj _) | Returns (VArr _) => False
               | Returns _ => True
               end.

End WithJson.

(** *** A codec for objects whose properties are strings

    It writes and reads texts like [jq "{'openai':'sk-1'}"], and serves
    to run the settings functions on examples. *)

Definition mini_quote (s : jsstring) : jsstring :=
  [c_quote]
  ++ mjoin ((λ c, if (c =? c_quote) || (c =? c_backslash)
                  then [c_backslash; c] else [c]) <$> s)
  ++ [c_quote].

Definition mini_atom (v : value) : jsstring :=
  match v with
  | VStr s => mini_quote s
  | VBool true => js "true"
  | VBool false => js "false"
  | _ => js "null"
  end.

Fixpoint mini_fields (fields : list (jsstring * value)) : list jsstring :=
  match fields with
  | [] => []
  | (_, VUndefined) :: rest => mini_fields rest
  | (k, v) :: rest => (mini_quote k ++ [c_colon] ++ mini_atom v) :: mini_fields rest
  end.

Fixpoint mini_join (parts : list jsstring) : jsstring :=
  match parts with
  | [] => []
  | [p] => p
  | p :: rest => p ++ js "," ++ mini_join rest
  end.

Definition mini_stringify (v : value) : option jsstring :=
  match v with
  | VUndefined => None
  | VObj fields => Some (js "{" ++ mini_join (mini_fields fields) ++ js "}")
  | VArr _ => Some (js "[]")
  | v => Some (mini_atom v)
  end.

(** The characters of a string literal after its opening quote, and what
    follows the closing one. *)
Fixpoint mini_string (s acc : jsstring) : option (jsstring * jsstring) :=
  match s with
  | [] => None
  | c :: t =>
      if c =? c_quote then Some (acc, t)
      else if c =? c_backslash then
        match t with
        | e :: t' => mini_string t' (acc ++ [e])
        | [] => None
        end
      else mini_string t (acc ++ [c])
  end.

Definition mini_quoted (s : jsstring) : option (jsstring * jsstring) :=
  match s with
  | c :: t => if c =? c_quote then mini_string t [] else None
  | [] => None
  end.

(** The properties of an object, from the first key on. *)
Fixpoint mini_object (fuel : nat) (s : jsstring)
    (acc : list (jsstring * value)) : option (list (jsstring * value)) :=
  match fuel with
  | O => None
  | S fuel =>
      '(k, r1) ← mini_quoted s;
      match r1 with
      | c :: r2 =>
          if c =? c_colon then
            '(v, r3) ← mini_quoted r2;
            match r3 with
            | [d] => if d =? 125 then Some (acc ++ [(k, VStr v)]) else None
            | d :: r4 =>
                if d =? 44 then mini_object fuel r4 (acc ++ [(k, VStr v)])
                else None
            | [] => None
            end
          else None
      | [] => None
      end
  end.

Definition mini_parse (s : jsstring) : outcome value :=
  if str_eqb s (js "{}") then Returns (VObj [])
  else if str_eqb s (js "null") then Returns VNull
  else
    match s with
    | c :: t =>
        if c =? 123 then
          match mini_object (length t) t [] with
          | Some fields => Returns (VObj fields)
          | None => Throws (js "SyntaxError")
          end
        else Throws (js "SyntaxError")
    | [] => Throws (js "SyntaxError")
    end.

Definition MiniJson : JsonApi :=
  {| JSON_parse := mini_parse; JSON_stringify := mini_stringify |}.

(** A storage that allows every access and refuses no value. *)
Definition open_storage (entries : list (jsstring * jsstring)) : Storage :=
  {| items := list_to_map entries; denied := false; refuses := λ _ _, false |}.

End Settings.

(* ===================================================================== *)
(** ** The preview of a window while its arguments stream in              *)
(* ===================================================================== *)

Module Preview.
Import Tools Canvas.

(** An entry of [streamingCreateRef]: the preview node of a call of
    [create_new_window], the name shown on it and the arguments received
    so far. *)
Record create_entry := {
  ce_nodeId : jsstring;
  ce_name : option jsstring;
  argsAccum : option jsstring;
}.

(** The store of the component with [streamingCreateRef]. *)
Record canvas := {
  st : store;
  streamingCreate : gmap jsstring create_entry;
}.

Definition provisional_id (toolCallId : jsstring) : jsstring :=
  js "iframe-provisional-" ++ toolCallId.

(** The title of a preview node: [Creating] and a horizontal ellipsis. *)
Definition creating : jsstring := js "Creating" ++ [8230].

Definition with_nodes (nds : list node) (s : store) : store :=
  {| nodes := nds;
     nameToNodeId := nameToNodeId s;
     nodeIdToName := nodeIdToName s;
     windowIdToNodeId := windowIdToNodeId s;
     nodeIdToWindowId := nodeIdToWindowId s;
     provisionalNameToNodeId := provisionalNameToNodeId s;
     iframeUpdateQueue := iframeUpdateQueue s;
     liveOuterHTML := liveOuterHTML s;
     createSequence := createSequence s;
     focusedWindowId := focusedWindowId s |}.

(** [ensureProvisionalCreateNode]. *)
Definition ensureProvisionalCreateNode (toolCallId : jsstring) (c : canvas)
  : jsstring * canvas :=
  let existing :=
    match streamingCreate c !! toolCallId with
    | Some entry => if truthy (ce_nodeId entry) then Some (ce_nodeId entry) else None
    | None => None
    end in
  match existing with
  | Some existing => (existing, c)
  | None =>
      let newNode := {| id := provisional_id toolCallId; html := skeleton;
                        title := creating; zIndex := 900; selected := true |} in
      let s := st c in
      (id newNode,
       {| st :=
            {| nodes := (deselect <$> nodes s) ++ [newNode];
               nameToNodeId := nameToNodeId s;
               nodeIdToName := nodeIdToName s;
               windowIdToNodeId := windowIdToNodeId s;
               nodeIdToWindowId := nodeIdToWindowId s;
               provisionalNameToNodeId := provisionalNameToNodeId s;
               iframeUpdateQueue := iframeUpdateQueue s;
               liveOuterHTML := liveOuterHTML s;
               createSequence := (createSequence s + 1) mod 2 ^ 32;
               focusedWindowId := focusedWindowId s |};
          streamingCreate :=
            <[toolCallId := {| ce_nodeId := id newNode; ce_name := None;
                               argsAccum := None |}]> (streamingCreate c) |})
  end.

Definition select_only (nodeId : jsstring) (n : node) : node :=
  {| id := id n; html := html n; title := title n; zIndex := zIndex n;
     selected := str_eqb (id n) nodeId |}.

(** What [processAgentStream] does with a [tool-call] event of
    [create_new_window], after the header line for the text panel. *)
Definition on_create_start (toolCallId : jsstring) (c : canvas) : canvas :=
  let '(nodeId, c) := ensureProvisionalCreateNode toolCallId c in
  {| st := with_nodes (select_only nodeId <$> nodes (st c)) (st c);
     streamingCreate := streamingCreate c |}.

(** What it does with a [tool-input-delta] event of
    [create_new_window]. *)
Definition on_create_delta (toolCallId delta : jsstring) (c : canvas) : canvas :=
  let '(nodeId, c) := ensureProvisionalCreateNode toolCallId c in
  let entry := default {| ce_nodeId := nodeId; ce_name := None; argsAccum := None |}
                 (streamingCreate c !! toolCallId) in
  let seen := match argsAccum entry with
              | Some (a :: acc) => (a :: acc) ++ delta
              | _ => delta
              end in
  let namePartial := Extract.extractLatestJsonStringField seen (js "name") in
  let renamed := match namePartial with
                 | Some (a :: nm) =>
                     if bool_decide (ce_name entry = Some (a :: nm)) then None
                     else Some (a :: nm)
                 | _ => None
                 end in
  let s := st c in
  let s1 :=
    match renamed with
    | Some nm =>
        {| nodes := (λ n, if str_eqb (id n) nodeId then set_title nm n else n)
                    <$> nodes s;
           nameToNodeId := nameToNodeId s;
           nodeIdToName := nodeIdToName s;
           windowIdToNodeId := windowIdToNodeId s;
           nodeIdToWindowId := nodeIdToWindowId s;
           provisionalNameToNodeId := <[nm := nodeId]> (provisionalNameToNodeId s);
           iframeUpdateQueue := iframeUpdateQueue s;
           liveOuterHTML := liveOuterHTML s;
           createSequence := createSequence s;
           focusedWindowId := focusedWindowId s |}
    | None => s
    end in
  let accum := default [] (argsAccum entry) ++ delta in
  let s2 :=
    match Extract.extractLatestJsonStringField accum (js "html") with
    | Some htmlPartial =>
        updateIframeThrottled nodeId (Heal.healHtmlStream htmlPartial) s1
    | None => s1
    end in
  {| st := s2;
     streamingCreate :=
       <[toolCallId := {| ce_nodeId := ce_nodeId entry;
                          ce_name := match renamed with
                                     | Some nm => Some nm
                                     | None => ce_name entry
                                     end;
                          argsAccum := Some accum |}]> (streamingCreate c) |}.

(** What it does with the [tool-result] event of [create_new_window],
    after the entries for the history: the preview node goes when the
    tool made a node of its own. *)
Definition on_create_result (toolCallId : jsstring) (result : CreateNewWindowResult)
    (c : canvas) : canvas :=
  match streamingCreate c !! toolCallId with
  | Some provisional =>
      if truthy (ce_nodeId provisional)
         && negb (str_eqb (ce_nodeId provisional) (nodeId result))
      then {| st := with_nodes
                      (filter (λ n, id n ≠ ce_nodeId provisional) (nodes (st c)))
                      (st c);
              streamingCreate := delete toolCallId (streamingCreate c) |}
      else c
  | None => c
  end.

(** A call of [create_new_window] as the component sees it: the
    [tool-call] event, the deltas of the arguments, the call of the tool
    and the [tool-result] event.  [None] when the tool runs out of random
    draws. *)
Definition streamed_create (toolCallId : jsstring) (deltas : list jsstring)
    (name html : jsstring) (e : env) (c : canvas)
  : option (CreateNewWindowResult * canvas * env) :=
  let c1 := on_create_start toolCallId c in
  let c2 := foldl (λ c delta, on_create_delta toolCallId delta c) c1 deltas in
  '(r, s3, e') ← createNewWindow name html e (st c2);
  Some (r, on_create_result toolCallId r
             {| st := s3; streamingCreate := streamingCreate c2 |}, e').

End Preview.

(* ===================================================================== *)
(** ** Vocabulary of the further properties                               *)
(* ===================================================================== *)

Module Notions.
Import Heal Tools.

(** A tag name made of ASCII letters. *)
Definition letters (tag : jsstring) : Prop := forallb is_alpha tag = true.

(** The sum of a count over the detail records. *)
Definition total (f : detail → N) (ds : list detail) : N :=
  foldr (λ d acc, f d + acc) 0 ds.

(** The records of the operations that changed no element. *)
Definition without_effect (ds : list detail) : list detail :=
  filter (λ d, applied d = 0) ds.

(** The two counters of [applyMutations] are the sums over the records
    written so far, and every record has as many applications as
    matches. *)
Definition in_step `{dom : DomApi} (s : mut_state) : Prop :=
  targets s = total matched (localDetails s)
  ∧ applied_sum s = total applied (localDetails s)
  ∧ Forall (λ d, applied d = matched d) (localDetails s).

End Notions.

Module RunNotions.
Import Agent.

Section Events.
Context {W R : Type}.

(** The events a stream of chunks gives rise to. *)
Definition streamed (e : event R) : bool :=
  match e with
  | text_delta _ | tool_call _ _ | tool_input_delta _ _ _ => true
  | _ => false
  end.

Definition is_finish (e : event R) : bool :=
  match e with finish _ => true | _ => false end.

(** The tool results that an event sequence announces, in order. *)
Definition results_of (evs : list (event R))
  : list (jsstring * jsstring * option R) :=
  omap (λ e, match e with
             | tool_result toolCallId toolName output =>
                 Some (toolCallId, toolName, output)
             | _ => None
             end) evs.

Definition result_event (r : jsstring * jsstring * option R) : event R :=
  tool_result r.1.1 r.1.2 r.2.

(** No promise is resolved. *)
Definition pending (d : deferred R) : Prop :=
  d = {| text := None; toolResults := None; totalUsage := None |}.

(** While the loop runs: no finish event was emitted, no promise is
    resolved, and the results collected are those announced. *)
Definition running (g : @gen W R) : Prop :=
  forallb (λ e, negb (is_finish e)) (events g) = true
  ∧ pending (promises g)
  ∧ aggregatedToolResults g = results_of (events g).

(** From [g] to [g'] the events [more] were emitted, all of them stream
    events, and apart from the text collected nothing else changed. *)
Definition streams (more : list (event R)) (g g' : @gen W R) : Prop :=
  events g' = events g ++ more
  ∧ forallb streamed more = true
  ∧ promises g' = promises g
  ∧ world g' = world g
  ∧ messagesParam g' = messagesParam g
  ∧ aggregatedToolResults g' = aggregatedToolResults g
  ∧ lastStepPromptTokens g' = lastStepPromptTokens g
  ∧ lastStepCompletionTokens g' = lastStepCompletionTokens g
  ∧ requests g' = requests g.

(** The tool message of the request that answers a call. *)
Definition answers (c : jsstring * jsstring * jsstring) (m : message) : Prop :=
  ∃ content, m = tool_message c.1.1 content.

End Events.
End RunNotions.

Module HistoryNotions.
Import Values History.

(** The role of a message of a request. *)
Definition message_role (m : OpenAIMessage) : jsstring :=
  match m with
  | text_message role _ => role
  | calls_message _ => js "assistant"
  | result_message _ _ => js "tool"
  end.

(** One tool exchange of a run: the name and the identifier of the
    call, the arguments object that the component parsed, and the result
    of the tool. *)
Record exchange := {
  toolName : jsstring;
  toolCallId : jsstring;
  argsObj : value;
  result : value;
}.

(** The two history entries the component writes for an exchange. *)
Definition exchange_entries (x : exchange) : list ModelMessage :=
  [toToolCallAssistantMessage (toolName x) (toolCallId x) (argsObj x);
   toToolMessageFromResult (VStr (toolCallId x)) (VStr (toolName x)) (result x)].

Section WithJson.
Context `{json : JsonApi}.

(** The two messages a request should carry for an exchange: the call,
    with the arguments as JSON text, and its answer. *)
Definition exchange_messages (x : exchange) : list OpenAIMessage :=
  [calls_message
     [{| call_id := VStr (toolCallId x); call_name := VStr (toolName x);
         call_arguments := JSON_stringify (or_else (argsObj x) (VObj [])) |}];
   result_message (VStr (toolCallId x)) (as_content (result x))].

End WithJson.
End HistoryNotions.

(* ===================================================================== *)
(** ** The embedding on the scenarios of the specification                *)
(* ===================================================================== *)

Module Scenarios.
Import Extract Heal Tools Props.

(** The streamed arguments of a [create_new_window] call, cut after three
    fragments. *)
Example timer_name :
  extractLatestJsonStringField
    (jq "{'name':'Timer','html':'<!DOCTYPE html><ht") (js "name")
  = Some (js "Timer").
Proof. vm_compute. reflexivity. Qed.

Example timer_html_partial :
  extractLatestJsonStringField
    (jq "{'name':'Timer','html':'<!DOCTYPE html><html><body><div id=\'t\'>0</")
    (js "html")
  = Some (jq "<!DOCTYPE html><html><body><div id='t'>0</").
Proof. vm_compute. reflexivity. Qed.

Example timer_html_healed :
  healHtmlStream (jq "<!DOCTYPE html><html><body><div id='t'>0</")
  = jq "<!DOCTYPE html><html><body><div id='t'>0</div></body></html>".
Proof. vm_compute. reflexivity. Qed.

Example no_field_yet :
  extractLatestJsonStringField (jq "{'nam") (js "name") = None.
Proof. vm_compute. reflexivity. Qed.

(** The latest of two matches wins, and escapes are decoded. *)
Example latest_match :
  extractLatestJsonStringField
    (jq "{'t':'a','t' : 'b\nA\'c','u':'") (js "t")
  = Some ([98; 10; 65; 34; 99]).
Proof. vm_compute. reflexivity. Qed.

(** Void elements and self-closed tags are not put on the stack, an
    unfinished style block and an unfinished tag are dropped. *)
Example heal_void_and_self_closed :
  healHtmlStream (jq "<ul><li>a<br>b<img src='x'/><li class='y")
  = jq "<ul><li>a<br>b<img src='x'/></li></ul>".
Proof. vm_compute. reflexivity. Qed.

Example heal_drops_open_style :
  healHtmlStream (js "<html><head><STYLE>body{color:red")
  = js "<html><head></head></html>".
Proof. vm_compute. reflexivity. Qed.

Example heal_complete_document :
  healHtmlStream (js "<html><body><p>ok</p></body></html>")
  = js "<html><body><p>ok</p></body></html>".
Proof. vm_compute. reflexivity. Qed.

(** Two calls of [createNewWindow] with the same name in a fresh session;
    the first draw of the second call gives an identifier in use. *)
Example notes_twice :
  (let e := {| draws := js <$> ["a1b2c3"; "d4e5f6"; "a1b2c3"; "g7h8i9"; "j0k1l2"]%string;
               now := 1700000000000 |} in
   '(r1, st1, e1) ← createNewWindow (js "Notes") (js "<p>1</p>") e empty_store;
   '(r2, st2, e2) ← createNewWindow (js "Notes") (js "<p>2</p>") e1 st1;
   Some (status r1, finalName r1, windowId r1, status r2, finalName r2, windowId r2,
         nodeId r2, length (nodes st2)))
  = Some (created, js "Notes", js "wa1b2c3", renamed, js "Notes (2)", js "wg7h8i9",
          js "iframe-1700000000000-j0k1l2", 2%nat).
Proof. vm_compute. reflexivity. Qed.

End Scenarios.

(* ===================================================================== *)
(** ** The extractor on an unterminated value                             *)
(* ===================================================================== *)

Module ExtractFacts.
Import Extract Props.

(** *** The pattern *)

Lemma strip_prefix_Some (p s r : jsstring) :
  strip_prefix p s = Some r ↔ s = p ++ r.
Proof.
  revert s. induction p as [|a p IH]; intros s; simpl.
  - split; [by intros [= ->] | by intros ->].
  - destruct s as [|b s]; [split; [done | by intros [=]]|].
    destruct (a =? b) eqn:Hab.
    + apply N.eqb_eq in Hab. subst b. rewrite IH.
      split; [by intros -> | by intros [= ->]].
    + apply N.eqb_neq in Hab. split; [done | by intros [= ? ?]].
Qed.

Lemma skip_while_split (p : N → bool) (s : jsstring) :
  ∃ ws, s = ws ++ skip_while p s ∧ forallb p ws = true.
Proof.
  induction s as [|c t [ws [Hs Hws]]]; simpl.
  - by exists [].
  - destruct (p c) eqn:Hc.
    + exists (c :: ws). simpl. rewrite Hc, Hws. split; [by f_equal | done].
    + by exists [].
Qed.

Lemma skip_while_stop (p : N → bool) (ws : jsstring) (c : N) (r : jsstring) :
  forallb p ws = true → p c = false → skip_while p (ws ++ c :: r) = c :: r.
Proof.
  intros Hws Hc. induction ws as [|w ws IH]; simpl in *.
  - by rewrite Hc.
  - apply andb_prop in Hws as [-> Hws]. by apply IH.
Qed.

Lemma field_match_at_spec (field s tail : jsstring) :
  field_match_at field s = Some tail ↔ field_pattern field s tail.
Proof.
  unfold field_match_at, field_pattern. split.
  - destruct (strip_prefix _ s) as [r1|] eqn:Hp; [|done].
    apply strip_prefix_Some in Hp.
    destruct (skip_while_split is_ws r1) as [ws1 [Hr1 Hws1]].
    destruct (skip_while is_ws r1) as [|c r2]; [done|].
    destruct (c =? c_colon) eqn:Hc; [|done]. apply N.eqb_eq in Hc. subst c.
    destruct (skip_while_split is_ws r2) as [ws2 [Hr2 Hws2]].
    destruct (skip_while is_ws r2) as [|q r3]; [done|].
    destruct (q =? c_quote) eqn:Hq; [|done]. apply N.eqb_eq in Hq. subst q.
    intros [= <-]. exists ws1, ws2. split; [|done].
    rewrite Hp, Hr1, Hr2. by rewrite <- !app_assoc.
  - intros [ws1 [ws2 [-> [Hws1 Hws2]]]].
    replace ([c_quote] ++ field ++ [c_quote] ++ ws1 ++ [c_colon] ++ ws2
             ++ [c_quote] ++ tail)
      with (([c_quote] ++ field ++ [c_quote])
            ++ (ws1 ++ c_colon :: ws2 ++ c_quote :: tail))
      by (by rewrite <- !app_assoc).
    rewrite (proj2 (strip_prefix_Some _ _ _) eq_refl).
    rewrite skip_while_stop by done.
    rewrite N.eqb_refl.
    rewrite skip_while_stop by done.
    by rewrite N.eqb_refl.
Qed.

(** *** The search loop *)

Lemma exec_loop_Some (fuel : nat) (field : jsstring) :
  ∀ s x, is_Some (exec_loop fuel field s (Some x)).
Proof.
  induction fuel as [|fuel IH]; intros s x; simpl; [by eexists|].
  destruct (field_match_at field s); [apply IH|].
  destruct s; [by eexists | apply IH].
Qed.

Lemma exec_loop_None (fuel : nat) (field : jsstring) :
  ∀ s, (length s < fuel)%nat →
    exec_loop fuel field s None = None
    ↔ ∀ pre rest, s = pre ++ rest → field_match_at field rest = None.
Proof.
  induction fuel as [|fuel IH]; intros s Hlen; [lia|]. simpl.
  destruct (field_match_at field s) as [r|] eqn:Hm.
  - split.
    + intros H. destruct (exec_loop_Some fuel field r r) as [v Hv]. congruence.
    + intros H. specialize (H [] s eq_refl). congruence.
  - destruct s as [|c t].
    + split; [|done]. intros _ pre rest Hs.
      symmetry in Hs. apply app_eq_nil in Hs as [_ ->]. done.
    + simpl in Hlen. rewrite IH by lia. split.
      * intros H pre rest Hs. destruct pre as [|c' pre]; simpl in Hs.
        -- by subst rest.
        -- injection Hs as _ Hs. by apply (H pre).
      * intros H pre rest Hs. apply (H (c :: pre)). simpl. by f_equal.
Qed.

(** X1.  [null] is returned exactly when the pattern matches nowhere in the
    buffer. *)
Lemma extract_None (B F : jsstring) :
  extractLatestJsonStringField B F = None
  ↔ ∀ pre rest tail, B = pre ++ rest → ¬ field_pattern F rest tail.
Proof.
  unfold extractLatestJsonStringField, last_field_match.
  destruct (exec_loop _ F B None) as [t|] eqn:He.
  - split; [done|]. intros H. exfalso.
    assert (Hn : exec_loop (S (length B)) F B None = None).
    { apply exec_loop_None; [lia|]. intros pre rest HB.
      destruct (field_match_at F rest) as [tl|] eqn:Hm; [|done].
      apply field_match_at_spec in Hm. by destruct (H pre rest tl). }
    congruence.
  - split; [|done]. intros _ pre rest tail HB Hp.
    apply field_match_at_spec in Hp.
    assert (Hlt : (length B < S (length B))%nat) by lia.
    pose proof (proj1 (exec_loop_None _ F B Hlt) He pre rest HB) as Hn.
    rewrite Hn in Hp. done.
Qed.

(** *** The scan *)

Lemma scan_value_unterminated (s : jsstring) :
  ∀ (escaped : bool) (out : jsstring),
    has_closing_quote s escaped = false →
    scan_value s escaped out
      ++ (if ends_escaped s escaped then [c_backslash] else [])
    = out ++ (if escaped then [c_backslash] else []) ++ s.
Proof.
  induction s as [|ch rest IH]; intros escaped out Hq; simpl in *.
  - destruct escaped; simpl; by rewrite ?app_nil_r.
  - destruct escaped.
    + rewrite IH by done. by rewrite <- app_assoc.
    + destruct (ch =? c_backslash) eqn:Hb.
      * apply N.eqb_eq in Hb. subst ch. by rewrite IH.
      * destruct (ch =? c_quote) eqn:Hc; [done|].
        rewrite IH by done. by rewrite <- app_assoc.
Qed.

(** A buffer without any double quote after the match has no closing
    quote. *)
Lemma no_quote_no_closing (s : jsstring) :
  ∀ escaped, Forall (λ c, c ≠ c_quote) s → has_closing_quote s escaped = false.
Proof.
  induction s as [|ch rest IH]; intros escaped Hs; simpl; [done|].
  inversion Hs as [|? ? Hch Hrest]; subst.
  destruct escaped; [by apply IH|].
  destruct (ch =? c_backslash); [by apply IH|].
  destruct (ch =? c_quote) eqn:Hc; [|by apply IH].
  apply N.eqb_eq in Hc. done.
Qed.

(** C1, as the code has it.  When the buffer holds the field and the value
    after its latest match has no unescaped closing quote yet, the
    extractor does not return null: it returns the unescaped span read so
    far, which is everything after the match, short of a final unpaired
    backslash. *)
Theorem extract_unterminated_returns_span (B F tail : jsstring) :
  last_field_match F B = Some tail →
  has_closing_quote tail false = false →
  ∃ span,
    extractLatestJsonStringField B F = Some (unescapeJsonString span)
    ∧ span ++ (if ends_escaped tail false then [c_backslash] else []) = tail.
Proof.
  intros Hm Hq. exists (scan_value tail false []). split.
  - unfold extractLatestJsonStringField. by rewrite Hm.
  - by rewrite (scan_value_unterminated tail false [] Hq).
Qed.

Lemma extract_unterminated_returns_span_witness :
  last_field_match (js "name") (jq "{'name':'Tim") = Some (js "Tim")
  ∧ ∃ span,
      extractLatestJsonStringField (jq "{'name':'Tim") (js "name")
      = Some (unescapeJsonString span)
      ∧ span ++ [] = js "Tim".
Proof.
  split; [vm_compute; reflexivity|].
  apply (extract_unterminated_returns_span
           (jq "{'name':'Tim") (js "name") (js "Tim"));
    vm_compute; reflexivity.
Defined.

(** C1 as stated fails: in the buffer [jq "{'name':'Tim"] the value of
    [name] is not closed, and the extractor returns [Tim], not null. *)
Lemma extract_unterminated_counterexample :
  unterminated_field (jq "{'name':'Tim") (js "name")
  ∧ extractLatestJsonStringField (jq "{'name':'Tim") (js "name")
    = Some (js "Tim")
  ∧ ¬ (unterminated_field (jq "{'name':'Tim") (js "name") →
       extractLatestJsonStringField (jq "{'name':'Tim") (js "name") = None).
Proof.
  assert (Hu : unterminated_field (jq "{'name':'Tim") (js "name")).
  { exists (js "Tim"). split; vm_compute; reflexivity. }
  assert (He : extractLatestJsonStringField (jq "{'name':'Tim") (js "name")
               = Some (js "Tim")) by (vm_compute; reflexivity).
  split; [done|]. split; [done|].
  intros H. specialize (H Hu). rewrite He in H. discriminate.
Qed.

End ExtractFacts.

(* ===================================================================== *)
(** ** The healer: what holds on every input                              *)
(* ===================================================================== *)

Module HealWalk.
Import Heal Props.

(** *** Incomplete tags *)

Lemma re_test_suffix (P : jsstring → bool) (pre s : jsstring) :
  re_test P (pre ++ s) = false → re_test P s = false.
Proof.
  induction pre as [|c pre IH]; cbn [app re_test]; [done|].
  intros H. apply orb_false_elim in H as [_ H]. by apply IH.
Qed.

Lemma re_test_head (P : jsstring → bool) (s : jsstring) :
  re_test P s = false → P s = false.
Proof. destruct s; cbn [re_test]; intros H; by apply orb_false_elim in H as [H _]. Qed.

Lemma re_remove_keeps_gt (t : jsstring) :
  forallb not_gt t = false →
  forallb not_gt (re_remove incompleteTag t) = false.
Proof.
  induction t as [|x t IH]; [done|]. intros H.
  cbn [re_remove]. destruct (incompleteTag (x :: t)) eqn:Hi.
  - exfalso. cbn [incompleteTag] in Hi. apply andb_prop in Hi as [Hx Ht].
    apply N.eqb_eq in Hx. subst x. cbn in H. congruence.
  - cbn [forallb] in *. destruct (not_gt x); [|done]. cbn in *. by apply IH.
Qed.

Lemma re_remove_clean (s : jsstring) :
  re_test incompleteTag (re_remove incompleteTag s) = false.
Proof.
  induction s as [|c t IH]; [done|].
  cbn [re_remove]. destruct (incompleteTag (c :: t)) eqn:Hi; [done|].
  cbn [re_test]. rewrite IH, orb_false_r.
  cbn [incompleteTag] in *. destruct (c =? c_lt); [|done]. cbn in *.
  by apply re_remove_keeps_gt.
Qed.

Lemma cut_incomplete_clean (p : jsstring) :
  re_test incompleteTag (cut_incomplete p) = false.
Proof.
  unfold cut_incomplete. cbv zeta.
  destruct (re_test incompleteTag (fold_left drop_incomplete_block complex p))
    eqn:H; [apply re_remove_clean | done].
Qed.

(** *** Scanning up to a greater-than sign *)

Lemma not_gt_false (c : N) : not_gt c = false ↔ c = c_gt.
Proof.
  unfold not_gt. rewrite negb_false_iff. apply N.eqb_eq.
Qed.

Lemma has_gt (r : jsstring) : forallb not_gt r = false ↔ c_gt ∈ r.
Proof.
  induction r as [|c r IH]; cbn [forallb].
  - split; [done | by intros H%elem_of_nil].
  - rewrite elem_of_cons, andb_false_iff, IH, not_gt_false.
    split; intros [H|H]; auto.
Qed.

(** For a class [p] that leaves out the greater-than sign, [p*] stops in
    [r] when [r] holds that sign: what follows [r] plays no part. *)
Lemma scan_stops (p : N → bool) (r x : jsstring) :
  p c_gt = false → c_gt ∈ r →
  skip_while p (r ++ x) = skip_while p r ++ x
  ∧ take_while p (r ++ x) = take_while p r
  ∧ c_gt ∈ skip_while p r.
Proof.
  intros Hp. induction r as [|c r IH]; [by intros H%elem_of_nil|].
  intros Hin. cbn [app skip_while take_while].
  destruct (p c) eqn:Hc.
  - apply elem_of_cons in Hin as [Heq|Hin]; [subst c; congruence|].
    destruct (IH Hin) as (-> & -> & ?). done.
  - done.
Qed.

Lemma skip_to_gt (r : jsstring) :
  c_gt ∈ r → ∃ rest, skip_while not_gt r = c_gt :: rest.
Proof.
  induction r as [|c r IH]; [by intros H%elem_of_nil|].
  intros Hin. cbn [skip_while]. destruct (not_gt c) eqn:Hc.
  - apply elem_of_cons in Hin as [Heq|Hin]; [subst c; discriminate|].
    by apply IH.
  - apply not_gt_false in Hc. subst c. by eexists.
Qed.

Lemma skip_while_length (p : N → bool) (r : jsstring) :
  (length (skip_while p r) ≤ length r)%nat.
Proof.
  induction r as [|c r IH]; cbn [skip_while]; [done|].
  destruct (p c); cbn [length]; lia.
Qed.

Lemma is_alnum_gt : is_alnum c_gt = false.
Proof. reflexivity. Qed.

Lemma not_gt_gt : not_gt c_gt = false.
Proof. reflexivity. Qed.

(** *** A match of [tagRegex] *)

(** The text after a match is a proper suffix of the input. *)
Lemma tag_at_after (s : jsstring) (m : tag_match) :
  tag_at s = Some m →
  ∃ pre, s = pre ++ after m ∧ pre ≠ [].
Proof.
  destruct s as [|c r]; [done|]. cbn [tag_at].
  destruct (c =? c_lt); [|done].
  set (r1 := match r with d :: r' => if d =? c_slash then r' else r | [] => r end).
  assert (Hr1 : ∃ p1, r = p1 ++ r1).
  { subst r1. destruct r as [|d r']; [by exists []|].
    destruct (d =? c_slash); [by exists [d] | by exists []]. }
  destruct Hr1 as [p1 Hp1].
  destruct r1 as [|l r2]; [done|].
  destruct (is_alpha l); [|done].
  destruct (ExtractFacts.skip_while_split is_alnum r2) as (w1 & Hw1 & _).
  destruct (ExtractFacts.skip_while_split not_gt (skip_while is_alnum r2))
    as (w2 & Hw2 & _).
  destruct (skip_while not_gt (skip_while is_alnum r2)) as [|g rest]; [done|].
  intros [= <-]. cbn [after].
  exists (c :: p1 ++ l :: w1 ++ w2 ++ [g]). split; [|done].
  rewrite Hp1, Hw1, Hw2. cbn [app]. f_equal.
  rewrite <- !app_assoc. cbn [app]. do 2 f_equal.
  rewrite <- !app_assoc. by cbn [app].
Qed.

Lemma tag_at_shorter (s : jsstring) (m : tag_match) :
  tag_at s = Some m → (length (after m) < length s)%nat.
Proof.
  intros (pre & Hs & Hpre)%tag_at_after.
  rewrite Hs, length_app. destruct pre; [done|]. cbn. lia.
Qed.

(** With [x] put after an input that has no incomplete tag, a match ends
    inside the input as before. *)

Lemma tag_at_app (c : N) (r x : jsstring) :
  incompleteTag (c :: r) = false →
  tag_at ((c :: r) ++ x) = extend x <$> tag_at (c :: r).
Proof.
  intros Hinc. cbn [app tag_at].
  cbn [incompleteTag] in Hinc.
  destruct (c =? c_lt); [|done]. cbn [andb] in Hinc.
  apply has_gt in Hinc.
  remember (match r with d :: r' => if d =? c_slash then r' else r | [] => r end)
    as r1 eqn:Er1.
  assert (Hr1 : match r ++ x with
                | d :: r' => if d =? c_slash then r' else r ++ x
                | [] => r ++ x
                end = r1 ++ x
                ∧ c_gt ∈ r1 ∧ (length r1 ≤ length r)%nat).
  { subst r1. destruct r as [|d r']; [by apply elem_of_nil in Hinc|].
    cbn [app]. destruct (d =? c_slash) eqn:Hd; [|done].
    split; [done|]. split; [|cbn; lia].
    apply elem_of_cons in Hinc as [Hinc|Hinc]; [|done].
    apply N.eqb_eq in Hd. subst d. discriminate. }
  clear Er1. destruct Hr1 as (-> & Hin1 & L3).
  destruct r1 as [|l r2]; [by apply elem_of_nil in Hin1|].
  cbn [app]. destruct (is_alpha l) eqn:Hl; [|done].
  apply elem_of_cons in Hin1 as [<-|Hin2]; [discriminate|].
  destruct (scan_stops is_alnum r2 x is_alnum_gt Hin2) as (-> & -> & Hin3).
  destruct (scan_stops not_gt (skip_while is_alnum r2) x not_gt_gt Hin3)
    as (-> & _ & _).
  destruct (skip_to_gt _ Hin3) as [rest Hrest]. rewrite Hrest.
  cbn [app fmap option_fmap option_map]. unfold extend. cbn [full name1 after].
  f_equal. f_equal.
  assert (Hlen : (length rest < length (c :: r))%nat).
  { pose proof (skip_while_length not_gt (skip_while is_alnum r2)) as L1.
    pose proof (skip_while_length is_alnum r2) as L2.
    rewrite Hrest in L1. cbn [length] in *. lia. }
  change (c :: r ++ x) with ((c :: r) ++ x).
  rewrite !length_app.
  replace (length (c :: r) + length x - (length rest + length x))%nat
    with (length (c :: r) - length rest)%nat by lia.
  rewrite take_app_le by lia. done.
Qed.

(** *** The walk *)

Ltac len :=
  cbn [length app] in *; rewrite ?length_app in *; cbn [length] in *; lia.

Lemma walk_step_extend (x : jsstring) (m : tag_match) (st : list jsstring) :
  walk_step (extend x m) st = walk_step m st.
Proof. reflexivity. Qed.

(** Fuel above the length of the input is never used up. *)
Lemma walk_fuel (f1 : nat) :
  ∀ f2 s st, (length s < f1)%nat → (length s < f2)%nat →
             walk f1 s st = walk f2 s st.
Proof.
  induction f1 as [|f1 IH]; intros f2 s st H1 H2; [lia|].
  destruct f2 as [|f2]; [lia|]. cbn [walk].
  destruct (tag_at s) as [m|] eqn:Hm.
  - apply tag_at_shorter in Hm. apply IH; lia.
  - destruct s as [|c t]; [done|]. cbn [length] in *. apply IH; lia.
Qed.

Lemma open_tags_nil : open_tags [] = [].
Proof. reflexivity. Qed.

(** Walking a text without incomplete tag and then what follows it. *)
Lemma walk_app (n : nat) :
  ∀ h x st,
    (length h ≤ n)%nat →
    re_test incompleteTag h = false →
    walk (S (length (h ++ x))) (h ++ x) st
    = walk (S (length x)) x (walk (S (length h)) h st).
Proof.
  induction n as [|n IH]; intros h x st Hn Hc.
  - destruct h; [done | cbn in Hn; lia].
  - destruct h as [|c t]; [done|].
    pose proof (re_test_head _ _ Hc) as Hi.
    cbn [walk]. rewrite (tag_at_app c t x Hi).
    destruct (tag_at (c :: t)) as [m|] eqn:Hm;
      cbn [fmap option_fmap option_map].
    + pose proof (tag_at_shorter _ _ Hm) as Hs.
      destruct (tag_at_after _ _ Hm) as (pre & Hpre & _).
      cbn [after extend]. rewrite walk_step_extend.
      rewrite (walk_fuel _ (S (length (after m ++ x)))); [|len..].
      rewrite (walk_fuel (length (c :: t)) (S (length (after m)))); [|len..].
      apply IH; [len|].
      apply (re_test_suffix _ pre). by rewrite <- Hpre.
    + cbn [app].
      rewrite (walk_fuel _ (S (length (t ++ x)))); [|len..].
      rewrite (walk_fuel (length (c :: t)) (S (length t))); [|len..].
      apply IH; [len|].
      cbn [re_test] in Hc. by apply orb_false_elim in Hc as [_ Hc].
Qed.

(** *** The names on the stack *)

Ltac bool_N :=
  repeat match goal with
         | |- context [?a <=? ?b] =>
             destruct (N.leb_spec a b); cbn [andb orb] in *
         | |- context [?a =? ?b] =>
             destruct (N.eqb_spec a b); cbn [andb orb] in *
         end; try done; try lia.

Lemma lower_lower (c : N) : lower (lower c) = lower c.
Proof. unfold lower. bool_N. Qed.

Lemma is_alpha_lower (c : N) : is_alpha (lower c) = is_alpha c.
Proof. unfold is_alpha, lower. bool_N. Qed.

Lemma is_alnum_lower (c : N) : is_alnum (lower c) = is_alnum c.
Proof. unfold is_alnum, is_alpha, lower. bool_N. Qed.

Lemma take_while_all (p : N → bool) (r : jsstring) :
  forallb p (take_while p r) = true.
Proof.
  induction r as [|c r IH]; cbn [take_while]; [done|].
  destruct (p c) eqn:Hc; [|done]. cbn [forallb]. by rewrite Hc.
Qed.

Lemma take_while_stop (p : N → bool) (ws : jsstring) (c : N) (r : jsstring) :
  forallb p ws = true → p c = false → take_while p (ws ++ c :: r) = ws.
Proof.
  intros Hws Hc. induction ws as [|w ws IH]; cbn [app take_while forallb] in *.
  - by rewrite Hc.
  - apply andb_prop in Hws as [-> Hws]. by rewrite IH.
Qed.

Lemma tag_at_name (s : jsstring) (m : tag_match) :
  tag_at s = Some m →
  ∃ l tl, name1 m = l :: tl ∧ is_alpha l = true ∧ forallb is_alnum tl = true.
Proof.
  destruct s as [|c r]; [done|]. cbn [tag_at].
  destruct (c =? c_lt); [|done].
  destruct (match r with d :: r' => if d =? c_slash then r' else r | [] => r end)
    as [|l r2]; [done|].
  destruct (is_alpha l) eqn:Hl; [|done].
  destruct (skip_while not_gt (skip_while is_alnum r2)) as [|g rest]; [done|].
  intros [= <-]. exists l, (take_while is_alnum r2).
  split; [done|]. split; [done | apply take_while_all].
Qed.

Lemma Forall_removelast {A : Type} (P : A → Prop) (l : list A) :
  Forall P l → Forall P (removelast l).
Proof.
  induction l as [|a l IH]; [done|]. intros H.
  inversion H as [|? ? Ha Hl]; subst. cbn [removelast].
  destruct l; [constructor | constructor; [done | by apply IH]].
Qed.

Lemma walk_step_names (s : jsstring) (m : tag_match) (st : list jsstring) :
  tag_at s = Some m → Forall pushed_name st → Forall pushed_name (walk_step m st).
Proof.
  intros Hm Hst. unfold walk_step.
  destruct (has selfClosing _ || has complex _) eqn:Hh; [done|].
  destruct (startsWith (full m) [c_lt; c_slash]).
  - destruct (bool_decide _); [by apply Forall_removelast | done].
  - destruct (negb _); [|done].
    apply Forall_app. split; [done|]. constructor; [|constructor].
    apply orb_false_elim in Hh as [Hv Hc].
    destruct (tag_at_name _ _ Hm) as (l & tl & Hn & Hl & Htl).
    rewrite Hn in *. exists (lower l), (lower <$> tl).
    split; [done|]. split; [by rewrite is_alpha_lower|].
    split.
    { clear -Htl. induction tl as [|c tl IH]; [done|].
      cbn [forallb fmap list_fmap] in *. apply andb_prop in Htl as [Hc Htl].
      by rewrite is_alnum_lower, Hc, IH. }
    split; [|done].
    unfold toLowerCase. cbn [fmap list_fmap]. rewrite lower_lower. f_equal.
    clear. induction tl as [|c tl IH]; [done|].
    cbn [fmap list_fmap]. by rewrite lower_lower, IH.
Qed.

Lemma walk_names (fuel : nat) :
  ∀ s st, Forall pushed_name st → Forall pushed_name (walk fuel s st).
Proof.
  induction fuel as [|fuel IH]; intros s st Hst; cbn [walk]; [done|].
  destruct (tag_at s) as [m|] eqn:Hm.
  - apply IH. by apply (walk_step_names s).
  - destruct s; [done | by apply IH].
Qed.

(** *** Walking the closing tags *)

Lemma closers_snoc (st : list jsstring) (n : jsstring) :
  closers (st ++ [n]) = ([c_lt; c_slash] ++ n ++ [c_gt]) ++ closers st.
Proof. unfold closers. by rewrite rev_unit. Qed.

Lemma tag_at_closer (n rest : jsstring) :
  pushed_name n →
  tag_at (([c_lt; c_slash] ++ n ++ [c_gt]) ++ rest)
  = Some {| full := [c_lt; c_slash] ++ n ++ [c_gt]; name1 := n; after := rest |}.
Proof.
  intros (l & tl & -> & Hl & Htl & _).
  cbn [app tag_at]. rewrite !N.eqb_refl, Hl.
  rewrite <- app_assoc. cbn [app].
  rewrite (ExtractFacts.skip_while_stop is_alnum tl c_gt rest Htl is_alnum_gt).
  rewrite (take_while_stop is_alnum tl c_gt rest Htl is_alnum_gt).
  cbn [skip_while]. rewrite not_gt_gt. do 2 f_equal.
  change (c_lt :: c_slash :: l :: tl ++ c_gt :: rest)
    with ((c_lt :: c_slash :: l :: tl) ++ c_gt :: rest).
  replace ((c_lt :: c_slash :: l :: tl) ++ c_gt :: rest)
    with ((c_lt :: c_slash :: l :: tl ++ [c_gt]) ++ rest)
    by (cbn [app]; by rewrite <- app_assoc).
  replace (length ((c_lt :: c_slash :: l :: tl ++ [c_gt]) ++ rest) - length rest)%nat
    with (length (c_lt :: c_slash :: l :: tl ++ [c_gt]))
    by (rewrite length_app; lia).
  by rewrite take_app_length.
Qed.

Lemma walk_closers (st : list jsstring) :
  Forall pushed_name st →
  walk (S (length (closers st))) (closers st) st = [].
Proof.
  induction st as [|n st IH] using rev_ind; [done|].
  intros [Hst Hn]%Forall_app. inversion Hn as [|? ? Hgood _]; subst.
  rewrite closers_snoc. cbn [walk]. rewrite (tag_at_closer n _ Hgood).
  cbn [after].
  assert (Hstep : walk_step
                    {| full := [c_lt; c_slash] ++ n ++ [c_gt]; name1 := n;
                       after := closers st |} (st ++ [n]) = st).
  { unfold walk_step. cbn [name1 full].
    destruct Hgood as (l & tl & Hshape & _ & _ & -> & -> & ->).
    cbn [orb]. replace (startsWith _ _) with true by reflexivity.
    rewrite last_snoc. rewrite bool_decide_eq_true_2 by done.
    by rewrite removelast_last. }
  rewrite Hstep.
  rewrite (walk_fuel _ (S (length (closers st)))); [by apply IH | len..].
Qed.

(** X4.  What the healer gives on every input.  Run on its own output, the tag
    walk of the healer ends on an empty stack: every start tag it counts
    as opened (not void, not [script] or [style], not self-closed) has its
    end tag where the walk expects it. *)
Theorem healHtmlStream_balanced (partialHTML : jsstring) :
  open_tags (healHtmlStream partialHTML) = [].
Proof.
  unfold healHtmlStream. cbv zeta.
  set (h := cut_incomplete partialHTML).
  assert (Hout : match open_tags h with
                 | [] => h
                 | _ :: _ => h ++ closers (open_tags h)
                 end = h ++ closers (open_tags h)).
  { destruct (open_tags h); [by rewrite app_nil_r | done]. }
  rewrite Hout. unfold open_tags at 1.
  rewrite (walk_app (length h)); [|done | apply cut_incomplete_clean].
  fold (open_tags h). apply walk_closers.
  unfold open_tags. by apply walk_names.
Qed.

(** *** No incomplete tag in the output *)

Lemma clean_app (h x : jsstring) :
  re_test incompleteTag h = false →
  re_test incompleteTag x = false →
  re_test incompleteTag (h ++ x) = false.
Proof.
  intros Hh Hx. induction h as [|c t IH]; [done|].
  cbn [app re_test] in *. apply orb_false_elim in Hh as [Hc Ht].
  rewrite (IH Ht), orb_false_r.
  cbn [incompleteTag] in *. destruct (c =? c_lt); [|done]. cbn [andb] in *.
  apply has_gt. apply has_gt in Hc. apply elem_of_app. by left.
Qed.

Lemma clean_name (tl rest : jsstring) :
  forallb is_alnum tl = true →
  re_test incompleteTag rest = false →
  re_test incompleteTag (tl ++ rest) = false.
Proof.
  intros Htl Hr. induction tl as [|c tl IH]; [done|].
  cbn [app re_test forallb] in *. apply andb_prop in Htl as [Hc Htl].
  rewrite (IH Htl), orb_false_r. cbn [incompleteTag].
  destruct (N.eqb_spec c c_lt) as [->|]; [discriminate | done].
Qed.

Lemma closers_clean (st : list jsstring) :
  Forall pushed_name st → re_test incompleteTag (closers st) = false.
Proof.
  induction st as [|n st IH] using rev_ind; [done|].
  intros [Hst Hn]%Forall_app. inversion Hn as [|? ? Hgood _]; subst.
  rewrite closers_snoc. destruct Hgood as (l & tl & -> & Hl & Htl & _).
  cbn [app re_test incompleteTag].
  assert (Hgt : forallb not_gt (c_slash :: l :: (tl ++ [c_gt]) ++ closers st)
                = false).
  { apply has_gt. do 2 (apply elem_of_cons; right).
    apply elem_of_app. left. apply elem_of_app. right. by apply elem_of_cons; left. }
  rewrite Hgt. cbn [N.eqb andb orb].
  replace (c_slash =? c_lt) with false by reflexivity.
  destruct (N.eqb_spec l c_lt) as [->|_]; [discriminate|]. cbn [andb orb].
  rewrite <- app_assoc. apply clean_name; [done|].
  cbn [app re_test incompleteTag]. replace (c_gt =? c_lt) with false by reflexivity.
  cbn [andb orb]. by apply IH.
Qed.

(** X5.  The output of the healer has no trailing incomplete tag: each
    less-than sign in it has a greater-than sign after it. *)
Theorem healHtmlStream_no_incomplete_tag (partialHTML : jsstring) :
  re_test incompleteTag (healHtmlStream partialHTML) = false.
Proof.
  unfold healHtmlStream. cbv zeta.
  pose proof (cut_incomplete_clean partialHTML) as Hc.
  destruct (open_tags (cut_incomplete partialHTML)) as [|n st] eqn:Ho; [done|].
  apply clean_app; [done|]. apply closers_clean.
  rewrite <- Ho. unfold open_tags. by apply walk_names.
Qed.

End HealWalk.

(* ===================================================================== *)
(** ** The healer and raw-text elements                                   *)
(* ===================================================================== *)

Module HealFacts.
Import Heal.

Lemma re_test_false_match (P : jsstring → bool) (s : jsstring) :
  re_test P s = false → re_match P s = None.
Proof.
  induction s as [|c t IH]; simpl.
  - intros H. apply orb_false_elim in H as [-> _]. done.
  - intros H. apply orb_false_elim in H as [-> H]. by apply IH.
Qed.

Lemma drop_incomplete_block_id (healed tag : jsstring) :
  re_test (openTagRegex tag) healed = false →
  re_test (incompleteOpen tag) healed = false →
  drop_incomplete_block healed tag = healed.
Proof.
  intros H1 H2. unfold drop_incomplete_block.
  by rewrite (re_test_false_match _ _ H1), H2.
Qed.

(** When none of the healer's patterns applies to a document and its tag
    walk ends on an empty stack, the healer returns the document as it
    is. *)
Lemma healHtmlStream_unchanged (D : jsstring) :
  Forall (λ tag, re_test (openTagRegex tag) D = false
                 ∧ re_test (incompleteOpen tag) D = false) complex →
  re_test incompleteTag D = false →
  open_tags D = [] →
  healHtmlStream D = D.
Proof.
  intros Hc Hi Ho. unfold healHtmlStream, cut_incomplete.
  assert (Hf : fold_left drop_incomplete_block complex D = D).
  { induction complex as [|tag tags IH]; simpl; [done|].
    inversion Hc as [|? ? [H1 H2] Hrest]; subst.
    rewrite drop_incomplete_block_id by done. by apply IH. }
  rewrite Hf, Hi, Ho. done.
Qed.

(** C2 on the code.  A script whose text holds an opening style tag: the
    pass over [style] cuts the input inside the script element, after the
    pass over [script] has found that element complete.  The output keeps
    the opening script tag without its end tag, and the healer's own
    pattern for an unterminated script block matches it. *)
Theorem heal_leaves_script_unterminated :
  healHtmlStream (jq "<div><script>var s = '<style>';</script></div>")
  = jq "<div><script>var s = '</div>"
  ∧ re_test (openTagRegex (js "script")) (jq "<div><script>var s = '</div>")
    = true.
Proof. split; vm_compute; reflexivity. Qed.

(** C8 on the code.  A complete document, every element of which is
    closed, comes back cut inside its script element: once because the
    script text holds an opening style tag, once because it compares a
    variable with one whose name starts with [script]. *)
Theorem heal_changes_complete_document :
  healHtmlStream
    (jq "<html><body><script>var s = '<style>';</script><p>ok</p></body></html>")
  = jq "<html><body><script>var s = '</body></html>"
  ∧ healHtmlStream
      (jq "<html><body><script>var s = '<style>';</script><p>ok</p></body></html>")
    ≠ jq "<html><body><script>var s = '<style>';</script><p>ok</p></body></html>"
  ∧ healHtmlStream
      (js "<html><body><script>for(i=0;i<scripts.length;i++){}</script></body></html>")
    = js "<html><body><script>for(i=0;i</body></html>".
Proof.
  split; [vm_compute; reflexivity|].
  split; [vm_compute; discriminate | vm_compute; reflexivity].
Qed.

End HealFacts.

(* ===================================================================== *)
(** ** The window tools                                                   *)
(* ===================================================================== *)

Module ToolsFacts.
Import Tools Props.

(** *** Maps *)

Lemma map_has_true (m : gmap jsstring jsstring) (k : jsstring) :
  map_has m k = true ↔ is_Some (m !! k).
Proof. unfold map_has. apply bool_decide_eq_true. Qed.

Lemma map_has_false (m : gmap jsstring jsstring) (k : jsstring) :
  map_has m k = false ↔ m !! k = None.
Proof.
  unfold map_has. rewrite bool_decide_eq_false. split.
  - intros H. destruct (m !! k) eqn:E; [|done]. destruct H. by eexists.
  - intros -> [x Hx]. done.
Qed.

Lemma get_truthy_None (m : gmap jsstring jsstring) (k : jsstring) :
  m !! k = None → get_truthy m k = None.
Proof. unfold get_truthy. by intros ->. Qed.

(** *** Fresh window identifiers *)

Lemma fresh_windowId_unused (ds : list jsstring) (ids : gmap jsstring jsstring)
    (w : jsstring) (rest : list jsstring) :
  fresh_windowId ds ids = Some (w, rest) → ids !! w = None.
Proof.
  induction ds as [|r ds IH]; cbn [fresh_windowId]; [done|].
  destruct (map_has ids (js "w" ++ r)) eqn:Hh; [exact IH|].
  intros [= <- <-]. by apply map_has_false.
Qed.

Lemma fresh_windowId_head (d : jsstring) (ds : list jsstring)
    (ids : gmap jsstring jsstring) :
  ids !! (js "w" ++ d) = None →
  fresh_windowId (d :: ds) ids = Some (js "w" ++ d, ds).
Proof.
  intros H. cbn [fresh_windowId]. by rewrite (proj2 (map_has_false _ _) H).
Qed.

(** C10.  When [createNewWindow] returns, the window identifier it gives
    was registered to no window before the call, it is registered to the
    node of the new window after it, and every identifier registered
    before still leads to the same node.  So the call keeps the two maps
    between windows and identifiers in agreement, and then no two nodes
    have the same window identifier. *)
Theorem createNewWindow_fresh_windowId
    (name html : jsstring) (e e' : env) (st st' : store)
    (r : CreateNewWindowResult) :
  createNewWindow name html e st = Some (r, st', e') →
  windowIdToNodeId st !! windowId r = None
  ∧ windowIdToNodeId st' !! windowId r = Some (nodeId r)
  ∧ (∀ w n, windowIdToNodeId st !! w = Some n →
            windowIdToNodeId st' !! w = Some n)
  ∧ (ids_agree st →
     ids_agree st'
     ∧ ∀ n1 n2 w, nodeIdToWindowId st' !! n1 = Some w →
                  nodeIdToWindowId st' !! n2 = Some w → n1 = n2).
Proof.
  unfold createNewWindow. intros H.
  destruct (unique_name (nameToNodeId st) name) as [fn|]; [|done].
  simpl in H.
  destruct (fresh_windowId (draws e) (windowIdToNodeId st))
    as [[w ds]|] eqn:Hw; [|done].
  simpl in H. apply fresh_windowId_unused in Hw.
  assert (Hkeep : ∀ nid w' n, windowIdToNodeId st !! w' = Some n →
            <[w := nid]> (windowIdToNodeId st) !! w' = Some n).
  { intros nid w' n Hn. rewrite lookup_insert_ne; [done|]. congruence. }
  assert (Hagree : ∀ nid st1,
            windowIdToNodeId st1 = <[w := nid]> (windowIdToNodeId st) →
            nodeIdToWindowId st1 = <[nid := w]> (nodeIdToWindowId st) →
            ids_agree st →
            ids_agree st1
            ∧ ∀ n1 n2 w', nodeIdToWindowId st1 !! n1 = Some w' →
                          nodeIdToWindowId st1 !! n2 = Some w' → n1 = n2).
  { intros nid st1 E1 E2 Ha.
    assert (Ha1 : ids_agree st1).
    { intros n w'. rewrite E1, E2. intros Hn.
      destruct (decide (nid = n)) as [->|Hne].
      - rewrite lookup_insert_eq in Hn. injection Hn as <-.
        by rewrite lookup_insert_eq.
      - rewrite lookup_insert_ne in Hn by done.
        apply Hkeep. by apply Ha. }
    split; [exact Ha1|].
    intros n1 n2 w' H1 H2. apply Ha1 in H1. apply Ha1 in H2. congruence. }
  destruct (get_truthy (provisionalNameToNodeId st) name) as [pid|].
  - injection H as <- <- <-. simpl.
    split; [done|]. split; [by rewrite lookup_insert_eq|].
    split; [by apply Hkeep|]. by apply (Hagree pid).
  - destruct ds as [|d ds]; [done|].
    injection H as <- <- <-. simpl.
    split; [done|]. split; [by rewrite lookup_insert_eq|].
    split; [by apply Hkeep|].
    by apply (Hagree (js "iframe-" ++ of_N (now e) ++ js "-" ++ d)).
Qed.

Lemma createNewWindow_fresh_windowId_witness :
  ∃ r st' e',
    createNewWindow (js "Notes") (js "<p>1</p>")
      {| draws := [js "1"; js "a1b2c3"; js "q1q1q1"]; now := 1700000000000 |}
      (one_window (js "T") (js "x")) = Some (r, st', e')
    ∧ windowId r = js "wa1b2c3"
    ∧ windowIdToNodeId (one_window (js "T") (js "x")) !! windowId r = None
    ∧ windowIdToNodeId st' !! js "w1" = Some (js "n1").
Proof.
  eexists _, _, _. split; [vm_compute; reflexivity|].
  split; [reflexivity|].
  pose proof (createNewWindow_fresh_windowId _ _ _ _ _ _ _
                (eq_refl : createNewWindow (js "Notes") (js "<p>1</p>")
                   {| draws := [js "1"; js "a1b2c3"; js "q1q1q1"];
                      now := 1700000000000 |}
                   (one_window (js "T") (js "x")) = Some _))
    as (Hfresh & _ & Hkeep & _).
  split; [exact Hfresh|].
  apply Hkeep. vm_compute. reflexivity.
Defined.

(** *** Unique names *)

Lemma unique_name_free (names : gmap jsstring jsstring) (name : jsstring) :
  names !! trim name = None → unique_name names name = Some (trim name).
Proof.
  intros H. unfold unique_name. cbn [unique_name_loop].
  by rewrite (proj2 (map_has_false _ _) H).
Qed.

Lemma unique_name_second (names : gmap jsstring jsstring) (name : jsstring) :
  is_Some (names !! trim name) →
  names !! (name ++ js " (" ++ of_N 2 ++ js ")") = None →
  unique_name names name = Some (name ++ js " (" ++ of_N 2 ++ js ")").
Proof.
  intros Hin Hout. unfold unique_name.
  assert (Hsz : size names ≠ 0%nat).
  { destruct Hin as [v Hv]. intros Hz. apply map_size_empty_iff in Hz.
    subst names. by rewrite lookup_empty in Hv. }
  destruct (size names) as [|k]; [done|]. cbn [unique_name_loop].
  rewrite (proj2 (map_has_true _ _) Hin).
  by rewrite (proj2 (map_has_false _ _) Hout).
Qed.

(** *** The two loops end *)

Lemma js_inj (a b : string) : js a = js b → a = b.
Proof.
  unfold js. intros H.
  assert (Hl : list_ascii_of_string a = list_ascii_of_string b).
  { revert H. generalize (list_ascii_of_string a) (list_ascii_of_string b).
    induction l as [|x l IH]; intros [|y l']; cbn; try done.
    intros [= Hxy Hl]. f_equal; [|by apply IH].
    rewrite <- (ascii_N_embedding x), <- (ascii_N_embedding y). by rewrite Hxy. }
  rewrite <- (string_of_list_ascii_of_string a),
          <- (string_of_list_ascii_of_string b). by rewrite Hl.
Qed.

Lemma of_N_inj (m n : N) : of_N m = of_N n → m = n.
Proof.
  unfold of_N. intros H%js_inj.
  assert (Hu : N.to_uint m = N.to_uint n).
  { pose proof (NilEmpty.usu (N.to_uint m)) as Hm.
    pose proof (NilEmpty.usu (N.to_uint n)) as Hn.
    rewrite H in Hm. congruence. }
  rewrite <- (DecimalN.Unsigned.of_to m), <- (DecimalN.Unsigned.of_to n).
  by rewrite Hu.
Qed.

Lemma suffixed_inj (name : jsstring) (j k : N) :
  suffixed name j = suffixed name k → j = k.
Proof.
  unfold suffixed. intros H.
  apply app_inv_head in H. apply app_inv_head in H.
  apply app_inv_tail in H. by apply of_N_inj.
Qed.

Lemma trim_length (s : jsstring) : (length (trim s) ≤ length s)%nat.
Proof.
  unfold trim. rewrite length_rev.
  etrans; [apply HealWalk.skip_while_length|]. rewrite length_rev.
  apply HealWalk.skip_while_length.
Qed.

Lemma trim_not_suffixed (name : jsstring) (k : N) : trim name ≠ suffixed name k.
Proof.
  intros H. pose proof (trim_length name) as L. rewrite H in L.
  unfold suffixed in L. rewrite !length_app in L.
  change (length (js " (")) with 2%nat in L. lia.
Qed.

(** When the loop runs out of fuel, every name it tried is in use. *)
Lemma unique_name_loop_None (names : gmap jsstring jsstring) (name : jsstring)
    (fuel : nat) :
  ∀ cand k,
    unique_name_loop fuel names name cand k = None →
    ∀ i, (i < fuel)%nat →
         is_Some (names !! match i with
                           | O => cand
                           | S i => suffixed name (k + N.of_nat i)
                           end).
Proof.
  induction fuel as [|fuel IH]; intros cand k H i Hi; [lia|].
  cbn [unique_name_loop] in H.
  destruct (map_has names cand) eqn:Hc; [|done].
  destruct i as [|i]; [by apply map_has_true|].
  specialize (IH _ _ H i ltac:(lia)).
  destruct i as [|i].
  - by rewrite N.add_0_r.
  - replace (k + N.of_nat (S i)) with (k + 1 + N.of_nat i) by lia. exact IH.
Qed.

(** The name loop always ends with a name: its fuel, the number of names in
    use plus one, cannot run out. *)
Lemma unique_name_total (names : gmap jsstring jsstring) (name : jsstring) :
  is_Some (unique_name names name).
Proof.
  destruct (unique_name names name) as [fn|] eqn:H; [by eexists|]. exfalso.
  unfold unique_name in H.
  pose proof (unique_name_loop_None names name _ _ _ H) as Hall.
  set (f := λ i : nat, suffixed name (2 + N.of_nat i)).
  set (L := trim name :: (f <$> seq 0 (size names))).
  assert (Hsub : (list_to_set L : gset jsstring) ⊆ dom names).
  { intros x Hx. apply elem_of_list_to_set in Hx. apply elem_of_dom.
    subst L. apply elem_of_cons in Hx as [->|Hx].
    - apply (Hall 0%nat). lia.
    - apply list_elem_of_fmap in Hx as (i & -> & Hi).
      apply elem_of_seq in Hi. apply (Hall (S i)). lia. }
  assert (Hnd : NoDup L).
  { subst L. apply list.NoDup_cons. split.
    - intros Hx. apply list_elem_of_fmap in Hx as (i & Hi & _).
      by apply trim_not_suffixed in Hi.
    - apply list.NoDup_fmap_2; [|apply list.NoDup_seq].
      intros i j Hij. apply suffixed_inj in Hij. lia. }
  apply subseteq_size in Hsub.
  rewrite (size_list_to_set L Hnd), size_dom in Hsub.
  subst L. cbn [length] in Hsub. rewrite length_fmap, length_seq in Hsub. lia.
Qed.

(** The identifier loop ends exactly when some draw is not in use. *)
Lemma fresh_windowId_is_Some (ds : list jsstring) (ids : gmap jsstring jsstring) :
  is_Some (fresh_windowId ds ids)
  ↔ Exists (λ d, ids !! (js "w" ++ d) = None) ds.
Proof.
  induction ds as [|d ds IH]; cbn [fresh_windowId].
  - split; [by intros [? ?] | by intros H%List.Exists_nil].
  - rewrite List.Exists_cons. destruct (map_has ids (js "w" ++ d)) eqn:Hd.
    + rewrite IH. apply map_has_true in Hd as [v Hv].
      split; [by right | intros [?|?]; [congruence | done]].
    + apply map_has_false in Hd. split; [by left | by eexists].
Qed.

(** What a call of [createNewWindow] does when the name loop ends on [fn],
    the first draw gives an unused identifier and one more draw is at
    hand. *)
Lemma createNewWindow_returns (name html fn d : jsstring) (ds : list jsstring)
    (e : env) (st : store) :
  unique_name (nameToNodeId st) name = Some fn →
  draws e = d :: ds →
  windowIdToNodeId st !! (js "w" ++ d) = None →
  ds ≠ [] →
  ∃ r st' e',
    createNewWindow name html e st = Some (r, st', e')
    ∧ finalName r = fn
    ∧ windowId r = js "w" ++ d
    ∧ nameToNodeId st' = <[fn := nodeId r]> (nameToNodeId st)
    ∧ windowIdToNodeId st' = <[js "w" ++ d := nodeId r]> (windowIdToNodeId st)
    ∧ (draws e' = ds ∨ draws e' = tail ds).
Proof.
  intros Hn Hd Hw Hds. unfold createNewWindow.
  rewrite Hn, Hd, (fresh_windowId_head _ _ _ Hw). cbn [mbind option_bind].
  destruct (get_truthy (provisionalNameToNodeId st) name) as [pid|].
  - eexists _, _, _. split; [reflexivity|]. cbn. by repeat split; try left.
  - destruct ds as [|d2 ds]; [done|].
    eexists _, _, _. split; [reflexivity|]. cbn. by repeat split; try right.
Qed.

(** A call of [createNewWindow] returns exactly when the random source
    serves it: the loop over names always ends. *)
Lemma createNewWindow_returns_iff (name html : jsstring) (e : env) (st : store) :
  is_Some (createNewWindow name html e st) ↔ source_serves name e st.
Proof.
  unfold createNewWindow, source_serves.
  destruct (unique_name_total (nameToNodeId st) name) as [fn ->].
  cbn [mbind option_bind].
  destruct (fresh_windowId (draws e) (windowIdToNodeId st)) as [[w ds]|];
    cbn [mbind option_bind]; [|by split; [intros [? ?] | intros (? & ? & ? & _)]].
  destruct (get_truthy (provisionalNameToNodeId st) name) as [pid|].
  - split; [|by eexists]. intros _. by exists w, ds.
  - destruct ds as [|d ds].
    + split; [by intros [? ?]|]. intros (w' & rest & [= <- <-] & H).
      by destruct (H eq_refl).
    + split; [|by eexists]. intros _. by exists w, (d :: ds).
Qed.

(** The name of a window that [createNewWindow] has made: what the loop
    over names ended on, now registered. *)
Lemma createNewWindow_names (name html : jsstring) (e e' : env)
    (st st' : store) (r : CreateNewWindowResult) :
  createNewWindow name html e st = Some (r, st', e') →
  unique_name (nameToNodeId st) name = Some (finalName r)
  ∧ nameToNodeId st' = <[finalName r := nodeId r]> (nameToNodeId st).
Proof.
  unfold createNewWindow. intros H.
  destruct (unique_name (nameToNodeId st) name) as [fn|]; [|done].
  cbn [mbind option_bind] in H.
  destruct (fresh_windowId (draws e) (windowIdToNodeId st)) as [[w ds]|];
    [|done].
  cbn [mbind option_bind] in H.
  destruct (get_truthy (provisionalNameToNodeId st) name) as [pid|].
  - by injection H as <- <- _.
  - destruct ds as [|d ds]; [done|].
    remember (js "iframe-" ++ of_N (now e) ++ js "-" ++ d) as newId.
    by injection H as <- <- _.
Qed.

(** C7, as the code has it.  In a session with no window named [Notes]
    and none named [Notes (2)], the first of two successive calls
    [createNewWindow("Notes", ...)] returns the final name [Notes] and
    the second the final name [Notes (2)].  The name makes neither call
    fail: each call returns exactly when the random source serves it,
    that is when the loop that draws window identifiers comes to one
    that is not in use (it draws again on a collision). *)
Theorem createNewWindow_twice_Notes (html1 html2 : jsstring)
    (e : env) (st : store) :
  nameToNodeId st !! js "Notes" = None →
  nameToNodeId st !! js "Notes (2)" = None →
  (is_Some (createNewWindow (js "Notes") html1 e st)
   ↔ source_serves (js "Notes") e st)
  ∧ ∀ r1 st1 e1,
      createNewWindow (js "Notes") html1 e st = Some (r1, st1, e1) →
      finalName r1 = js "Notes"
      ∧ (is_Some (createNewWindow (js "Notes") html2 e1 st1)
         ↔ source_serves (js "Notes") e1 st1)
      ∧ ∀ r2 st2 e2,
          createNewWindow (js "Notes") html2 e1 st1 = Some (r2, st2, e2) →
          finalName r2 = js "Notes (2)".
Proof.
  intros Hn1 Hn2. split; [apply createNewWindow_returns_iff|].
  intros r1 st1 e1 H1.
  apply createNewWindow_names in H1 as [Hu1 Hnames1].
  rewrite (unique_name_free _ (js "Notes")) in Hu1 by done.
  injection Hu1 as Hf1. change (trim (js "Notes")) with (js "Notes") in Hf1.
  split; [done|]. split; [apply createNewWindow_returns_iff|].
  intros r2 st2 e2 H2.
  apply createNewWindow_names in H2 as [Hu2 _].
  rewrite (unique_name_second (nameToNodeId st1) (js "Notes")) in Hu2.
  - by injection Hu2 as <-.
  - rewrite Hnames1, <- Hf1. change (trim (js "Notes")) with (js "Notes").
    rewrite lookup_insert_eq. by eexists.
  - rewrite Hnames1, <- Hf1.
    change (js "Notes" ++ js " (" ++ of_N 2 ++ js ")") with (js "Notes (2)").
    rewrite lookup_insert_ne; [done|]. vm_compute. discriminate.
Qed.

Lemma createNewWindow_twice_Notes_witness :
  ∃ r1 st1 e1 r2 st2 e2,
    createNewWindow (js "Notes") (js "<p>1</p>")
      {| draws := [js "1"; js "a"; js "a"; js "b"; js "c"];
         now := 1700000000000 |}
      (one_window (js "Timer") (js "<p>0</p>")) = Some (r1, st1, e1)
    ∧ createNewWindow (js "Notes") (js "<p>2</p>") e1 st1 = Some (r2, st2, e2)
    ∧ windowId r1 = js "wa"
    ∧ finalName r1 = js "Notes"
    ∧ finalName r2 = js "Notes (2)".
Proof.
  destruct (createNewWindow_twice_Notes (js "<p>1</p>") (js "<p>2</p>")
              {| draws := [js "1"; js "a"; js "a"; js "b"; js "c"];
                 now := 1700000000000 |}
              (one_window (js "Timer") (js "<p>0</p>")))
    as [Hret1 Hrest]; [vm_compute; reflexivity | vm_compute; reflexivity |].
  destruct (proj2 Hret1) as [[[r1 st1] e1] H1].
  { eexists _, _. split; [vm_compute; reflexivity|]. intros _. discriminate. }
  destruct (Hrest r1 st1 e1 H1) as (Hf1 & Hret2 & Hnames).
  assert (Hv : createNewWindow (js "Notes") (js "<p>1</p>")
                 {| draws := [js "1"; js "a"; js "a"; js "b"; js "c"];
                    now := 1700000000000 |}
                 (one_window (js "Timer") (js "<p>0</p>"))
               = Some (r1, st1, e1)) by exact H1.
  vm_compute in Hv. injection Hv as Hr1 Hst1 He1.
  destruct (proj2 Hret2) as [[[r2 st2] e2] H2].
  { subst e1 st1. eexists _, _. split; [vm_compute; reflexivity|].
    intros _. discriminate. }
  exists r1, st1, e1, r2, st2, e2.
  split; [exact H1|]. split; [exact H2|].
  split; [by subst r1|]. split; [exact Hf1 | exact (Hnames r2 st2 e2 H2)].
Defined.

(** C7 as stated fails: a session may hold a window named [Notes (2)] and
    none named [Notes]; the two calls then return [Notes] and
    [Notes (3)]. *)
Lemma createNewWindow_twice_Notes_counterexample :
  nameToNodeId (one_window (js "Notes (2)") (js "<p>0</p>")) !! js "Notes" = None
  ∧ ∃ r1 st1 e1 r2 st2 e2,
      createNewWindow (js "Notes") (js "<p>1</p>")
        {| draws := [js "a1b2c3"; js "zzzzzz"; js "q1q1q1"; js "r2r2r2"];
           now := 1700000000000 |}
        (one_window (js "Notes (2)") (js "<p>0</p>")) = Some (r1, st1, e1)
      ∧ createNewWindow (js "Notes") (js "<p>2</p>") e1 st1 = Some (r2, st2, e2)
      ∧ finalName r1 = js "Notes"
      ∧ finalName r2 = js "Notes (3)"
      ∧ finalName r2 ≠ js "Notes (2)".
Proof.
  split; [vm_compute; reflexivity|].
  eexists _, _, _, _, _, _.
  split; [vm_compute; reflexivity|].
  split; [vm_compute; reflexivity|].
  split; [reflexivity|]. split; [reflexivity|].
  vm_compute. discriminate.
Qed.

(** *** [domReplace] *)

Lemma str_eqb_refl (a : jsstring) : str_eqb a a = true.
Proof. unfold str_eqb. by apply bool_decide_eq_true. Qed.

Lemma str_eqb_ne (a b : jsstring) : a ≠ b → str_eqb a b = false.
Proof. unfold str_eqb. by apply bool_decide_eq_false. Qed.

Lemma map_acc_app {A B S : Type} (f : S → A → B * S) (l1 l2 : list A) :
  ∀ s, map_acc f s (l1 ++ l2)
       = let '(b1, s1) := map_acc f s l1 in
         let '(b2, s2) := map_acc f s1 l2 in
         (b1 ++ b2, s2).
Proof.
  induction l1 as [|a l1 IH]; intros s; cbn [map_acc app].
  - by destruct (map_acc f s l2).
  - destruct (f s a) as [b s1]. rewrite IH.
    destruct (map_acc f s1 l1) as [b1 s2].
    by destruct (map_acc f s2 l2).
Qed.

Lemma count_applied_app (a b : list detail) :
  count_applied (a ++ b) = (count_applied a + count_applied b)%nat.
Proof. unfold count_applied. by rewrite list.filter_app, length_app. Qed.

Section DomFacts.
Context `{dom : DomApi}.

(** The nodes of other windows go through the callback untouched. *)
Lemma map_acc_others (st : store) (nodeId : jsstring)
    (muts : list DomMutation) (l : list node) :
  ∀ a, Forall (λ x, id x ≠ nodeId) l →
       map_acc (edit_node st nodeId muts) a l = (l, a).
Proof.
  induction l as [|x l IH]; intros a Hl; cbn [map_acc]; [done|].
  inversion Hl as [|? ? Hx Hrest]; subst.
  unfold edit_node at 1. rewrite (str_eqb_ne _ _ Hx). cbn [negb].
  by rewrite IH.
Qed.

Lemma apply_one_prepend (ds : list detail) (s : mut_state) (m : DomMutation) :
  apply_one (prepend ds s) m = prepend ds (apply_one s m).
Proof.
  unfold apply_one, prepend. cbn.
  destruct (querySelectorAll (doc s) (selector m)) as [err|list]; cbn.
  - by rewrite <- app_assoc.
  - destruct (for_each (effect m) list (doc s) 0) as [d' [err|k]]; cbn;
      by rewrite <- app_assoc.
Qed.

Lemma applyMutations_prepend (ds : list detail) (muts : list DomMutation) :
  ∀ s, applyMutations (prepend ds s) muts = prepend ds (applyMutations s muts).
Proof.
  unfold applyMutations.
  induction muts as [|m muts IH]; intros s; cbn [fold_left]; [done|].
  by rewrite apply_one_prepend, IH.
Qed.

Lemma apply_one_details (s : mut_state) (m : DomMutation) :
  length (localDetails (apply_one s m)) = S (length (localDetails s)).
Proof.
  unfold apply_one.
  destruct (querySelectorAll (doc s) (selector m)) as [err|list]; cbn.
  - rewrite length_app. cbn. lia.
  - destruct (for_each (effect m) list (doc s) 0) as [d' [err|k]]; cbn;
      rewrite length_app; cbn; lia.
Qed.

(** One detail record for each operation. *)
Lemma applyMutations_details (muts : list DomMutation) :
  ∀ s, length (localDetails (applyMutations s muts))
       = (length (localDetails s) + length muts)%nat.
Proof.
  unfold applyMutations.
  induction muts as [|m muts IH]; intros s; cbn [fold_left length]; [lia|].
  rewrite IH, apply_one_details. lia.
Qed.

(** An operation that throws adds its failure record and leaves the two
    counters as they were. *)
Lemma apply_one_throws (s : mut_state) (m : DomMutation)
    (err : jsstring) (d' : Document) :
  throws m (doc s) err d' →
  apply_one s m
  = prepend (localDetails s ++ [failure m err])
      {| doc := d'; targets := targets s; applied_sum := applied_sum s;
         localDetails := [] |}.
Proof.
  intros Ht. unfold apply_one, prepend. cbn. rewrite app_nil_r.
  destruct Ht as [Hq | list d' Hq He].
  - by rewrite Hq.
  - by rewrite Hq, He.
Qed.

(** What [domReplace] computes for an existing window when the updater
    runs inside [setNodes]. *)
Lemma domReplace_existing (st : store) (windowId : jsstring) (n : node)
    (before after : list node) (muts : list DomMutation) :
  get_truthy (windowIdToNodeId st) windowId = Some (id n) →
  nodes st = before ++ n :: after →
  Forall (λ x, id x ≠ id n) (before ++ after) →
  let s := applyMutations (fresh_state (current_document st n)) muts in
  domReplace eager windowId muts st
  = ({| dr_status := js "edited"; dr_windowId := windowId;
        dr_html := serialize (doc s);
        totals := {| totalMutations := N.of_nat (length muts);
                     totalTargets := targets s;
                     totalApplied := applied_sum s;
                     failed := Z.of_nat (length muts)
                               - Z.of_nat (count_applied (localDetails s)) |};
        details := localDetails s |},
     {| nodes := before
                 ++ {| id := id n; html := serialize (doc s);
                       title := title n; zIndex := zIndex n;
                       selected := selected n |} :: after;
        nameToNodeId := nameToNodeId st;
        nodeIdToName := nodeIdToName st;
        windowIdToNodeId := windowIdToNodeId st;
        nodeIdToWindowId := nodeIdToWindowId st;
        provisionalNameToNodeId := provisionalNameToNodeId st;
        iframeUpdateQueue := delete (id n) (iframeUpdateQueue st);
        liveOuterHTML := liveOuterHTML st;
        createSequence := createSequence st;
        focusedWindowId := focusedWindowId st |}).
Proof.
  intros Hw Hn Ho s. apply Forall_app in Ho as [Hb Ha].
  unfold domReplace, domReplace_updater. rewrite Hw, Hn.
  rewrite map_acc_app, (map_acc_others _ _ _ _ _ Hb).
  cbn [map_acc]. unfold edit_node at 1.
  rewrite str_eqb_refl. cbn [negb].
  rewrite (map_acc_others _ _ _ _ _ Ha). reflexivity.
Qed.

(** What [domReplace] returns on a registered window when React queues
    the updater: the result holds the variables as declared, and the
    canvas is as it was. *)
Lemma domReplace_queued (st : store) (windowId nodeId : jsstring)
    (muts : list DomMutation) :
  get_truthy (windowIdToNodeId st) windowId = Some nodeId →
  domReplace queued windowId muts st
  = ({| dr_status := js "edited"; dr_windowId := windowId; dr_html := [];
        totals := {| totalMutations := N.of_nat (length muts);
                     totalTargets := 0; totalApplied := 0;
                     failed := Z.of_nat (length muts) |};
        details := [] |},
     {| nodes := nodes st;
        nameToNodeId := nameToNodeId st;
        nodeIdToName := nodeIdToName st;
        windowIdToNodeId := windowIdToNodeId st;
        nodeIdToWindowId := nodeIdToWindowId st;
        provisionalNameToNodeId := provisionalNameToNodeId st;
        iframeUpdateQueue := delete nodeId (iframeUpdateQueue st);
        liveOuterHTML := liveOuterHTML st;
        createSequence := createSequence st;
        focusedWindowId := focusedWindowId st |}).
Proof.
  intros Hw. unfold domReplace. rewrite Hw. cbn [declared edit_result].
  unfold edit_result, declared, count_applied. cbn.
  do 3 f_equal. lia.
Qed.

(** The updater reads the store for the live documents only. *)
Lemma map_acc_live (st st' : store) (nodeId : jsstring)
    (muts : list DomMutation) (l : list node) :
  liveOuterHTML st' = liveOuterHTML st →
  ∀ a, map_acc (edit_node st' nodeId muts) a l
       = map_acc (edit_node st nodeId muts) a l.
Proof.
  intros Hl. induction l as [|x l IH]; intros a; cbn [map_acc]; [done|].
  unfold edit_node at 1 3. unfold getLiveIframeHtml. rewrite Hl.
  destruct (negb (str_eqb (id x) nodeId)); by rewrite IH.
Qed.

(** The updater of a queued call ends on the store that an eager call
    leaves. *)
Lemma settled_eager (t : dispatch) (st : store) (windowId : jsstring)
    (muts : list DomMutation) :
  settled t windowId muts st = (domReplace eager windowId muts st).2.
Proof.
  unfold settled.
  destruct t; [by destruct (get_truthy (windowIdToNodeId st) windowId)|].
  destruct (get_truthy (windowIdToNodeId st) windowId) as [nodeId|] eqn:Hw.
  - rewrite (domReplace_queued _ _ _ _ Hw). unfold domReplace. rewrite Hw.
    unfold run_queued, domReplace_updater.
    cbn [snd nodes nameToNodeId nodeIdToName windowIdToNodeId nodeIdToWindowId
         provisionalNameToNodeId iframeUpdateQueue liveOuterHTML createSequence
         focusedWindowId].
    rewrite (map_acc_live st) by done.
    by destruct (map_acc _ declared (nodes st)).
  - unfold domReplace. by rewrite Hw.
Qed.

Lemma find_node (nodeId : jsstring) (n : node) (before after : list node) :
  id n = nodeId →
  Forall (λ x, id x ≠ nodeId) before →
  List.find (λ x, str_eqb (id x) nodeId) (before ++ n :: after) = Some n.
Proof.
  intros Hn Hb. induction before as [|x before IH]; cbn [app List.find].
  - by rewrite Hn, str_eqb_refl.
  - inversion Hb as [|? ? Hx Hrest]; subst.
    rewrite (str_eqb_ne _ _ Hx). by apply IH.
Qed.

(** Once the updater has run, in the call or at the render after it, the
    node of the window stores the markup of the document that the
    operations have left. *)
Lemma settled_stored (t : dispatch) (st : store) (windowId : jsstring)
    (n : node) (muts : list DomMutation) :
  existing_window st windowId n →
  stored_html (settled t windowId muts st) (id n)
  = Some (serialize
            (doc (applyMutations (fresh_state (current_document st n)) muts))).
Proof.
  intros [Hw (before & after & Hn & Ho)]. rewrite settled_eager.
  rewrite (domReplace_existing st windowId n before after muts Hw Hn Ho).
  unfold stored_html. cbn [nodes snd].
  apply Forall_app in Ho as [Hb _].
  by rewrite (find_node (id n)
                {| id := id n; html := serialize _; title := title n;
                   zIndex := zIndex n; selected := selected n |}
                before after eq_refl Hb).
Qed.

(** C5 on the code.  In a call of [domReplace] on an existing window,
    let the operation [m] throw [err] on the document that the
    operations before it have produced.  The updater goes on after the
    throw: once it has run, the node stores the markup of the document
    after the last operation.  When React runs the updater inside
    [setNodes], the result is as the claim has it: [m] gets the record
    [{matched: 0, applied: 0, error: err}], the records of the later
    operations follow, and [m] counts among the failed ones.  When React
    queues the updater, the handler reads its variables before the
    updater has assigned them: the result has no record at all, the
    empty markup, no target, no application, and every operation counted
    as failed. *)
Theorem domReplace_queued_loses_records
    (st : store) (windowId : jsstring) (n : node)
    (pre post : list DomMutation) (m : DomMutation)
    (err : jsstring) (d2 : Document) :
  existing_window st windowId n →
  let s1 := applyMutations (fresh_state (current_document st n)) pre in
  throws m (doc s1) err d2 →
  let s3 := applyMutations
              {| doc := d2; targets := targets s1;
                 applied_sum := applied_sum s1; localDetails := [] |} post in
  let muts := pre ++ m :: post in
  let r := (domReplace eager windowId muts st).1 in
  let q := (domReplace queued windowId muts st).1 in
  (details r = localDetails s1
               ++ {| d_action := action m; d_selector := selector m;
                     matched := 0; applied := 0; error := Some err |}
               :: localDetails s3
   ∧ dr_html r = serialize (doc s3)
   ∧ totalTargets (totals r) = targets s3
   ∧ totalApplied (totals r) = applied_sum s3
   ∧ failed (totals r)
     = (failed_among (localDetails s1) + 1 + failed_among (localDetails s3))%Z)
  ∧ (details q = []
     ∧ dr_html q = []
     ∧ totals q = {| totalMutations := N.of_nat (length muts);
                     totalTargets := 0; totalApplied := 0;
                     failed := Z.of_nat (length muts) |})
  ∧ ∀ t, stored_html (settled t windowId muts st) (id n)
         = Some (serialize (doc s3)).
Proof.
  intros Hex s1 Ht s3 muts r q.
  assert (Hs : applyMutations (fresh_state (current_document st n)) muts
               = prepend (localDetails s1 ++ [failure m err]) s3).
  { subst muts. unfold applyMutations at 1. rewrite fold_left_app.
    cbn [fold_left].
    fold (applyMutations (fresh_state (current_document st n)) pre).
    fold s1. rewrite (apply_one_throws s1 m err d2 Ht).
    apply applyMutations_prepend. }
  split; [|split].
  - destruct Hex as [Hw (before & after & Hn & Ho)].
    pose proof (domReplace_existing st windowId n before after muts Hw Hn Ho)
      as Hr.
    cbv zeta in Hr. rewrite Hs in Hr. subst r. rewrite Hr.
    cbn -[count_applied serialize failed_among].
    rewrite <- app_assoc. cbn [app].
    repeat split; try done.
    unfold failed_among.
    pose proof (applyMutations_details pre
                  (fresh_state (current_document st n))) as L1.
    pose proof (applyMutations_details post
                  {| doc := d2; targets := targets s1;
                     applied_sum := applied_sum s1; localDetails := [] |}) as L3.
    fold s1 in L1. fold s3 in L3. cbn in L1, L3.
    rewrite count_applied_app.
    change (failure m err :: localDetails s3)
      with ([failure m err] ++ localDetails s3).
    rewrite count_applied_app.
    replace (count_applied [failure m err]) with 0%nat by reflexivity.
    subst muts. rewrite L1, L3, length_app. cbn [length]. lia.
  - destruct Hex as [Hw _]. subst q.
    by rewrite (domReplace_queued _ _ _ _ Hw).
  - intros t. rewrite (settled_stored t st windowId n muts Hex), Hs.
    reflexivity.
Qed.

(** C6.  A window identifier that is registered to no window makes both
    handlers return their usual result and leave the store as it is:
    [domReplace] reports no target, no application and every operation
    as failed, [updateWindowTitle] reports [updated].  The handlers
    return before any updater is made, so this holds for either
    dispatch. *)
Theorem unknown_window_soft_fails (t : dispatch)
    (st : store) (windowId title : jsstring) (mutations : list DomMutation) :
  windowIdToNodeId st !! windowId = None →
  domReplace t windowId mutations st
  = ({| dr_status := js "edited"; dr_windowId := windowId; dr_html := [];
        totals := {| totalMutations := N.of_nat (length mutations);
                     totalTargets := 0; totalApplied := 0;
                     failed := Z.of_nat (length mutations) |};
        details := (λ m, {| d_action := action m; d_selector := selector m;
                            matched := 0; applied := 0; error := None |})
                   <$> mutations |},
     st)
  ∧ updateWindowTitle windowId title st
    = ({| ut_status := js "updated"; ut_windowId := windowId;
          ut_title := title |}, st).
Proof.
  intros H. unfold domReplace, updateWindowTitle.
  by rewrite (get_truthy_None _ _ H).
Qed.

(** C9, as the code has it.  On an existing window an empty mutation
    list gives the totals 0, 0, 0, 0 and no detail record, under either
    dispatch, and no operation touches the document; but the updater
    still parses the current markup (the live markup of the iframe, else
    the stored one, else the empty skeleton) and, once it has run, the
    node stores the serialization of the parsed document behind a fresh
    doctype line. *)
Theorem domReplace_empty_list (t : dispatch) (st : store)
    (windowId : jsstring) (n : node) :
  existing_window st windowId n →
  let r := (domReplace t windowId [] st).1 in
  totals r = {| totalMutations := 0; totalTargets := 0; totalApplied := 0;
                failed := 0 |}
  ∧ details r = []
  ∧ stored_html (settled t windowId [] st) (id n)
    = Some (doctype
            ++ default [] (documentElement_outerHTML (current_document st n))).
Proof.
  intros Hex r. split; [|split].
  - subst r. destruct Hex as [Hw (before & after & Hn & Ho)]. destruct t.
    + by rewrite (domReplace_existing st windowId n before after [] Hw Hn Ho).
    + by rewrite (domReplace_queued _ _ _ _ Hw).
  - subst r. destruct Hex as [Hw (before & after & Hn & Ho)]. destruct t.
    + by rewrite (domReplace_existing st windowId n before after [] Hw Hn Ho).
    + by rewrite (domReplace_queued _ _ _ _ Hw).
  - by rewrite (settled_stored t st windowId n [] Hex).
Qed.

(** Whatever the DOM, a stored markup that does not begin with the
    doctype line [domReplace] writes is not stored back as it was. *)
Lemma domReplace_rewrites_markup (t : dispatch) (st : store)
    (windowId : jsstring) (n : node) (muts : list DomMutation) :
  existing_window st windowId n →
  strip_prefix doctype (html n) = None →
  stored_html (settled t windowId muts st) (id n) ≠ Some (html n).
Proof.
  intros Hex Hp. rewrite (settled_stored t st windowId n muts Hex).
  intros [= Heq]. unfold serialize in Heq.
  assert (Hs : strip_prefix doctype (html n)
               = Some (default [] (documentElement_outerHTML
                    (doc (applyMutations
                            (fresh_state (current_document st n)) muts))))).
  { apply ExtractFacts.strip_prefix_Some. by rewrite <- Heq. }
  congruence.
Qed.

End DomFacts.

Lemma one_window_exists (tl h : jsstring) :
  existing_window (one_window tl h) (js "w1")
    {| id := js "n1"; html := h; title := tl; zIndex := 1000; selected := true |}.
Proof.
  split; [vm_compute; reflexivity|].
  exists [], []. split; [reflexivity | constructor].
Qed.

Lemma domReplace_queued_loses_records_witness :
  let st := one_window (js "T") (js "<p>hi</p>") in
  let muts := [set_text (js "*") (js "A")]
              ++ set_attr (js "*") [] (js "v")
              :: [set_text (js "*") (js "B")] in
  let r := (@domReplace MiniDom eager (js "w1") muts st).1 in
  let q := (@domReplace MiniDom queued (js "w1") muts st).1 in
  (error <$> details r = [None; Some (js "InvalidCharacterError"); None]
   ∧ dr_html r = js "<!DOCTYPE html>B"
   ∧ failed (totals r) = 1%Z)
  ∧ (details q = [] ∧ dr_html q = [] ∧ failed (totals q) = 3%Z)
  ∧ stored_html (@settled MiniDom queued (js "w1") muts st) (js "n1")
    = Some (js "<!DOCTYPE html>B").
Proof.
  intros st muts r q.
  pose proof (@domReplace_queued_loses_records MiniDom st (js "w1") _
                [set_text (js "*") (js "A")] [set_text (js "*") (js "B")]
                (set_attr (js "*") [] (js "v"))
                (js "InvalidCharacterError") [js "A"]
                (one_window_exists (js "T") (js "<p>hi</p>"))) as H.
  cbv zeta in H.
  destruct H as ((Hd & Hh & _ & _ & Hf) & (Hqd & Hqh & Hqt) & Hs).
  { apply (@throws_effect MiniDom _ _ _ [0%nat] [js "A"]);
      vm_compute; reflexivity. }
  subst r q muts. rewrite Hd, Hh, Hf, Hqd, Hqh, Hqt.
  split; [repeat split; vm_compute; reflexivity|].
  split; [repeat split; vm_compute; reflexivity|].
  etrans; [exact (Hs queued)|]. vm_compute. reflexivity.
Defined.

Lemma unknown_window_soft_fails_witness :
  @domReplace MiniDom queued (js "w404")
    [set_text (js "#t") (js "1"); remove (js ".x")]
    (one_window (js "T") (js "<p>hi</p>"))
  = ({| dr_status := js "edited"; dr_windowId := js "w404"; dr_html := [];
        totals := {| totalMutations := 2; totalTargets := 0; totalApplied := 0;
                     failed := 2 |};
        details := [{| d_action := js "set_text"; d_selector := js "#t";
                       matched := 0; applied := 0; error := None |};
                    {| d_action := js "remove"; d_selector := js ".x";
                       matched := 0; applied := 0; error := None |}] |},
     one_window (js "T") (js "<p>hi</p>"))
  ∧ updateWindowTitle (js "w404") (js "New") (one_window (js "T") (js "<p>hi</p>"))
    = ({| ut_status := js "updated"; ut_windowId := js "w404";
          ut_title := js "New" |}, one_window (js "T") (js "<p>hi</p>")).
Proof.
  refine (@unknown_window_soft_fails MiniDom queued
            (one_window (js "T") (js "<p>hi</p>")) (js "w404") (js "New")
            [set_text (js "#t") (js "1"); remove (js ".x")] _).
  vm_compute. reflexivity.
Defined.

Lemma domReplace_empty_list_witness :
  let st := one_window (js "T") [] in
  let r := (@domReplace MiniDom queued (js "w1") [] st).1 in
  totals r = {| totalMutations := 0; totalTargets := 0; totalApplied := 0;
                failed := 0 |}
  ∧ details r = []
  ∧ stored_html (@settled MiniDom queued (js "w1") [] st) (js "n1")
    = Some skeleton.
Proof.
  intros st r.
  destruct (@domReplace_empty_list MiniDom queued st (js "w1") _
              (one_window_exists (js "T") [])) as (Ht & Hd & Hs).
  fold r in Ht, Hd.
  split; [done|]. split; [done|].
  etrans; [exact Hs|]. vm_compute. reflexivity.
Defined.

(** C9 as stated fails.  A window that stores the markup [<p>hi</p>] gets
    the serialization of the parsed document stored in its place by a call
    with an empty list: once the updater has run, the stored text is no
    longer what it was. *)
Lemma domReplace_empty_list_counterexample :
  ¬ (∀ (dom : DomApi) (t : dispatch) (st : store) (windowId : jsstring)
       (n : node),
       existing_window st windowId n →
       totals (domReplace t windowId [] st).1
       = {| totalMutations := 0; totalTargets := 0; totalApplied := 0;
            failed := 0 |}
       ∧ stored_html (settled t windowId [] st) (id n) = Some (html n)).
Proof.
  intros H.
  destruct (H MiniDom eager (one_window (js "T") (js "<p>hi</p>")) (js "w1") _
              (one_window_exists (js "T") (js "<p>hi</p>"))) as [_ Hs].
  revert Hs.
  apply (@domReplace_rewrites_markup MiniDom eager _ _ _ []
           (one_window_exists (js "T") (js "<p>hi</p>"))).
  vm_compute. reflexivity.
Qed.

End ToolsFacts.

(* ===================================================================== *)
(** ** The orchestration loop                                             *)
(* ===================================================================== *)

Module AgentFacts.
Import Agent Props.

Section RunFacts.
Context {W R Mut Args : Type}.
Variable tools : AgentToolHandlers W R Mut.
Variable create : nat → list message → response.
Variable parse_args : jsstring → Args.
Variable stringify_args : Args → jsstring.
Variable stringify_result : option R → jsstring.
Variable arg_name arg_html arg_windowId arg_title : Args → jsstring.
Variable arg_mutations : Args → list Mut.

Local Abbreviation gen := (@Agent.gen W R).
Local Abbreviation step_body :=
  (Agent.step_body tools create parse_args stringify_args stringify_result
     arg_name arg_html arg_windowId arg_title arg_mutations).
Local Abbreviation loop :=
  (Agent.loop tools create parse_args stringify_args stringify_result
     arg_name arg_html arg_windowId arg_title arg_mutations).
Local Abbreviation execute :=
  (Agent.execute tools parse_args stringify_args stringify_result
     arg_name arg_html arg_windowId arg_title arg_mutations).
Local Abbreviation runAgentStream :=
  (Agent.runAgentStream tools create parse_args stringify_args
     stringify_result arg_name arg_html arg_windowId arg_title arg_mutations).
Local Abbreviation reaches :=
  (Props.reaches tools create parse_args stringify_args stringify_result
     arg_name arg_html arg_windowId arg_title arg_mutations).

Lemma emitted_text_app (a b : list (event R)) :
  emitted_text (a ++ b) = emitted_text a ++ emitted_text b.
Proof.
  induction a as [|e a IH]; [done|].
  change (emitted_text ((e :: a) ++ b))
    with (match e with text_delta t => t | _ => [] end ++ emitted_text (a ++ b)).
  change (emitted_text (e :: a))
    with (match e with text_delta t => t | _ => [] end ++ emitted_text a).
  by rewrite IH, app_assoc.
Qed.

(** *** What the inner loops leave alone *)

Lemma steady_refl (g : gen) : steady g g.
Proof. by repeat split. Qed.

Lemma steady_trans (g1 g2 g3 : gen) :
  steady g1 g2 → steady g2 g3 → steady g1 g3.
Proof.
  intros (A1 & A2 & A3) (B1 & B2 & B3). repeat split.
  - by rewrite B1. - by rewrite B2. - intros H. apply B3, A3, H.
Qed.

Lemma steady_emit (e : event R) (g : gen) :
  (∀ t, e ≠ text_delta t) → steady g (emit e g).
Proof.
  intros He. repeat split. cbn -[emitted_text]. intros H.
  rewrite emitted_text_app, <- H.
  destruct e as [t| | | | | |]; cbn; rewrite ?app_nil_r; try done.
  by destruct (He t).
Qed.

Ltac steady_chain :=
  repeat first
    [ apply steady_refl
    | eapply steady_trans; [|by apply steady_emit] ].

Lemma steady_on_tool_call (step : N) (sv : step_vars) (g : gen)
    (tc : tool_call_delta) :
  steady g (on_tool_call step (sv, g) tc).2.
Proof.
  unfold on_tool_call. cbn [snd].
  repeat match goal with
         | |- context [if ?b then _ else _] => destruct b
         end; steady_chain.
Qed.

Lemma steady_tool_calls (step : N) (tcs : list tool_call_delta) :
  ∀ sg : step_vars * gen, steady sg.2 (fold_left (on_tool_call step) tcs sg).2.
Proof.
  induction tcs as [|tc tcs IH]; intros sg; cbn [fold_left].
  - apply steady_refl.
  - eapply steady_trans; [|apply IH].
    destruct sg as [sv g]. apply steady_on_tool_call.
Qed.

Lemma steady_text_delta (t : jsstring) (g : gen) :
  steady g
    (emit (text_delta t)
       {| events := events g; promises := promises g; world := world g;
          messagesParam := messagesParam g;
          finalTextForAllSteps := finalTextForAllSteps g ++ t;
          aggregatedToolResults := aggregatedToolResults g;
          lastStepPromptTokens := lastStepPromptTokens g;
          lastStepCompletionTokens := lastStepCompletionTokens g;
          requests := requests g |}).
Proof.
  repeat split. cbn -[emitted_text]. intros H.
  rewrite emitted_text_app, H. cbn. by rewrite app_nil_r.
Qed.

Lemma steady_on_chunk (step : N) (sv : step_vars) (g : gen) (c : chunk) :
  steady g (on_chunk step (sv, g) c).2.
Proof.
  unfold on_chunk.
  destruct (truthy_opt (content c)).
  - destruct (tool_calls c) as [tcs|].
    + match goal with
      | |- context [fold_left ?f tcs ?sg] =>
          pose proof (steady_tool_calls step tcs sg) as H2;
          destruct (fold_left f tcs sg) as [sv2 g2]
      end.
      cbn [snd] in H2.
      destruct (usage c); cbn [snd];
        (eapply steady_trans; [apply steady_text_delta | exact H2]).
    + destruct (usage c); cbn [snd]; apply steady_text_delta.
  - destruct (tool_calls c) as [tcs|].
    + pose proof (steady_tool_calls step tcs (sv, g)) as H2.
      destruct (fold_left (on_tool_call step) tcs (sv, g)) as [sv2 g2].
      cbn [snd] in H2. by destruct (usage c).
    + destruct (usage c); apply steady_refl.
Qed.

Lemma steady_chunks (step : N) (cs : list chunk) :
  ∀ sg : step_vars * gen, steady sg.2 (fold_left (on_chunk step) cs sg).2.
Proof.
  induction cs as [|c cs IH]; intros sg; cbn [fold_left].
  - apply steady_refl.
  - eapply steady_trans; [|apply IH].
    destruct sg as [sv g]. apply steady_on_chunk.
Qed.

Lemma steady_record_usage (u : option usage_obj) (g : gen) :
  steady g (record_usage u g).
Proof. destruct u; [by repeat split | apply steady_refl]. Qed.

Lemma steady_execute (calls : list tool_st) :
  ∀ h g, steady g (execute calls h g).1.2.
Proof.
  induction calls as [|call calls IH]; intros h g; cbn [Agent.execute].
  - apply steady_refl.
  - destruct (dispatch _ _ _ _ _ _ _ _) as [[e|result] w'].
    + by repeat split.
    + eapply steady_trans; [|apply IH].
      repeat split. cbn -[emitted_text]. intros H.
      rewrite emitted_text_app, H. cbn. by rewrite app_nil_r.
Qed.

(** *** One turn of the loop *)

Lemma step_body_spec (step : N) (g : gen) :
  let g' := (step_body step g).1 in
  requests g' = S (requests g)
  ∧ ((step_body step g).2 = next →
       promises g' = promises g
       ∧ (finalTextForAllSteps g = emitted_text (events g) →
          finalTextForAllSteps g' = emitted_text (events g')))
  ∧ ((step_body step g).2 = break →
       ∃ evs, events g' = evs ++ [finish stop]).
Proof.
  unfold Agent.step_body. cbv zeta.
  set (gb := {| events := events g; promises := promises g; world := world g;
                messagesParam := messagesParam g;
                finalTextForAllSteps := finalTextForAllSteps g;
                aggregatedToolResults := aggregatedToolResults g;
                lastStepPromptTokens := lastStepPromptTokens g;
                lastStepCompletionTokens := lastStepCompletionTokens g;
                requests := S (requests g) |}).
  destruct (create (requests g) (messagesParam gb)) as [err|chunks e].
  { cbn [fst snd]. by repeat split. }
  pose proof (steady_chunks step chunks
                ({| toolState := []; stepText := [];
                    stepUsageFromChunks := None |}, gb)) as Hc.
  destruct (fold_left _ chunks _) as [sv g1]. cbn [snd] in Hc.
  destruct Hc as (Hr1 & Hp1 & Ht1).
  destruct e as [final|err].
  2: { cbn [fst snd]. by repeat split. }
  match goal with
  | |- context [record_usage ?u g1] =>
      pose proof (steady_record_usage u g1) as Hu;
      set (g2 := record_usage u g1) in *
  end.
  destruct Hu as (Hr2 & Hp2 & Ht2).
  destruct (toolCallsToExecute sv) as [|call calls].
  { cbn [fst snd]. repeat split; try done.
    - cbn. by rewrite Hr2, Hr1.
    - intros _. by eexists. }
  pose proof (steady_execute (call :: calls)
                {| assistantToolCallsForHistory := [];
                   toolResultMessagesForHistory := [] |} g2) as He.
  destruct (Agent.execute _ _ _ _ _ _ _ _ _ (call :: calls) _ g2)
    as [[h g3] [err|]]; cbn [fst snd] in *.
  { repeat split; try done. destruct He as (Hr3 & _). by rewrite Hr3, Hr2, Hr1. }
  destruct He as (Hr3 & Hp3 & Ht3).
  repeat split; try done.
  - cbn. by rewrite Hr3, Hr2, Hr1.
  - cbn. by rewrite Hp3, Hp2, Hp1.
  - intros Hg. cbn -[emitted_text].
    rewrite emitted_text_app. cbn. rewrite app_nil_r.
    apply Ht3, Ht2, Ht1, Hg.
Qed.

(** A turn goes on to the next one only when the transport gave a stream
    that was read to its end and that named at least one tool call. *)
Lemma step_body_next (step : N) (g g' : gen) :
  step_body step g = (g', next) →
  ∃ chunks final (g_b : gen),
    create (requests g) (messagesParam g) = Stream chunks (Completed final)
    ∧ toolCallsToExecute
        (fold_left (on_chunk step) chunks
           ({| toolState := []; stepText := []; stepUsageFromChunks := None |},
            g_b)).1 ≠ [].
Proof.
  unfold Agent.step_body. cbv zeta. cbn [messagesParam requests].
  destruct (create (requests g) (messagesParam g)) as [err|chunks e]; [done|].
  match goal with
  | |- context [fold_left ?f chunks (?sv0, ?gb)] =>
      destruct (fold_left f chunks (sv0, gb)) as [sv g1] eqn:Hf;
      intros H; exists chunks; destruct e as [final|err]; [|done];
      exists final, gb; split; [done|]; rewrite Hf; cbn [fst]
  end.
  destruct (toolCallsToExecute sv); [done | done].
Qed.

(** *** The loop *)

Lemma loop_requests (n : nat) :
  ∀ step g, (requests (loop n step g).1 ≤ requests g + n)%nat.
Proof.
  induction n as [|n IH]; intros step g; cbn [Agent.loop]; [cbn; lia|].
  destruct (step_body_spec step g) as (Hr & _).
  destruct (step_body step g) as [g' [ | |err]]; cbn [fst] in *.
  - specialize (IH (step + 1) g'). lia.
  - lia.
  - lia.
Qed.

Lemma reaches_spec (k : nat) :
  ∀ step g g_k,
    reaches k step g g_k →
    requests g_k = (requests g + k)%nat
    ∧ promises g_k = promises g
    ∧ (finalTextForAllSteps g = emitted_text (events g) →
       finalTextForAllSteps g_k = emitted_text (events g_k)).
Proof.
  induction k as [|k IH]; intros step g g_k; cbn [Props.reaches].
  - intros ->. repeat split; [lia | done].
  - intros (g' & Hs & Hk).
    destruct (step_body_spec step g) as (Hr & Hn & _).
    rewrite Hs in Hr, Hn. cbn [fst snd] in Hr, Hn.
    destruct (Hn eq_refl) as [Hp Ht].
    destruct (IH _ _ _ Hk) as (Hr' & Hp' & Ht').
    repeat split; [lia | congruence | auto].
Qed.

Lemma loop_reaches (k n : nat) :
  ∀ step g g_k,
    reaches k step g g_k →
    loop (k + n) step g = loop n (step + N.of_nat k) g_k.
Proof.
  induction k as [|k IH]; intros step g g_k; cbn [Props.reaches].
  - intros ->. cbn [Nat.add]. f_equal. lia.
  - intros (g' & Hs & Hk). cbn [Nat.add Agent.loop]. rewrite Hs.
    rewrite (IH _ _ _ Hk). f_equal. lia.
Qed.

(** C3.  A run makes at most 12 requests.  When all twelve turns call
    tools, it makes exactly 12, its event sequence ends with the finish
    event of reason [length], and the text promise resolves to the
    concatenation of the text deltas emitted over all the steps. *)
Theorem step_budget_exhausted (openaiMessagesBase : list message) (w : W) :
  let g := runAgentStream openaiMessagesBase w in
  (requests g ≤ 12)%nat
  ∧ (all_steps_call_tools tools create parse_args stringify_args
       stringify_result arg_name arg_html arg_windowId arg_title
       arg_mutations (initial openaiMessagesBase w) →
     requests g = 12%nat
     ∧ list.last (events g) = Some (finish length_reason)
     ∧ text (promises g) = Some (emitted_text (events g))).
Proof.
  unfold Agent.runAgentStream. cbv zeta. split.
  - pose proof (loop_requests 12 0 (initial openaiMessagesBase w)) as H.
    destruct (loop 12 0 (initial openaiMessagesBase w)) as [g' [err|]];
      cbn in *; lia.
  - intros [g_end Hr].
    pose proof (loop_reaches 12 0 0 _ _ Hr) as Hl.
    change (12 + 0)%nat with 12%nat in Hl. rewrite Hl. cbn [Agent.loop].
    destruct (reaches_spec _ _ _ _ Hr) as (Hq & Hp & Ht).
    specialize (Ht eq_refl). cbn in Hq.
    unfold after_loop. cbn -[emitted_text].
    split; [done|]. split; [by rewrite last_snoc|].
    rewrite Hp. cbn -[emitted_text].
    rewrite emitted_text_app. cbn. by rewrite app_nil_r, Ht.
Qed.

(** C4 on the code.  When a turn of the loop calls no tool, the
    generator emits the finish event of reason [stop], leaves the loop
    by [break], and then runs the statements that follow the loop, which
    emit a finish event of reason [length]: the event sequence ends with
    two finish events, the last of reason [length]. *)
Theorem stop_is_followed_by_length_finish
    (openaiMessagesBase : list message) (w : W) (k : nat) (g_stop : gen) :
  (k < 12)%nat →
  stops_at tools create parse_args stringify_args stringify_result
    arg_name arg_html arg_windowId arg_title arg_mutations
    k (initial openaiMessagesBase w) g_stop →
  ∃ evs, events (runAgentStream openaiMessagesBase w)
         = evs ++ [finish stop; finish length_reason].
Proof.
  intros Hk (g_k & Hr & Hs).
  unfold Agent.runAgentStream.
  replace 12%nat with (k + S (11 - k))%nat by lia.
  rewrite (loop_reaches k (S (11 - k)) _ _ _ Hr).
  cbn [Agent.loop]. replace (0 + N.of_nat k) with (N.of_nat k) by lia.
  destruct (step_body_spec (N.of_nat k) g_k) as (_ & _ & Hb).
  rewrite Hs in Hb |- *. cbn [fst snd] in Hb.
  destruct (Hb eq_refl) as [evs Hevs].
  exists evs. unfold after_loop. cbn. rewrite Hevs.
  by rewrite <- app_assoc.
Qed.

End RunFacts.

Lemma step_budget_exhausted_witness :
  requests (run_script (λ _ _, calling (js "a"))) = 12%nat
  ∧ list.last (events (run_script (λ _ _, calling (js "a"))))
    = Some (finish length_reason)
  ∧ text (promises (run_script (λ _ _, calling (js "a"))))
    = Some (js "aaaaaaaaaaaa").
Proof.
  destruct (step_budget_exhausted inert_tools (λ _ _, calling (js "a"))
              (λ _, tt) (λ _, js "{}") (λ _, js "null")
              (λ _, []) (λ _, []) (λ _, []) (λ _, []) (λ _, [])
              [plain (js "user") (js "hi")] tt) as [_ H].
  destruct H as (H1 & H2 & H3).
  { eexists. cbn [Props.reaches].
    repeat (eexists; split; [vm_compute; reflexivity|]). reflexivity. }
  split; [exact H1|]. split; [exact H2|].
  unfold run_script. rewrite H3. vm_compute. reflexivity.
Defined.

Lemma stop_is_followed_by_length_finish_witness :
  ∃ evs,
    events (run_script (λ k _, if decide (k = 0)%nat then calling (js "a")
                               else answering (js "Done.")))
    = evs ++ [finish stop; finish length_reason].
Proof.
  eapply (stop_is_followed_by_length_finish inert_tools
           (λ k _, if decide (k = 0)%nat then calling (js "a")
                   else answering (js "Done."))
           (λ _, tt) (λ _, js "{}") (λ _, js "null")
           (λ _, []) (λ _, []) (λ _, []) (λ _, []) (λ _, [])
           [plain (js "user") (js "hi")] tt 1).
  - lia.
  - eexists. split.
    + cbn [Props.reaches]. eexists. split; [vm_compute; reflexivity|].
      reflexivity.
    + vm_compute. reflexivity.
Defined.

(** The run of C4 in full: one step that answers [Hello] and calls no
    tool.  The caller receives two finish events. *)
Example single_answer_events :
  events (run_script (λ _ _, answering (js "Hello")))
  = [text_delta (js "Hello"); finish stop; finish length_reason]
  ∧ text (promises (run_script (λ _ _, answering (js "Hello"))))
    = Some (js "Hello").
Proof. split; vm_compute; reflexivity. Qed.

End AgentFacts.

(* ===================================================================== *)
(** ** The extractor on a closed value, and the decoding of escapes       *)
(* ===================================================================== *)

Module ExtractMore.
Import Extract Tools Props.

(** *** Text without a backslash *)

Lemma replace_pair_absent (a b : N) (r s : jsstring) :
  a ∉ s → replace_pair a b r s = s.
Proof.
  induction s as [|x t IH]; [done|]. intros Hx.
  apply not_elem_of_cons in Hx as [Hne Ht].
  cbn [replace_pair]. destruct t as [|y t']; [done|].
  destruct (N.eqb_spec x a) as [->|_]; [done|]. cbn [andb].
  by rewrite IH.
Qed.

Lemma json_string_body_plain (s : jsstring) :
  ∀ acc,
    c_backslash ∉ s →
    json_string_body (replace_char c_quote [c_backslash; c_quote] s ++ [c_quote]) acc
    = if forallb (λ c, negb (c <? 32)) s then Some (acc ++ s) else None.
Proof.
  induction s as [|c t IH]; intros acc Hs.
  - cbn. by rewrite app_nil_r.
  - apply not_elem_of_cons in Hs as [Hc Ht].
    unfold replace_char in *. cbn [fmap list_fmap mjoin list_join].
    destruct (N.eqb_spec c c_quote) as [->|Hq].
    + cbn [app json_string_body].
      replace (c_backslash =? c_quote) with false by reflexivity.
      replace (c_backslash =? c_backslash) with true by reflexivity.
      replace (c_quote =? 117) with false by reflexivity.
      replace (simple_escape c_quote) with (Some c_quote) by reflexivity.
      rewrite (IH _ Ht). cbn [forallb].
      replace (negb (c_quote <? 32)) with true by reflexivity. cbn [andb].
      by rewrite <- app_assoc.
    + cbn [app json_string_body].
      rewrite (proj2 (N.eqb_neq _ _) Hq).
      assert (Hb : (c =? c_backslash) = false) by (apply N.eqb_neq; congruence).
      rewrite Hb. cbn [forallb].
      destruct (c <? 32); [done|]. cbn [negb andb].
      rewrite (IH _ Ht). by rewrite <- app_assoc.
Qed.

(** A text without a backslash has nothing to decode: it comes back as it
    is, whether [JSON.parse] accepts the re-quoted text or the
    replacement chain takes over. *)
Lemma unescape_plain (s : jsstring) :
  c_backslash ∉ s → unescapeJsonString s = s.
Proof.
  intros Hs. unfold unescapeJsonString, JSON_parse_quoted.
  cbn [app]. rewrite N.eqb_refl.
  rewrite (json_string_body_plain s [] Hs).
  destruct (forallb _ s); [done|].
  by rewrite (replace_pair_absent _ 110 [10] s Hs),
             (replace_pair_absent _ 116 [9] s Hs),
             (replace_pair_absent _ 114 [13] s Hs),
             (replace_pair_absent _ c_quote [c_quote] s Hs),
             (replace_pair_absent _ c_backslash [c_backslash] s Hs).
Qed.

(** *** The scan up to the closing quote *)

Lemma scan_value_closed (body rest : jsstring) :
  ∀ (escaped : bool) (out : jsstring),
    has_closing_quote body escaped = false →
    ends_escaped body escaped = false →
    scan_value (body ++ c_quote :: rest) escaped out
    = out ++ (if escaped then [c_backslash] else []) ++ body.
Proof.
  induction body as [|ch t IH]; intros escaped out Hq He; cbn in *.
  - subst escaped. cbn. by rewrite app_nil_r.
  - destruct escaped.
    + rewrite IH by done. by rewrite <- app_assoc.
    + destruct (ch =? c_backslash) eqn:Hb.
      * apply N.eqb_eq in Hb. subst ch. by rewrite IH.
      * destruct (ch =? c_quote) eqn:Hc; [done|].
        rewrite IH by done. by rewrite <- app_assoc.
Qed.

(** X2.  The value of the latest match, once its closing quote has
    arrived, is returned decoded and in full, and nothing that follows
    the closing quote has a part in it. *)
Theorem extract_closed_value (B F body rest : jsstring) :
  last_field_match F B = Some (body ++ c_quote :: rest) →
  has_closing_quote body false = false →
  ends_escaped body false = false →
  extractLatestJsonStringField B F = Some (unescapeJsonString body).
Proof.
  intros Hm Hq He. unfold extractLatestJsonStringField. rewrite Hm.
  by rewrite (scan_value_closed body rest false [] Hq He).
Qed.

Lemma extract_closed_value_witness :
  last_field_match (js "name") (jq "{'name':'Timer','html':'<p>")
  = Some (jq "Timer','html':'<p>")
  ∧ extractLatestJsonStringField (jq "{'name':'Timer','html':'<p>") (js "name")
    = Some (unescapeJsonString (js "Timer")).
Proof.
  split; [vm_compute; reflexivity|].
  apply (extract_closed_value (jq "{'name':'Timer','html':'<p>") (js "name")
           (js "Timer") (jq ",'html':'<p>"));
    vm_compute; reflexivity.
Defined.

(** X3.  [unescapeJsonString] returns a text without a backslash as it
    is, quotes, line breaks and control characters included; so the
    shortcut that [decodePossibleEscapes] takes on such a text changes
    nothing, and the two functions return the same on every text. *)
Theorem decodePossibleEscapes_unescape (value : jsstring) :
  decodePossibleEscapes value = unescapeJsonString value
  ∧ (c_backslash ∉ value → unescapeJsonString value = value).
Proof.
  split; [|apply unescape_plain].
  unfold decodePossibleEscapes.
  destruct (existsb (N.eqb c_backslash) value) eqn:He; [done|].
  cbn [negb]. symmetry. apply unescape_plain.
  intros Hin. apply not_true_iff_false in He. apply He.
  apply existsb_exists. exists c_backslash. split; [|apply N.eqb_refl].
  by apply list_elem_of_In.
Qed.

End ExtractMore.

(* ===================================================================== *)
(** ** The healer: what it keeps, and when a second pass changes nothing  *)
(* ===================================================================== *)

Module HealMore.
Import Heal Props Notions.

(** *** The healer keeps a prefix of its input *)

Lemma re_remove_take (P : jsstring → bool) (s : jsstring) :
  ∃ k, re_remove P s = take k s.
Proof.
  induction s as [|c t [k IH]]; cbn [re_remove].
  - exists 0%nat. by destruct (P []).
  - destruct (P (c :: t)); [by exists 0%nat|].
    exists (S k). cbn [take]. by rewrite IH.
Qed.

Lemma drop_incomplete_block_take (healed tag : jsstring) :
  ∃ k, drop_incomplete_block healed tag = take k healed.
Proof.
  unfold drop_incomplete_block.
  assert (H1 : ∃ k,
            match re_match (openTagRegex tag) healed with
            | Some m0 => substring0 healed (lastIndexOf healed m0)
            | None => healed
            end = take k healed).
  { destruct (re_match _ healed) as [m0|].
    - by eexists.
    - exists (length healed). by rewrite firstn_all. }
  destruct H1 as [k ->].
  destruct (re_test _ (take k healed)); [|by eexists].
  destruct (re_remove_take (incompleteOpen tag) (take k healed)) as [j ->].
  exists (j `min` k)%nat. apply take_take.
Qed.

Lemma cut_incomplete_take (p : jsstring) :
  ∃ k, cut_incomplete p = take k p.
Proof.
  unfold cut_incomplete. cbv zeta.
  assert (H : ∃ k, fold_left drop_incomplete_block complex p = take k p).
  { generalize complex. intros tags. revert p.
    induction tags as [|tag tags IH]; intros p; cbn [fold_left].
    - exists (length p). by rewrite firstn_all.
    - destruct (drop_incomplete_block_take p tag) as [k ->].
      destruct (IH (take k p)) as [j ->].
      exists (j `min` k)%nat. apply take_take. }
  destruct H as [k ->].
  destruct (re_test _ (take k p)); [|by eexists].
  destruct (re_remove_take incompleteTag (take k p)) as [j ->].
  exists (j `min` k)%nat. apply take_take.
Qed.

Lemma heal_shape (p : jsstring) :
  healHtmlStream p
  = cut_incomplete p ++ closers (open_tags (cut_incomplete p)).
Proof.
  unfold healHtmlStream. cbv zeta.
  destruct (open_tags (cut_incomplete p)); [by rewrite app_nil_r | done].
Qed.

(** X6.  The healer rewrites nothing: its output is a prefix of its
    input, followed by the end tags of the elements that the tag walk
    finds open in that prefix, the innermost first. *)
Theorem healHtmlStream_keeps_prefix (partialHTML : jsstring) :
  ∃ k, healHtmlStream partialHTML
       = take k partialHTML ++ closers (open_tags (take k partialHTML)).
Proof.
  rewrite heal_shape. destruct (cut_incomplete_take partialHTML) as [k ->].
  by exists k.
Qed.

(** *** Inputs that name no script and no style element *)

Lemma strip_prefix_ci_app (pat x y r : jsstring) :
  strip_prefix_ci pat x = Some r →
  strip_prefix_ci pat (x ++ y) = Some (r ++ y).
Proof.
  revert x. induction pat as [|a pat IH]; intros x; cbn [strip_prefix_ci].
  - by intros [= ->].
  - destruct x as [|b x]; [done|]. cbn [app].
    destruct ((b <? 128) && (lower a =? lower b)); [apply IH | done].
Qed.

Lemma occurs_ci_app (pat x y : jsstring) :
  occurs_ci pat (x ++ y) = false → occurs_ci pat x = false.
Proof.
  induction x as [|c x IH]; cbn [app].
  - intros H. destruct pat as [|a pat]; [by destruct y|done].
  - cbn [occurs_ci].
    destruct (strip_prefix_ci pat (c :: x)) as [r|] eqn:Hs.
    + change (c :: x ++ y) with ((c :: x) ++ y).
      by rewrite (strip_prefix_ci_app _ _ y _ Hs).
    + destruct (strip_prefix_ci pat (c :: x ++ y)); [done | apply IH].
Qed.

(** A character that is not the less-than sign does not match it. *)
Lemma lt_mismatch (c : N) (tag s : jsstring) :
  c ≠ c_lt → strip_prefix_ci (c_lt :: tag) (c :: s) = None.
Proof.
  intros Hc. cbn [strip_prefix_ci].
  assert (H : (lower c_lt =? lower c) = false).
  { apply N.eqb_neq. unfold lower, c_lt in *.
    destruct ((65 <=? c) && (c <=? 90)) eqn:E; [|cbn; lia].
    apply andb_prop in E as [E1 E2]. apply N.leb_le in E1. cbn. lia. }
  by rewrite H, andb_false_r.
Qed.

Lemma alpha_lower (a : N) : is_alpha a = true → 97 ≤ lower a ≤ 122.
Proof.
  unfold is_alpha, lower. intros H.
  destruct (N.leb_spec 65 a), (N.leb_spec a 90); cbn [andb orb] in *; try lia;
    destruct (N.leb_spec 97 a), (N.leb_spec a 122); cbn [andb orb] in *;
    try lia; done.
Qed.

Lemma alpha_mismatch (a c : N) (tag s : jsstring) :
  is_alpha a = true → c < 65 →
  strip_prefix_ci (a :: tag) (c :: s) = None.
Proof.
  intros Ha Hc. cbn [strip_prefix_ci].
  assert (H : (lower a =? lower c) = false).
  { apply N.eqb_neq. pose proof (alpha_lower a Ha) as Hr.
    unfold lower at 2.
    destruct (N.leb_spec 65 c); cbn [andb]; lia. }
  by rewrite H, andb_false_r.
Qed.

Lemma strip_letters_app (tag t y : jsstring) :
  letters tag →
  strip_prefix_ci tag t = None →
  (y = [] ∨ ∃ y', y = c_lt :: y') →
  strip_prefix_ci tag (t ++ y) = None.
Proof.
  unfold letters. revert t.
  induction tag as [|a tag IH]; intros t Hl Hs Hy; [done|].
  cbn [forallb] in Hl. apply andb_prop in Hl as [Ha Hl].
  destruct t as [|b t]; cbn [app].
  - destruct Hy as [->|[y' ->]]; [done|].
    apply alpha_mismatch; [done|]. unfold c_lt. lia.
  - cbn [strip_prefix_ci] in *.
    destruct ((b <? 128) && (lower a =? lower b)); [by apply IH | done].
Qed.

Lemma occurs_ci_append (tag h y : jsstring) :
  letters tag →
  (y = [] ∨ ∃ y', y = c_lt :: y') →
  occurs_ci (c_lt :: tag) h = false →
  occurs_ci (c_lt :: tag) y = false →
  occurs_ci (c_lt :: tag) (h ++ y) = false.
Proof.
  intros Hl Hy Hh Hyy. induction h as [|c h IH]; [done|].
  cbn [app]. cbn [occurs_ci] in Hh |- *.
  destruct (strip_prefix_ci (c_lt :: tag) (c :: h)) as [r|] eqn:Hs; [done|].
  assert (Hn : strip_prefix_ci (c_lt :: tag) (c :: h ++ y) = None).
  { cbn [strip_prefix_ci] in Hs |- *.
    destruct ((c <? 128) && (lower c_lt =? lower c)); [|done].
    by apply strip_letters_app. }
  rewrite Hn. by apply IH.
Qed.

Lemma occurs_ci_name (tag tl rest : jsstring) :
  forallb is_alnum tl = true →
  occurs_ci (c_lt :: tag) rest = false →
  occurs_ci (c_lt :: tag) (tl ++ rest) = false.
Proof.
  intros Htl Hr. induction tl as [|c tl IH]; [done|].
  cbn [forallb] in Htl. apply andb_prop in Htl as [Hc Htl].
  cbn [app occurs_ci]. rewrite lt_mismatch; [by apply IH|].
  intros ->. discriminate.
Qed.

Lemma occurs_ci_closers (a : N) (tag : jsstring) (st : list jsstring) :
  is_alpha a = true →
  Forall pushed_name st →
  occurs_ci (c_lt :: a :: tag) (closers st) = false.
Proof.
  intros Ha. induction st as [|n st IH] using rev_ind; [done|].
  intros [Hst Hn]%Forall_app. inversion Hn as [|? ? Hgood _]; subst.
  rewrite HealWalk.closers_snoc.
  destruct Hgood as (l & tl & -> & Hla & Htl & _).
  cbn [app occurs_ci].
  assert (H1 : strip_prefix_ci (c_lt :: a :: tag)
                 (c_lt :: c_slash :: l :: (tl ++ [c_gt]) ++ closers st) = None).
  { change (strip_prefix_ci (c_lt :: a :: tag) (c_lt :: ?s))
      with (strip_prefix_ci (a :: tag) s).
    apply alpha_mismatch; [done|]. unfold c_slash. lia. }
  rewrite H1. rewrite lt_mismatch by discriminate.
  rewrite lt_mismatch.
  2: { intros ->. discriminate. }
  rewrite <- app_assoc. apply occurs_ci_name; [done|].
  cbn [app occurs_ci]. rewrite lt_mismatch by discriminate.
  by apply IH.
Qed.

Lemma closers_head (st : list jsstring) :
  closers st = [] ∨ ∃ y', closers st = c_lt :: y'.
Proof.
  destruct st as [|n st] using rev_ind; [by left|].
  right. rewrite HealWalk.closers_snoc. by eexists.
Qed.

(** Without an occurrence of the less-than sign followed by the tag
    name, neither pattern of the loop over [complex] matches. *)
Lemma no_block (tag D : jsstring) :
  occurs_ci (c_lt :: tag) D = false →
  re_test (openTagRegex tag) D = false
  ∧ re_test (incompleteOpen tag) D = false.
Proof.
  induction D as [|c D IH]; cbn [occurs_ci re_test].
  - unfold openTagRegex, incompleteOpen. cbn [app].
    by destruct (strip_prefix_ci (c_lt :: tag) []).
  - unfold openTagRegex at 1, incompleteOpen at 1. cbn [app].
    destruct (strip_prefix_ci (c_lt :: tag) (c :: D)); [done|].
    cbn [orb]. exact IH.
Qed.

(** The second half of the healer, on a text without incomplete tag: with
    the end tags appended, the text still has no incomplete tag, and its
    tag walk ends on an empty stack. *)
Lemma closed_text (h : jsstring) :
  re_test incompleteTag h = false →
  re_test incompleteTag (h ++ closers (open_tags h)) = false
  ∧ open_tags (h ++ closers (open_tags h)) = [].
Proof.
  intros Hh.
  assert (Hn : Forall pushed_name (open_tags h)).
  { unfold open_tags. by apply HealWalk.walk_names. }
  split.
  - apply HealWalk.clean_app; [done|]. by apply HealWalk.closers_clean.
  - unfold open_tags at 1.
    rewrite (HealWalk.walk_app (length h)); [|done | done].
    fold (open_tags h). by apply HealWalk.walk_closers.
Qed.

(** X7.  On an input in which no less-than sign is followed by [script]
    or by [style] (in either case), healing twice gives what healing
    once gives. *)
Theorem healHtmlStream_idempotent (partialHTML : jsstring) :
  occurs_ci (js "<script") partialHTML = false →
  occurs_ci (js "<style") partialHTML = false →
  healHtmlStream (healHtmlStream partialHTML) = healHtmlStream partialHTML.
Proof.
  intros Hscript Hstyle.
  assert (Hkeep : ∀ a tag,
            is_alpha a = true → letters (a :: tag) →
            occurs_ci (c_lt :: a :: tag) partialHTML = false →
            occurs_ci (c_lt :: a :: tag) (healHtmlStream partialHTML) = false).
  { intros a tag Ha Hl Ho. rewrite heal_shape.
    destruct (cut_incomplete_take partialHTML) as [k Hk]. rewrite Hk.
    apply occurs_ci_append; [done | apply closers_head | |].
    - apply (occurs_ci_app _ _ (drop k partialHTML)).
      by rewrite take_drop.
    - apply occurs_ci_closers; [done|].
      unfold open_tags. by apply HealWalk.walk_names. }
  destruct (closed_text (cut_incomplete partialHTML)
              (HealWalk.cut_incomplete_clean partialHTML)) as [Hclean Hbal].
  rewrite <- heal_shape in Hclean, Hbal.
  apply HealFacts.healHtmlStream_unchanged; [|done|done].
  repeat constructor.
  - apply no_block. by apply (Hkeep 115 (js "cript")).
  - apply no_block. by apply (Hkeep 115 (js "cript")).
  - apply no_block. by apply (Hkeep 115 (js "tyle")).
  - apply no_block. by apply (Hkeep 115 (js "tyle")).
Qed.

Lemma healHtmlStream_idempotent_witness :
  healHtmlStream (healHtmlStream (jq "<div class='a'><p>Hi <b>the<br"))
  = healHtmlStream (jq "<div class='a'><p>Hi <b>the<br").
Proof.
  apply healHtmlStream_idempotent; vm_compute; reflexivity.
Defined.

End HealMore.

(* ===================================================================== *)
(** ** The window tools: counts, names and stacking                       *)
(* ===================================================================== *)

Module ToolsMore.
Import Tools Props Notions ToolsFacts.

(** *** The counts of [domReplace] *)

Section Counts.
Context `{dom : DomApi}.

Lemma for_each_count (f : Element → Document → outcome Document)
    (list : list Element) :
  ∀ d k d' n,
    for_each f list d k = (d', Returns n) → n = k + N.of_nat (length list).
Proof.
  induction list as [|el list IH]; intros d k d' n; cbn [for_each length].
  - intros [= _ <-]. lia.
  - destruct (f el d) as [err|d1]; [done|].
    intros H. apply IH in H. lia.
Qed.

Lemma total_snoc (f : detail → N) (ds : list detail) (d : detail) :
  total f (ds ++ [d]) = total f ds + f d.
Proof.
  unfold total. induction ds as [|x ds IH]; cbn [app foldr]; [lia|].
  rewrite IH. lia.
Qed.

Lemma apply_one_in_step (s : mut_state) (m : DomMutation) :
  in_step s → in_step (apply_one s m).
Proof.
  intros (Ht & Ha & Hf). unfold apply_one, in_step.
  destruct (querySelectorAll (doc s) (selector m)) as [err|list];
    cbn -[total].
  - rewrite !total_snoc. cbn -[total]. repeat split; [lia | lia |].
    apply Forall_app. split; [done|]. by repeat constructor.
  - destruct (for_each (effect m) list (doc s) 0) as [d' [err|k]] eqn:Hfe;
      cbn -[total].
    + rewrite !total_snoc. cbn -[total]. repeat split; [lia | lia |].
      apply Forall_app. split; [done|]. by repeat constructor.
    + apply for_each_count in Hfe. rewrite !total_snoc. cbn -[total].
      repeat split; [lia | lia |].
      apply Forall_app. split; [done|]. repeat constructor. cbn. lia.
Qed.

Lemma applyMutations_in_step (muts : list DomMutation) :
  ∀ s, in_step s → in_step (applyMutations s muts).
Proof.
  unfold applyMutations.
  induction muts as [|m muts IH]; intros s Hs; cbn [fold_left]; [done|].
  by apply IH, apply_one_in_step.
Qed.

Lemma count_split (ds : list detail) :
  (count_applied ds + length (without_effect ds))%nat = length ds.
Proof.
  unfold count_applied, without_effect.
  induction ds as [|d ds IH]; [done|].
  rewrite !filter_cons.
  destruct (decide (0 < applied d)), (decide (applied d = 0));
    cbn [length]; lia.
Qed.

(** X8.  On an existing window, under either dispatch, every record of
    the result of [domReplace] has as many applications as matches, the
    two totals are the sums over the records and are equal, and [failed]
    lies between 0 and the number of operations.  When React runs the
    updater inside [setNodes], the result has one record for each
    operation and [failed] counts the records without any application:
    the operations that threw and those whose selector matched nothing.
    When React queues the updater, the result has no record, no target,
    and every operation counted as failed. *)
Theorem domReplace_totals (t : dispatch) (st : store) (windowId : jsstring)
    (n : node) (mutations : list DomMutation) :
  existing_window st windowId n →
  let r := (domReplace t windowId mutations st).1 in
  Forall (λ d, applied d = matched d) (details r)
  ∧ totalTargets (totals r) = total matched (details r)
  ∧ totalApplied (totals r) = totalTargets (totals r)
  ∧ (0 ≤ failed (totals r) ≤ Z.of_N (totalMutations (totals r)))%Z
  ∧ match t with
    | eager =>
        length (details r) = length mutations
        ∧ failed (totals r) = Z.of_nat (length (without_effect (details r)))
    | queued =>
        details r = []
        ∧ totalTargets (totals r) = 0
        ∧ failed (totals r) = Z.of_nat (length mutations)
    end.
Proof.
  intros [Hw (before & after & Hn & Ho)] r. subst r. destruct t.
  - rewrite (domReplace_existing st windowId n before after mutations Hw Hn Ho).
    cbn [fst details totals totalTargets totalApplied failed totalMutations].
    set (s := applyMutations (fresh_state (current_document st n)) mutations).
    assert (Hs : in_step s).
    { apply applyMutations_in_step. by repeat split. }
    destruct Hs as (Ht & Ha & Hf).
    pose proof (applyMutations_details mutations
                  (fresh_state (current_document st n))) as Hl.
    fold s in Hl. cbn [fresh_state localDetails length Nat.add] in Hl.
    pose proof (count_split (localDetails s)) as Hc.
    assert (Heq : total applied (localDetails s)
                  = total matched (localDetails s)).
    { clear -Hf. unfold total.
      induction Hf as [|d ds Hd _ IH]; cbn [foldr]; [done|].
      by rewrite Hd, IH. }
    repeat split; [done | done | congruence | lia | lia | done | lia].
  - rewrite (domReplace_queued _ _ _ _ Hw).
    cbn [fst details totals totalTargets totalApplied failed totalMutations].
    repeat split; [constructor | lia | lia].
Qed.

(** X9.  Once the updater of [domReplace] has run on an existing window,
    inside [setNodes] or at the render that follows a queued call, the
    node of the window stores the markup that the handler returns when
    the updater runs inside [setNodes]; the markup stored for every
    other node, the registry of names, the registries of window
    identifiers and the focus are as they were.  A call whose updater is
    queued returns the empty markup, and the nodes are as they were when
    it returns. *)
Theorem domReplace_stores_result (t : dispatch) (st : store)
    (windowId : jsstring) (n : node) (mutations : list DomMutation) :
  existing_window st windowId n →
  let r := (domReplace eager windowId mutations st).1 in
  let st' := settled t windowId mutations st in
  stored_html st' (id n) = Some (dr_html r)
  ∧ (∀ other, other ≠ id n → stored_html st' other = stored_html st other)
  ∧ nameToNodeId st' = nameToNodeId st
  ∧ windowIdToNodeId st' = windowIdToNodeId st
  ∧ nodeIdToWindowId st' = nodeIdToWindowId st
  ∧ focusedWindowId st' = focusedWindowId st
  ∧ dr_html (domReplace queued windowId mutations st).1 = []
  ∧ nodes (domReplace queued windowId mutations st).2 = nodes st.
Proof.
  intros [Hw (before & after & Hn & Ho)] r st'. subst r st'.
  rewrite settled_eager, (domReplace_queued _ _ _ _ Hw).
  rewrite (domReplace_existing st windowId n before after mutations Hw Hn Ho).
  cbn [fst snd dr_html nameToNodeId windowIdToNodeId nodeIdToWindowId
       focusedWindowId nodes].
  pose proof Ho as Ho'. apply Forall_app in Ho' as [Hb Ha].
  split; [|split; [|done]].
  - unfold stored_html. cbn [nodes].
    by rewrite (find_node (id n)
                  {| id := id n; html := serialize _; title := title n;
                     zIndex := zIndex n; selected := selected n |}
                  before after eq_refl Hb).
  - intros other Hne. unfold stored_html. cbn [nodes]. rewrite Hn. f_equal.
    clear -Hne. induction before as [|x before IH]; cbn [app List.find].
    + cbn [id]. by rewrite (str_eqb_ne (id n) other) by congruence.
    + destruct (str_eqb (id x) other); [done | exact IH].
Qed.

End Counts.

Lemma domReplace_totals_witness :
  let st := one_window (js "T") (js "<p>hi</p>") in
  let muts := [set_text (js "*") (js "A"); set_attr (js "*") [] (js "v");
               remove (js ".none")] in
  let r := (@domReplace MiniDom eager (js "w1") muts st).1 in
  let q := (@domReplace MiniDom queued (js "w1") muts st).1 in
  (length (details r) = 3%nat
   ∧ totalApplied (totals r) = totalTargets (totals r)
   ∧ failed (totals r) = 2%Z)
  ∧ (details q = [] ∧ failed (totals q) = 3%Z).
Proof.
  intros st muts r q. split.
  - destruct (@domReplace_totals MiniDom eager st (js "w1") _ muts
                (one_window_exists (js "T") (js "<p>hi</p>")))
      as (_ & _ & Ha & _ & Hl & Hf).
    fold r in Hl, Ha, Hf.
    split; [exact Hl|]. split; [exact Ha|].
    rewrite Hf. vm_compute. reflexivity.
  - destruct (@domReplace_totals MiniDom queued st (js "w1") _ muts
                (one_window_exists (js "T") (js "<p>hi</p>")))
      as (_ & _ & _ & _ & Hd & _ & Hf).
    fold q in Hd, Hf. split; [exact Hd | exact Hf].
Defined.

Lemma domReplace_stores_result_witness :
  let st := one_window (js "T") (js "<p>hi</p>") in
  let muts := [set_text (js "*") (js "A")] in
  let r := (@domReplace MiniDom eager (js "w1") muts st).1 in
  stored_html (@settled MiniDom queued (js "w1") muts st) (js "n1")
  = Some (dr_html r)
  ∧ dr_html r = js "<!DOCTYPE html>A"
  ∧ dr_html (@domReplace MiniDom queued (js "w1") muts st).1 = [].
Proof.
  intros st muts r.
  destruct (@domReplace_stores_result MiniDom queued st (js "w1") _ muts
              (one_window_exists (js "T") (js "<p>hi</p>")))
    as (Hs & _ & _ & _ & _ & _ & Hq & _).
  split; [exact Hs|]. split; [vm_compute; reflexivity | exact Hq].
Defined.

(** *** Names and stacking in [createNewWindow] *)

Lemma fold_max_bound (nds : list node) :
  ∀ a, a ≤ fold_left (λ mx n, N.max mx (zIndex n)) nds a
       ∧ Forall (λ y, zIndex y ≤ fold_left (λ mx n, N.max mx (zIndex n)) nds a)
           nds.
Proof.
  induction nds as [|x nds IH]; intros a; cbn [fold_left].
  - split; [lia | constructor].
  - destruct (IH (N.max a (zIndex x))) as [H1 H2].
    split; [lia|]. constructor; [lia | done].
Qed.

Lemma maxZIndex_bound (nds : list node) (y : node) :
  y ∈ nds → zIndex y ≤ maxZIndex nds.
Proof.
  intros Hy. destruct (fold_max_bound nds 0) as [_ H].
  rewrite list.Forall_forall in H. by apply H.
Qed.

(** X10.  When [createNewWindow] returns, the window it made has the
    focus, and a node of the canvas is selected only if it is the node of
    that window; this node then carries the decoded markup and the final
    name, and lies above every node that is not selected.  When no
    preview node was waiting for the name, the node of the new window is
    there and selected. *)
Theorem createNewWindow_on_top (name html : jsstring) (e e' : env)
    (st st' : store) (r : CreateNewWindowResult) :
  createNewWindow name html e st = Some (r, st', e') →
  focusedWindowId st' = Some (windowId r)
  ∧ (∀ x, x ∈ nodes st' → selected x = true →
       id x = nodeId r
       ∧ Tools.html x = decodePossibleEscapes html
       ∧ title x = finalName r
       ∧ ∀ y, y ∈ nodes st' → selected y = false → zIndex y < zIndex x)
  ∧ (get_truthy (provisionalNameToNodeId st) name = None →
     ∃ x, x ∈ nodes st' ∧ selected x = true).
Proof.
  unfold createNewWindow. intros H.
  destruct (unique_name (nameToNodeId st) name) as [fn|]; [|done].
  cbn [mbind option_bind] in H.
  destruct (fresh_windowId (draws e) (windowIdToNodeId st))
    as [[w ds]|]; [|done].
  cbn [mbind option_bind] in H.
  destruct (get_truthy (provisionalNameToNodeId st) name) as [pid|].
  - injection H as <- <- <-.
    cbn [focusedWindowId nodes nodeId finalName windowId].
    split; [done|]. split; [|done].
    intros x Hx Hsel. apply list_elem_of_fmap in Hx as (x0 & -> & Hx0).
    destruct (negb (str_eqb (id x0) pid)) eqn:Hid; [done|].
    apply negb_false_iff in Hid. unfold str_eqb in Hid.
    apply bool_decide_eq_true in Hid. cbn [id Tools.html title zIndex].
    repeat split; [done|].
    intros y Hy Hns. apply list_elem_of_fmap in Hy as (y0 & -> & Hy0).
    destruct (negb (str_eqb (id y0) pid)); [|done].
    cbn [zIndex deselect].
    pose proof (maxZIndex_bound _ _ Hy0). lia.
  - destruct ds as [|d ds]; [done|].
    injection H as <- <- <-.
    cbn [focusedWindowId nodes nodeId finalName windowId].
    split; [done|]. split.
    + intros x Hx Hsel. apply elem_of_app in Hx as [Hx|Hx].
      { apply list_elem_of_fmap in Hx as (x0 & -> & _). done. }
      apply list_elem_of_singleton in Hx. subst x.
      cbn [id Tools.html title zIndex]. repeat split.
      intros y Hy Hns. apply elem_of_app in Hy as [Hy|Hy].
      * apply list_elem_of_fmap in Hy as (y0 & -> & Hy0).
        cbn [zIndex deselect]. pose proof (maxZIndex_bound _ _ Hy0). lia.
      * apply list_elem_of_singleton in Hy. by subst y.
    + intros _. eexists. split; [apply elem_of_app; right; by left|done].
Qed.

Lemma createNewWindow_on_top_witness :
  ∃ r st' e',
    createNewWindow (js "Notes") (js "<p>1</p>")
      {| draws := [js "a1b2c3"; js "q1q1q1"]; now := 1700000000000 |}
      (one_window (js "T") (js "x")) = Some (r, st', e')
    ∧ focusedWindowId st' = Some (js "wa1b2c3")
    ∧ (selected <$> nodes st') = [false; true].
Proof.
  eexists _, _, _. split; [vm_compute; reflexivity|].
  split; [|vm_compute; reflexivity].
  exact (proj1 (createNewWindow_on_top _ _ _ _ _ _ _
                  (eq_refl : createNewWindow (js "Notes") (js "<p>1</p>")
                     {| draws := [js "a1b2c3"; js "q1q1q1"];
                        now := 1700000000000 |}
                     (one_window (js "T") (js "x")) = Some _))).
Defined.

Lemma unique_name_loop_result (names : gmap jsstring jsstring) (name : jsstring)
    (fuel : nat) :
  ∀ cand k fn,
    unique_name_loop fuel names name cand k = Some fn →
    names !! fn = None
    ∧ (fn = cand ∨ (is_Some (names !! cand) ∧ ∃ j, fn = suffixed name j)).
Proof.
  induction fuel as [|fuel IH]; intros cand k fn; cbn [unique_name_loop]; [done|].
  destruct (map_has names cand) eqn:Hc.
  - intros H. apply IH in H as [Hfree H]. split; [done|]. right.
    split; [by apply map_has_true|].
    destruct H as [->|[_ [j ->]]]; by eexists.
  - intros [= ->]. split; [by apply map_has_false | by left].
Qed.

Lemma suffixed_longer (name : jsstring) (k : N) : suffixed name k ≠ name.
Proof.
  intros H. apply (f_equal length) in H. unfold suffixed in H.
  rewrite !length_app in H. change (length (js " (")) with 2%nat in H. lia.
Qed.

(** X11.  The name a window gets from [createNewWindow] was the name of no
    window before the call and is registered to the node of the new
    window after it, in both directions; the names registered before
    keep their nodes. *)
Theorem createNewWindow_fresh_name (name html : jsstring) (e e' : env)
    (st st' : store) (r : CreateNewWindowResult) :
  createNewWindow name html e st = Some (r, st', e') →
  nameToNodeId st !! finalName r = None
  ∧ nameToNodeId st' !! finalName r = Some (nodeId r)
  ∧ nodeIdToName st' !! nodeId r = Some (finalName r)
  ∧ (∀ nm nd, nameToNodeId st !! nm = Some nd →
              nameToNodeId st' !! nm = Some nd).
Proof.
  unfold createNewWindow. intros H.
  destruct (unique_name (nameToNodeId st) name) as [fn|] eqn:Hfn; [|done].
  cbn [mbind option_bind] in H.
  apply unique_name_loop_result in Hfn as [Hfree _].
  destruct (fresh_windowId (draws e) (windowIdToNodeId st))
    as [[w ds]|]; [|done].
  cbn [mbind option_bind] in H.
  assert (Hkeep : ∀ nid nm nd, nameToNodeId st !! nm = Some nd →
            <[fn := nid]> (nameToNodeId st) !! nm = Some nd).
  { intros nid nm nd Hnm. rewrite lookup_insert_ne; [done|]. congruence. }
  destruct (get_truthy (provisionalNameToNodeId st) name) as [pid|].
  - injection H as <- <- <-. cbn.
    split; [done|]. split; [by rewrite lookup_insert_eq|].
    split; [by rewrite lookup_insert_eq | apply Hkeep].
  - destruct ds as [|d ds]; [done|].
    injection H as <- <- <-. cbn.
    split; [done|]. split; [by rewrite lookup_insert_eq|].
    split; [by rewrite lookup_insert_eq | apply Hkeep].
Qed.

Lemma createNewWindow_fresh_name_witness :
  ∃ r st' e',
    createNewWindow (js "T") (js "<p>1</p>")
      {| draws := [js "a1b2c3"; js "q1q1q1"]; now := 1700000000000 |}
      (one_window (js "T") (js "x")) = Some (r, st', e')
    ∧ finalName r = js "T (2)"
    ∧ nameToNodeId (one_window (js "T") (js "x")) !! finalName r = None
    ∧ nameToNodeId st' !! js "T" = Some (js "n1").
Proof.
  eexists _, _, _. split; [vm_compute; reflexivity|].
  split; [vm_compute; reflexivity|].
  pose proof (createNewWindow_fresh_name _ _ _ _ _ _ _
                (eq_refl : createNewWindow (js "T") (js "<p>1</p>")
                   {| draws := [js "a1b2c3"; js "q1q1q1"];
                      now := 1700000000000 |}
                   (one_window (js "T") (js "x")) = Some _))
    as (Hfree & _ & _ & Hkeep).
  split; [exact Hfree|]. apply Hkeep. vm_compute. reflexivity.
Defined.

(** X12.  [createNewWindow] reports [created] exactly when the name asked
    for has no white space around it and is the name of no window;
    otherwise it reports [renamed], also when trimming is all that
    changed the name. *)
Theorem createNewWindow_status (name html : jsstring) (e e' : env)
    (st st' : store) (r : CreateNewWindowResult) :
  createNewWindow name html e st = Some (r, st', e') →
  (status r = created ↔ trim name = name ∧ nameToNodeId st !! name = None)
  ∧ (status r = renamed ↔ finalName r ≠ name).
Proof.
  unfold createNewWindow. intros H.
  destruct (unique_name (nameToNodeId st) name) as [fn|] eqn:Hfn; [|done].
  cbn [mbind option_bind] in H.
  apply unique_name_loop_result in Hfn as [Hfree Hfn].
  destruct (fresh_windowId (draws e) (windowIdToNodeId st))
    as [[w ds]|]; [|done].
  cbn [mbind option_bind] in H.
  assert (Hst : ∀ s : create_status,
            s = (if negb (str_eqb fn name) then renamed else created) →
            (s = created ↔ trim name = name ∧ nameToNodeId st !! name = None)
            ∧ (s = renamed ↔ fn ≠ name)).
  { intros s ->. unfold str_eqb.
    destruct (decide (fn = name)) as [Heq|Hne].
    - rewrite bool_decide_eq_true_2 by done. cbn [negb].
      split; [|split; [done | by intros []]].
      split; [intros _ | done].
      destruct Hfn as [Ht|[_ [j Hj]]].
      + split; congruence.
      + exfalso. apply (suffixed_longer name j). congruence.
    - rewrite bool_decide_eq_false_2 by done. cbn [negb].
      split; [|done]. split; [done|]. intros [Ht Hn]. exfalso.
      destruct Hfn as [Hc|[[v Hv] _]]; congruence. }
  destruct (get_truthy (provisionalNameToNodeId st) name) as [pid|].
  - injection H as <- <- <-. cbn [status finalName]. by apply Hst.
  - destruct ds as [|d ds]; [done|].
    injection H as <- <- <-. cbn [status finalName]. by apply Hst.
Qed.

Lemma createNewWindow_status_witness :
  ∃ r st' e',
    createNewWindow (js " Notes") (js "<p>1</p>")
      {| draws := [js "a1b2c3"; js "q1q1q1"]; now := 1700000000000 |}
      empty_store = Some (r, st', e')
    ∧ finalName r = js "Notes"
    ∧ status r = renamed.
Proof.
  eexists _, _, _. split; [vm_compute; reflexivity|].
  split; [vm_compute; reflexivity|].
  apply (createNewWindow_status _ _ _ _ _ _ _
           (eq_refl : createNewWindow (js " Notes") (js "<p>1</p>")
              {| draws := [js "a1b2c3"; js "q1q1q1"];
                 now := 1700000000000 |}
              empty_store = Some _)).
  vm_compute. discriminate.
Defined.

(** *** [updateWindowTitle] on an existing window *)

(** X13.  On an existing window [updateWindowTitle] writes the title on
    the node of the window and moves the registry of names with it: the
    title now names the node and the node's previous name, when it
    differs, names nothing.  Markup, node and window identifiers stay as
    they are. *)
Theorem updateWindowTitle_renames (st : store) (windowId t nodeId : jsstring) :
  get_truthy (windowIdToNodeId st) windowId = Some nodeId →
  let st' := (updateWindowTitle windowId t st).2 in
  nameToNodeId st' !! t = Some nodeId
  ∧ nodeIdToName st' !! nodeId = Some t
  ∧ (∀ prev, get_truthy (nodeIdToName st) nodeId = Some prev → prev ≠ t →
             nameToNodeId st' !! prev = None)
  ∧ (∀ x, x ∈ nodes st' → id x = nodeId → title x = t)
  ∧ id <$> nodes st' = id <$> nodes st
  ∧ Tools.html <$> nodes st' = Tools.html <$> nodes st
  ∧ windowIdToNodeId st' = windowIdToNodeId st
  ∧ nodeIdToWindowId st' = nodeIdToWindowId st.
Proof.
  intros Hw st'. subst st'. unfold updateWindowTitle. rewrite Hw.
  cbn [snd nameToNodeId nodeIdToName nodes windowIdToNodeId nodeIdToWindowId].
  split; [by rewrite lookup_insert_eq|].
  split; [by rewrite lookup_insert_eq|].
  split.
  { intros prev Hp Hne. rewrite Hp.
    rewrite lookup_insert_ne by congruence. apply lookup_delete_eq. }
  split.
  { intros x Hx Hid. apply list_elem_of_fmap in Hx as (x0 & -> & _).
    destruct (negb (str_eqb (id x0) nodeId)) eqn:Hb; [|done].
    apply negb_true_iff in Hb. unfold str_eqb in Hb.
    apply bool_decide_eq_false in Hb. done. }
  split; [|split; [|done]].
  - rewrite <- list_fmap_compose. apply list_fmap_ext. intros i x _. cbn.
    by destruct (negb (str_eqb (id x) nodeId)).
  - rewrite <- list_fmap_compose. apply list_fmap_ext. intros i x _. cbn.
    by destruct (negb (str_eqb (id x) nodeId)).
Qed.

Lemma updateWindowTitle_renames_witness :
  let st' := (updateWindowTitle (js "w1") (js "Clock")
                (one_window (js "T") (js "x"))).2 in
  nameToNodeId st' !! js "Clock" = Some (js "n1")
  ∧ nameToNodeId st' !! js "T" = None
  ∧ (title <$> nodes st') = [js "Clock"].
Proof.
  intros st'.
  destruct (updateWindowTitle_renames (one_window (js "T") (js "x"))
              (js "w1") (js "Clock") (js "n1")) as (H1 & _ & H3 & _).
  { vm_compute. reflexivity. }
  split; [exact H1|]. split; [|vm_compute; reflexivity].
  apply (H3 (js "T")); [vm_compute; reflexivity | vm_compute; discriminate].
Defined.

End ToolsMore.

(* ===================================================================== *)
(** ** The agent loop: how a run ends, and what it hands on               *)
(* ===================================================================== *)

Module AgentMore.
Import Agent Props RunNotions.

Section RunMore.
Context {W R Mut Args : Type}.
Variable tools : AgentToolHandlers W R Mut.
Variable create : nat → list message → response.
Variable parse_args : jsstring → Args.
Variable stringify_args : Args → jsstring.
Variable stringify_result : option R → jsstring.
Variable arg_name arg_html arg_windowId arg_title : Args → jsstring.
Variable arg_mutations : Args → list Mut.

Local Abbreviation gen := (@Agent.gen W R).
Local Abbreviation step_body :=
  (Agent.step_body tools create parse_args stringify_args stringify_result
     arg_name arg_html arg_windowId arg_title arg_mutations).
Local Abbreviation loop :=
  (Agent.loop tools create parse_args stringify_args stringify_result
     arg_name arg_html arg_windowId arg_title arg_mutations).
Local Abbreviation execute :=
  (Agent.execute tools parse_args stringify_args stringify_result
     arg_name arg_html arg_windowId arg_title arg_mutations).
Local Abbreviation runAgentStream :=
  (Agent.runAgentStream tools create parse_args stringify_args
     stringify_result arg_name arg_html arg_windowId arg_title arg_mutations).
Local Abbreviation reaches :=
  (Props.reaches tools create parse_args stringify_args stringify_result
     arg_name arg_html arg_windowId arg_title arg_mutations).

(** *** Lists of events *)

Lemma text_of_app (a b : list (event R)) :
  emitted_text (a ++ b) = emitted_text a ++ emitted_text b.
Proof.
  unfold emitted_text. rewrite fmap_app. apply join_app.
Qed.

Lemma results_of_app (a b : list (event R)) :
  results_of (a ++ b) = results_of a ++ results_of b.
Proof. unfold results_of. apply omap_app. Qed.

Lemma results_of_streamed (more : list (event R)) :
  forallb streamed more = true → results_of more = [].
Proof.
  induction more as [|e more IH]; [done|]. cbn [forallb].
  intros [He Hm]%andb_prop. unfold results_of in *. cbn [omap list_omap].
  rewrite (IH Hm). by destruct e.
Qed.

Lemma results_of_results (rs : list (jsstring * jsstring * option R)) :
  results_of (result_event <$> rs) = rs.
Proof.
  induction rs as [|[[i n] o] rs IH]; [done|].
  unfold results_of in *. cbn. by rewrite IH.
Qed.

Lemma quiet_streamed (more : list (event R)) :
  forallb streamed more = true →
  forallb (λ e, negb (is_finish e)) more = true.
Proof.
  induction more as [|e more IH]; [done|]. cbn [forallb].
  intros [He Hm]%andb_prop. rewrite (IH Hm), andb_true_r. by destruct e.
Qed.

Lemma quiet_results (rs : list (jsstring * jsstring * option R)) :
  forallb (λ e, negb (is_finish e)) (result_event <$> rs) = true.
Proof. by induction rs as [|r rs IH]. Qed.

(** *** What reading a stream does to the generator *)

Lemma streams_refl (g : gen) : streams [] g g.
Proof. unfold streams. by rewrite app_nil_r. Qed.

Lemma streams_trans (m1 m2 : list (event R)) (g1 g2 g3 : gen) :
  streams m1 g1 g2 → streams m2 g2 g3 → streams (m1 ++ m2) g1 g3.
Proof.
  unfold streams.
  intros (E1 & F1 & P1 & W1 & M1 & A1 & T1 & C1 & Q1)
         (E2 & F2 & P2 & W2 & M2 & A2 & T2 & C2 & Q2).
  rewrite forallb_app, F1, F2, E2, E1, app_assoc.
  repeat split; congruence.
Qed.

Lemma streams_emit (e : event R) (g : gen) :
  streamed e = true → streams [e] g (emit e g).
Proof. intros He. unfold streams. cbn. by rewrite He. Qed.

Lemma on_tool_call_streams (step : N) (sv : step_vars) (g : gen)
    (tc : tool_call_delta) :
  ∃ more,
    streams more g (on_tool_call step (sv, g) tc).2
    ∧ emitted_text more = []
    ∧ stepText (on_tool_call step (sv, g) tc).1 = stepText sv.
Proof.
  unfold on_tool_call. cbv zeta.
  match goal with
  | |- context [if ?b then emit ?e1 (if ?a then emit ?e0 g else g) else _] =>
      destruct a, b
  end; cbn [fst snd stepText].
  - eexists. split.
    { eapply streams_trans; cycle 1; apply streams_emit; reflexivity. }
    split; reflexivity.
  - eexists. split; [apply streams_emit; reflexivity|]. split; reflexivity.
  - eexists. split; [apply streams_emit; reflexivity|]. split; reflexivity.
  - exists []. split; [apply streams_refl | split; reflexivity].
Qed.

Lemma tool_calls_stream (step : N) (tcs : list tool_call_delta) :
  ∀ (sv : step_vars) (g : gen),
    ∃ more,
      streams more g (fold_left (on_tool_call step) tcs (sv, g)).2
      ∧ emitted_text more = []
      ∧ stepText (fold_left (on_tool_call step) tcs (sv, g)).1 = stepText sv.
Proof.
  induction tcs as [|tc tcs IH]; intros sv g; cbn [fold_left].
  - exists []. split; [apply streams_refl | done].
  - destruct (on_tool_call_streams step sv g tc) as (m1 & S1 & T1 & X1).
    destruct (on_tool_call step (sv, g) tc) as [sv1 g1]. cbn [fst snd] in *.
    destruct (IH sv1 g1) as (m2 & S2 & T2 & X2).
    exists (m1 ++ m2). split; [by eapply streams_trans|].
    rewrite text_of_app, T1, T2. split; [done | congruence].
Qed.

Lemma on_chunk_streams (step : N) (sv : step_vars) (g : gen) (c : chunk) :
  ∃ more,
    streams more g (on_chunk step (sv, g) c).2
    ∧ stepText (on_chunk step (sv, g) c).1 = stepText sv ++ emitted_text more.
Proof.
  unfold on_chunk.
  set (sg1 := if truthy_opt (content c) then _ else (sv, g)).
  assert (H1 : ∃ m1, streams m1 g sg1.2
                     ∧ stepText sg1.1 = stepText sv ++ emitted_text m1).
  { subst sg1. destruct (truthy_opt (content c)).
    - exists [text_delta (default [] (content c))].
      cbn [fst snd stepText]. split.
      + unfold streams. cbn. done.
      + unfold emitted_text. cbn. by rewrite app_nil_r.
    - exists []. split; [apply streams_refl|]. cbn. by rewrite app_nil_r. }
  destruct H1 as (m1 & S1 & X1). destruct sg1 as [sv1 g1]. cbn [fst snd] in *.
  set (sg2 := match tool_calls c with Some _ => _ | None => (sv1, g1) end).
  assert (H2 : ∃ m2, streams m2 g1 sg2.2
                     ∧ emitted_text m2 = []
                     ∧ stepText sg2.1 = stepText sv1).
  { subst sg2. destruct (tool_calls c) as [tcs|].
    - apply tool_calls_stream.
    - exists []. split; [apply streams_refl | done]. }
  destruct H2 as (m2 & S2 & T2 & X2). destruct sg2 as [sv2 g2].
  cbn [fst snd] in *.
  exists (m1 ++ m2). split.
  - destruct (usage c); cbn [snd]; by eapply streams_trans.
  - rewrite text_of_app, T2, app_nil_r.
    destruct (usage c); cbn [fst stepText]; congruence.
Qed.

Lemma chunks_stream (step : N) (cs : list chunk) :
  ∀ (sv : step_vars) (g : gen),
    ∃ more,
      streams more g (fold_left (on_chunk step) cs (sv, g)).2
      ∧ stepText (fold_left (on_chunk step) cs (sv, g)).1
        = stepText sv ++ emitted_text more.
Proof.
  induction cs as [|c cs IH]; intros sv g; cbn [fold_left].
  - exists []. split; [apply streams_refl|]. cbn. by rewrite app_nil_r.
  - destruct (on_chunk_streams step sv g c) as (m1 & S1 & X1).
    destruct (on_chunk step (sv, g) c) as [sv1 g1]. cbn [fst snd] in *.
    destruct (IH sv1 g1) as (m2 & S2 & X2).
    exists (m1 ++ m2). split; [by eapply streams_trans|].
    by rewrite X2, X1, text_of_app, app_assoc.
Qed.

(** *** What running the tool calls does *)

Lemma execute_spec (calls : list tool_st) :
  ∀ (h : hist) (g : gen),
    ∃ rs cs ms,
      events (execute calls h g).1.2 = events g ++ (result_event <$> rs)
      ∧ aggregatedToolResults (execute calls h g).1.2
        = aggregatedToolResults g ++ rs
      ∧ promises (execute calls h g).1.2 = promises g
      ∧ messagesParam (execute calls h g).1.2 = messagesParam g
      ∧ lastStepPromptTokens (execute calls h g).1.2 = lastStepPromptTokens g
      ∧ lastStepCompletionTokens (execute calls h g).1.2
        = lastStepCompletionTokens g
      ∧ ((execute calls h g).2 = None →
         assistantToolCallsForHistory (execute calls h g).1.1
         = assistantToolCallsForHistory h ++ cs
         ∧ toolResultMessagesForHistory (execute calls h g).1.1
           = toolResultMessagesForHistory h ++ ms
         ∧ Forall2 answers cs ms
         ∧ length cs = length calls).
Proof.
  induction calls as [|call calls IH]; intros h g; cbn [Agent.execute].
  - exists [], [], []. cbn. rewrite !app_nil_r. repeat split. constructor.
  - destruct (dispatch _ _ _ _ _ _ _ _) as [[e|result] w'].
    + exists [], [], []. cbn. rewrite !app_nil_r. repeat split; done.
    + match goal with
      | |- context [Agent.execute _ _ _ _ _ _ _ _ _ calls ?h1 ?g1] =>
          destruct (IH h1 g1) as (rs & cs & ms & E & A & P & M & T & C & H);
          set (x := Agent.execute tools parse_args stringify_args
                      stringify_result arg_name arg_html arg_windowId
                      arg_title arg_mutations calls h1 g1) in *
      end.
      exists ((st_id call, default [] (st_name call), result) :: rs),
             ((st_id call, default [] (st_name call),
               stringify_args (parse_args (argsText call))) :: cs),
             (tool_message (st_id call) (stringify_result result) :: ms).
      cbn in E, A, P, M, T, C, H.
      rewrite E, A, P, M, T, C. cbn. rewrite <- !app_assoc. cbn.
      do 6 (split; [reflexivity|]).
      intros Hx. destruct (H Hx) as (H1 & H2 & H3 & H4).
      rewrite H1, H2, <- !app_assoc. cbn.
      split; [done|]. split; [done|]. split.
      * constructor; [by eexists | done].
      * by rewrite H4.
Qed.

(** *** One turn of the loop, by the way it is left *)

Lemma step_body_cases (step : N) (g : gen) :
  match (step_body step g).2 with
  | next =>
      ∃ more rs calls msgs,
        events (step_body step g).1
        = events g ++ more ++ (result_event <$> rs) ++ [finish_step]
        ∧ forallb streamed more = true
        ∧ aggregatedToolResults (step_body step g).1
          = aggregatedToolResults g ++ rs
        ∧ promises (step_body step g).1 = promises g
        ∧ messagesParam (step_body step g).1
          = messagesParam g ++ assistant_tool_calls calls :: msgs
        ∧ calls ≠ []
        ∧ Forall2 answers calls msgs
  | break =>
      ∃ more p c,
        events (step_body step g).1 = events g ++ more ++ [finish stop]
        ∧ forallb streamed more = true
        ∧ aggregatedToolResults (step_body step g).1 = aggregatedToolResults g
        ∧ messagesParam (step_body step g).1 = messagesParam g
        ∧ promises (step_body step g).1
          = resolve_usage (tokens p c)
              (resolve_text (emitted_text more) (promises g))
  | raise err =>
      ∃ more rs,
        events (step_body step g).1 = events g ++ more ++ (result_event <$> rs)
        ∧ forallb streamed more = true
        ∧ aggregatedToolResults (step_body step g).1
          = aggregatedToolResults g ++ rs
        ∧ messagesParam (step_body step g).1 = messagesParam g
        ∧ promises (step_body step g).1 = promises g
  end.
Proof.
  unfold Agent.step_body. cbv zeta.
  set (gb := {| events := events g; promises := promises g; world := world g;
                messagesParam := messagesParam g;
                finalTextForAllSteps := finalTextForAllSteps g;
                aggregatedToolResults := aggregatedToolResults g;
                lastStepPromptTokens := lastStepPromptTokens g;
                lastStepCompletionTokens := lastStepCompletionTokens g;
                requests := S (requests g) |}).
  destruct (create (requests g) (messagesParam gb)) as [err|chunks e].
  { cbn [fst snd]. exists [], []. cbn. by rewrite !app_nil_r. }
  destruct (chunks_stream step chunks
              {| toolState := []; stepText := []; stepUsageFromChunks := None |}
              gb) as (more & S1 & X1).
  destruct (fold_left _ chunks _) as [sv g1]. cbn [fst snd] in S1, X1.
  cbn [stepText app] in X1.
  destruct S1 as (E1 & F1 & P1 & _ & M1 & A1 & _).
  cbn [events promises messagesParam aggregatedToolResults gb] in E1, P1, M1, A1.
  destruct e as [final|err].
  2: { cbn [fst snd]. exists more, []. cbn. by rewrite !app_nil_r. }
  match goal with
  | |- context [record_usage ?u g1] => set (g2 := record_usage u g1)
  end.
  assert (U : events g2 = events g1 ∧ promises g2 = promises g1
              ∧ messagesParam g2 = messagesParam g1
              ∧ aggregatedToolResults g2 = aggregatedToolResults g1).
  { subst g2.
    match goal with |- context [record_usage ?u _] => destruct u end;
      by repeat split. }
  destruct U as (E2 & P2 & M2 & A2).
  destruct (toolCallsToExecute sv) as [|call calls] eqn:Hcalls.
  { cbn [fst snd]. exists more, (lastStepPromptTokens g2),
      (lastStepCompletionTokens g2).
    cbn. rewrite E2, E1, A2, A1, M2, M1, P2, P1, X1, <- app_assoc.
    repeat split; done. }
  destruct (execute_spec (call :: calls)
              {| assistantToolCallsForHistory := [];
                 toolResultMessagesForHistory := [] |} g2)
    as (rs & cs & ms & E3 & A3 & P3 & M3 & _ & _ & H3).
  destruct (Agent.execute _ _ _ _ _ _ _ _ _ (call :: calls) _ g2)
    as [[h g3] [err|]]; cbn [fst snd] in *.
  { exists more, rs.
    rewrite E3, E2, E1, A3, A2, A1, M3, M2, M1, P3, P2, P1, <- app_assoc.
    repeat split; done. }
  destruct (H3 eq_refl) as (H1 & H2 & HF & HL).
  exists more, rs, cs, ms. cbn.
  rewrite E3, E2, E1, A3, A2, A1, M3, M2, M1, P3, P2, P1, H1, H2.
  rewrite <- !app_assoc. cbn. repeat split; try done.
  intros ->. done.
Qed.

(** *** The loop *)

Lemma quiet_app (a b : list (event R)) :
  forallb (λ e, negb (is_finish e)) (a ++ b)
  = forallb (λ e, negb (is_finish e)) a && forallb (λ e, negb (is_finish e)) b.
Proof. apply forallb_app. Qed.

Lemma loop_outcome (n : nat) :
  ∀ (step : N) (g : gen),
    running g →
    match (loop n step g).2 with
    | Some err => running (loop n step g).1
    | None =>
        running (loop n step g).1
        ∨ ∃ evs t p c,
            events (loop n step g).1 = evs ++ [finish stop]
            ∧ forallb (λ e, negb (is_finish e)) evs = true
            ∧ aggregatedToolResults (loop n step g).1 = results_of evs
            ∧ promises (loop n step g).1
              = {| text := Some t; toolResults := None;
                   totalUsage := Some (tokens p c) |}
    end.
Proof.
  induction n as [|n IH]; intros step g Hg; cbn [Agent.loop]; [by left|].
  pose proof (step_body_cases step g) as Hs.
  destruct Hg as (Hq & Hp & Ha).
  destruct (step_body step g) as [g' [ | |err]]; cbn [fst snd] in *.
  - destruct Hs as (more & rs & calls & msgs & E & F & A & P & _).
    apply IH. unfold running. rewrite E, A, P, Ha.
    rewrite !quiet_app, !results_of_app, Hq, (quiet_streamed _ F),
      quiet_results, (results_of_streamed _ F), results_of_results.
    cbn. by rewrite app_nil_r.
  - right. destruct Hs as (more & p & c & E & F & A & _ & P).
    exists (events g ++ more), (emitted_text more), p, c.
    rewrite E, A, P, Hp, Ha, app_assoc.
    rewrite quiet_app, results_of_app, Hq, (quiet_streamed _ F),
      (results_of_streamed _ F), app_nil_r.
    done.
  - destruct Hs as (more & rs & E & F & A & _ & P).
    unfold running. rewrite E, A, P, Ha.
    rewrite !quiet_app, !results_of_app, Hq, (quiet_streamed _ F),
      quiet_results, (results_of_streamed _ F), results_of_results.
    done.
Qed.

Lemma initial_running (openaiMessagesBase : list message) (w : W) :
  running (initial openaiMessagesBase w : gen).
Proof. by repeat split. Qed.

(** X14.  A run ends in one of two ways.  Either its last event is the
    finish event of reason [length]; then the three promises are
    resolved, the usage with token counts, and the tool results promise
    lists the results of the tool-result events, in their order.  Or its
    last event is an error event; then no finish event came before it,
    and the promises are resolved with the empty text, no tool result
    (whatever tools ran before the failure) and no token count. *)
Theorem run_ends_one_way (openaiMessagesBase : list message) (w : W) :
  let g := runAgentStream openaiMessagesBase w in
  (∃ evs p c,
     events g = evs ++ [finish length_reason]
     ∧ toolResults (promises g) = Some (results_of evs)
     ∧ is_Some (text (promises g))
     ∧ totalUsage (promises g) = Some (tokens p c))
  ∨ (∃ evs err,
       events g = evs ++ [error_event err]
       ∧ forallb (λ e, negb (is_finish e)) evs = true
       ∧ promises g = {| text := Some []; toolResults := Some [];
                         totalUsage := Some no_tokens |}).
Proof.
  unfold Agent.runAgentStream. cbv zeta.
  pose proof (loop_outcome 12 0 _ (initial_running openaiMessagesBase w)) as H.
  destruct (loop 12 0 (initial openaiMessagesBase w)) as [g [err|]];
    cbn [fst snd] in H.
  - right. destruct H as (Hq & Hp & _).
    exists (events g), err. unfold on_error. cbn. rewrite Hp. done.
  - left. destruct H as [(Hq & Hp & Ha) | (evs & t & p & c & E & Hq & Ha & Hp)].
    + exists (events g), (lastStepPromptTokens g), (lastStepCompletionTokens g).
      unfold after_loop. cbn. rewrite Hp, Ha. cbn. by repeat split.
    + exists (events g), p, c.
      unfold after_loop. cbn. rewrite Hp, Ha, E. cbn.
      rewrite results_of_app. cbn. rewrite app_nil_r. by repeat split.
Qed.

(** X15.  When a turn calls no tool, the text promise resolves to the text
    deltas of that turn alone: the text streamed in the turns before it,
    which called tools, is not part of it. *)
Theorem stop_text_is_last_turn
    (openaiMessagesBase : list message) (w : W) (k : nat) (g_k g_stop : gen) :
  (k < 12)%nat →
  reaches k 0 (initial openaiMessagesBase w) g_k →
  step_body (N.of_nat k) g_k = (g_stop, break) →
  ∃ more,
    events g_stop = events g_k ++ more ++ [finish stop]
    ∧ forallb streamed more = true
    ∧ text (promises (runAgentStream openaiMessagesBase w))
      = Some (emitted_text more).
Proof.
  intros Hk Hr Hs.
  pose proof (step_body_cases (N.of_nat k) g_k) as Hc.
  rewrite Hs in Hc. cbn [fst snd] in Hc.
  destruct Hc as (more & p & c & E & F & _ & _ & P).
  exists more. split; [done|]. split; [done|].
  destruct (AgentFacts.reaches_spec tools create parse_args stringify_args
              stringify_result arg_name arg_html arg_windowId arg_title
              arg_mutations _ _ _ _ Hr) as (_ & Hp & _).
  unfold Agent.runAgentStream.
  replace 12%nat with (k + S (11 - k))%nat by lia.
  rewrite (AgentFacts.loop_reaches tools create parse_args stringify_args
             stringify_result arg_name arg_html arg_windowId arg_title
             arg_mutations k (S (11 - k)) _ _ _ Hr).
  cbn [Agent.loop]. replace (0 + N.of_nat k) with (N.of_nat k) by lia.
  rewrite Hs. unfold after_loop. cbn. rewrite P, Hp. done.
Qed.

(** X16.  The messages of the requests only grow, and by whole groups: a
    turn that goes on to the next one appends one assistant message with
    its tool calls and then, for each of these calls and in the same
    order, the tool message that answers it; a turn left in any other
    way appends nothing. *)
Theorem messages_grow_by_answered_calls (step : N) (g : gen) :
  match (step_body step g).2 with
  | next =>
      ∃ calls msgs,
        messagesParam (step_body step g).1
        = messagesParam g ++ assistant_tool_calls calls :: msgs
        ∧ calls ≠ []
        ∧ Forall2 answers calls msgs
  | _ => messagesParam (step_body step g).1 = messagesParam g
  end.
Proof.
  pose proof (step_body_cases step g) as H.
  destruct ((step_body step g).2).
  - destruct H as (more & rs & calls & msgs & _ & _ & _ & _ & M & Hne & HF).
    by exists calls, msgs.
  - by destruct H as (more & p & c & _ & _ & _ & M & _).
  - by destruct H as (more & rs & _ & _ & _ & M & _).
Qed.

End RunMore.

Lemma stop_text_is_last_turn_witness :
  text (promises (run_script (λ k _, if decide (k = 0)%nat
                                     then calling (js "Working. ")
                                     else answering (js "Done."))))
  = Some (js "Done.").
Proof.
  edestruct (stop_text_is_last_turn inert_tools
               (λ k _, if decide (k = 0)%nat then calling (js "Working. ")
                       else answering (js "Done."))
               (λ _, tt) (λ _, js "{}") (λ _, js "null")
               (λ _, []) (λ _, []) (λ _, []) (λ _, []) (λ _, [])
               [plain (js "user") (js "hi")] tt 1)
    as (more & E & _ & T).
  - lia.
  - cbn [Props.reaches]. eexists. split; [vm_compute; reflexivity|].
    reflexivity.
  - vm_compute. reflexivity.
  - unfold run_script. rewrite T. f_equal.
    assert (Hm : more = [text_delta (js "Done.")]).
    { revert E. vm_compute. intros E.
      repeat match type of E with
             | _ :: _ = _ :: _ => apply (f_equal tail) in E; cbn [tail] in E
             end.
      change ([?a; ?b] = ?r) with ([a] ++ [b] = r) in E.
      by apply app_inj_tail in E as [<- _]. }
    rewrite Hm. vm_compute. reflexivity.
Defined.

End AgentMore.

(* ===================================================================== *)
(** ** Closing a window, replacing its markup, previewing an edit         *)
(* ===================================================================== *)

Module CanvasFacts.
Import Tools Props Canvas Notions ToolsFacts.

(** *** [setWindowHtml] *)

Lemma find_other (nodeId other : jsstring) (f : node → node) (l : list node) :
  (∀ x, id (f x) = id x) →
  other ≠ nodeId →
  List.find (λ x, str_eqb (id x) other)
    ((λ x, if negb (str_eqb (id x) nodeId) then x else f x) <$> l)
  = List.find (λ x, str_eqb (id x) other) l.
Proof.
  intros Hf Hne. induction l as [|x l IH]; [done|].
  rewrite fmap_cons. cbn [List.find].
  destruct (decide (id x = nodeId)) as [Hx|Hx].
  - rewrite Hx, str_eqb_refl. cbn [negb]. rewrite Hf, Hx.
    rewrite (str_eqb_ne nodeId other) by congruence. apply IH.
  - rewrite (str_eqb_ne _ _ Hx). cbn [negb].
    destruct (str_eqb (id x) other); [done | apply IH].
Qed.

(** X17.  [setWindowHtml] reports the status [set] and the length of the
    decoded markup whether or not the window exists.  On an unknown
    window identifier it leaves the store as it is; on an existing
    window it stores the decoded markup for the node of the window and
    leaves the markup of every other node and the registries alone. *)
Theorem setWindowHtml_stores (st : store) (windowId html : jsstring) :
  let r := (setWindowHtml windowId html st).1 in
  let st' := (setWindowHtml windowId html st).2 in
  r = {| sh_status := js "set"; sh_windowId := windowId;
         htmlLength := N.of_nat (length (decodePossibleEscapes html)) |}
  ∧ (windowIdToNodeId st !! windowId = None → st' = st)
  ∧ (∀ n, existing_window st windowId n →
       stored_html st' (id n) = Some (decodePossibleEscapes html)
       ∧ (∀ other, other ≠ id n → stored_html st' other = stored_html st other)
       ∧ title <$> nodes st' = title <$> nodes st
       ∧ nameToNodeId st' = nameToNodeId st
       ∧ windowIdToNodeId st' = windowIdToNodeId st
       ∧ nodeIdToWindowId st' = nodeIdToWindowId st).
Proof.
  intros r st'. subst r st'. unfold setWindowHtml. cbv zeta.
  split; [by destruct (get_truthy _ _)|]. split.
  - intros H. by rewrite (get_truthy_None _ _ H).
  - intros n [Hw (before & after & Hn & Ho)]. rewrite Hw.
    cbn [snd nameToNodeId windowIdToNodeId nodeIdToWindowId nodes].
    split; [|split; [|split; [|done]]].
    + unfold stored_html. cbn [nodes]. rewrite Hn, fmap_app, fmap_cons.
      rewrite str_eqb_refl. cbn [negb].
      apply Forall_app in Ho as [Hb _].
      rewrite (find_node (id n) (with_html _ n)); [done | done |].
      clear -Hb. induction Hb as [|x l Hx _ IH]; [constructor|].
      rewrite fmap_cons, (str_eqb_ne _ _ Hx). cbn [negb].
      by constructor.
    + intros other Hne. unfold stored_html. cbn [nodes]. f_equal.
      by apply find_other.
    + rewrite <- list_fmap_compose. apply list_fmap_ext. intros i x _. cbn.
      by destruct (negb (str_eqb (id x) (id n))).
Qed.

Lemma setWindowHtml_stores_witness :
  let st' := (setWindowHtml (js "w1") (js "<p>a\nb</p>")
                (one_window (js "T") (js "x"))).2 in
  stored_html st' (js "n1") = Some (js "<p>a" ++ [10] ++ js "b</p>").
Proof.
  intros st'.
  destruct (setWindowHtml_stores (one_window (js "T") (js "x"))
              (js "w1") (js "<p>a\nb</p>")) as (_ & _ & H).
  destruct (H _ (one_window_exists (js "T") (js "x"))) as (Hs & _).
  cbn [id] in Hs. fold st' in Hs. rewrite Hs. vm_compute. reflexivity.
Defined.

(** *** [handleDelete] *)

Lemma get_truthy_Some (m : gmap jsstring jsstring) (k v : jsstring) :
  get_truthy m k = Some v ↔ m !! k = Some v ∧ v ≠ [].
Proof.
  unfold get_truthy. destruct (m !! k) as [x|]; [|by split; [|intros []]].
  destruct x as [|c x]; cbn [truthy].
  - split; [done|]. by intros [[= <-] ?].
  - split; [by intros [= <-] | by intros [[= <-] _]].
Qed.

Section Closing.
Context `{dom : DomApi}.

(** X18.  Closing the node of a window takes the window out of both
    registries of identifiers and the node off the canvas.  From then on
    the three tools that take a window identifier leave the store as it
    is when they are given that of the closed window, [domReplace]
    under either dispatch.  The focus is not moved: a closed window that
    had it is still named as the focused one. *)
Theorem handleDelete_closes_window (d : dispatch) (st : store)
    (nodeId w : jsstring) (mutations : list DomMutation) (t h : jsstring) :
  get_truthy (nodeIdToWindowId st) nodeId = Some w →
  let st' := handleDelete nodeId st in
  windowIdToNodeId st' !! w = None
  ∧ nodeIdToWindowId st' !! nodeId = None
  ∧ Forall (λ x, id x ≠ nodeId) (nodes st')
  ∧ (domReplace d w mutations st').2 = st'
  ∧ totalApplied (totals (domReplace d w mutations st').1) = 0
  ∧ (updateWindowTitle w t st').2 = st'
  ∧ (setWindowHtml w h st').2 = st'
  ∧ focusedWindowId st' = focusedWindowId st.
Proof.
  intros Hw st'.
  assert (H1 : windowIdToNodeId st' !! w = None).
  { subst st'. unfold handleDelete. cbn [windowIdToNodeId]. rewrite Hw.
    apply lookup_delete_eq. }
  pose proof (get_truthy_None _ _ H1) as Hg.
  split; [done|]. split.
  { subst st'. unfold handleDelete. cbn [nodeIdToWindowId]. rewrite Hw.
    apply lookup_delete_eq. }
  split.
  { subst st'. cbn [handleDelete nodes]. apply list.Forall_forall.
    intros x Hx. by apply list_elem_of_filter in Hx as [Hx _]. }
  unfold domReplace, updateWindowTitle, setWindowHtml. cbv zeta.
  rewrite Hg. done.
Qed.

(** X19.  Every handler that works on the store keeps the two registries
    of window identifiers in agreement: where they agree before a call
    of [domReplace] (under either dispatch), [updateWindowTitle],
    [setWindowHtml], [handleDelete], [updateIframeThrottled] or
    [applyPreviewDomReplace], they agree after it. *)
Theorem handlers_keep_ids_agree (d : dispatch) (st : store)
    (windowId nodeId text : jsstring)
    (mutations : list DomMutation) (captured : list node) (s : session) :
  ids_agree st →
  ids_agree (domReplace d windowId mutations st).2
  ∧ ids_agree (updateWindowTitle windowId text st).2
  ∧ ids_agree (setWindowHtml windowId text st).2
  ∧ ids_agree (handleDelete nodeId st)
  ∧ ids_agree (updateIframeThrottled nodeId text st)
  ∧ ids_agree (applyPreviewDomReplace captured windowId mutations s st).2.
Proof.
  intros Ha. repeat split.
  - unfold domReplace. destruct (get_truthy _ windowId); [|done].
    destruct d; [|done]. by destruct (domReplace_updater _ _ _).
  - unfold updateWindowTitle. by destruct (get_truthy _ windowId).
  - unfold setWindowHtml. cbv zeta. by destruct (get_truthy _ windowId).
  - unfold handleDelete, ids_agree.
    cbn [nodeIdToWindowId windowIdToNodeId].
    destruct (get_truthy (nodeIdToWindowId st) nodeId) as [w|] eqn:Hw;
      [|exact Ha].
    apply get_truthy_Some in Hw as [Hw _].
    intros n w' Hn. apply lookup_delete_Some in Hn as [Hne Hn].
    apply lookup_delete_Some. split; [|by apply Ha].
    intros ->. apply Ha in Hw, Hn. congruence.
  - done.
  - unfold applyPreviewDomReplace. by destruct (get_truthy _ windowId).
Qed.

End Closing.

Lemma handleDelete_closes_window_witness :
  let st' := handleDelete (js "n1") (one_window (js "T") (js "x")) in
  windowIdToNodeId st' !! js "w1" = None
  ∧ nodes st' = []
  ∧ focusedWindowId st' = Some (js "w1").
Proof.
  intros st'.
  destruct (@handleDelete_closes_window MiniDom queued
              (one_window (js "T") (js "x")) (js "n1") (js "w1") [] [] [])
    as (H1 & _ & _ & _ & _ & _ & _ & H8).
  { vm_compute. reflexivity. }
  split; [exact H1|]. split; [vm_compute; reflexivity|].
  fold st' in H8. rewrite H8. reflexivity.
Defined.

Lemma handlers_keep_ids_agree_witness :
  ids_agree (one_window (js "T") (js "x"))
  ∧ ids_agree (handleDelete (js "n1") (one_window (js "T") (js "x"))).
Proof.
  assert (Ha : ids_agree (one_window (js "T") (js "x"))).
  { unfold ids_agree, one_window. cbn [nodeIdToWindowId windowIdToNodeId].
    intros n w [<- <-]%lookup_singleton_Some. apply lookup_singleton_eq. }
  split; [exact Ha|].
  exact (proj1 (proj2 (proj2 (proj2
           (@handlers_keep_ids_agree MiniDom queued _ [] (js "n1") [] [] []
              {| baseHtml := None; currentHtml := None |} Ha))))).
Defined.

(** X20.  Making a window on a fresh node and closing it again puts the
    four registries back as they were; the other nodes stay on the
    canvas, deselected, and the focus still names the window that is
    gone.  (A window with the empty name is the exception the hypothesis
    leaves out: closing it does not free the name.) *)
Theorem create_then_close (name html : jsstring) (e e' : env)
    (st st1 : store) (r : CreateNewWindowResult) :
  createNewWindow name html e st = Some (r, st1, e') →
  get_truthy (provisionalNameToNodeId st) name = None →
  finalName r ≠ [] →
  nodeIdToName st !! nodeId r = None →
  nodeIdToWindowId st !! nodeId r = None →
  Forall (λ x, id x ≠ nodeId r) (nodes st) →
  let st2 := handleDelete (nodeId r) st1 in
  nameToNodeId st2 = nameToNodeId st
  ∧ nodeIdToName st2 = nodeIdToName st
  ∧ windowIdToNodeId st2 = windowIdToNodeId st
  ∧ nodeIdToWindowId st2 = nodeIdToWindowId st
  ∧ nodes st2 = deselect <$> nodes st
  ∧ focusedWindowId st2 = Some (windowId r).
Proof.
  intros H Hprov Hfn Hn1 Hn2 Hnodes st2. subst st2.
  unfold createNewWindow in H.
  destruct (unique_name (nameToNodeId st) name) as [fn|] eqn:Hu; [|done].
  cbn [mbind option_bind] in H.
  destruct (fresh_windowId (draws e) (windowIdToNodeId st))
    as [[w ds]|] eqn:Hw; [|done].
  cbn [mbind option_bind] in H. rewrite Hprov in H.
  destruct ds as [|d ds]; [done|].
  remember (js "iframe-" ++ of_N (now e) ++ js "-" ++ d) as newId eqn:Hid.
  injection H as <- <- <-. cbn [nodeId finalName windowId] in *.
  assert (Hfree : nameToNodeId st !! fn = None).
  { unfold unique_name in Hu.
    by apply ToolsMore.unique_name_loop_result in Hu as [Hu _]. }
  assert (Hwfree : windowIdToNodeId st !! w = None).
  { by apply fresh_windowId_unused in Hw. }
  assert (Hwt : w ≠ []).
  { clear -Hw. revert Hw. generalize (draws e). intros l.
    induction l as [|x l IH]; cbn [fresh_windowId]; [done|].
    destruct (map_has _ _); [exact IH|]. by intros [= <- _]. }
  unfold handleDelete.
  cbn [nodeIdToName nodeIdToWindowId nameToNodeId windowIdToNodeId nodes
       focusedWindowId].
  assert (G1 : get_truthy (<[newId := fn]> (nodeIdToName st)) newId = Some fn).
  { apply get_truthy_Some. by rewrite lookup_insert_eq. }
  assert (G2 : get_truthy (<[newId := w]> (nodeIdToWindowId st)) newId = Some w).
  { apply get_truthy_Some. by rewrite lookup_insert_eq. }
  rewrite G1, G2, !delete_insert_id by done.
  repeat split.
  rewrite list.filter_app, filter_cons, filter_nil.
  rewrite decide_False by (cbn; intros Hx; by apply Hx).
  rewrite app_nil_r. clear -Hnodes.
  induction Hnodes as [|x l Hx _ IH]; [done|].
  rewrite fmap_cons, filter_cons, decide_True by done. by rewrite IH.
Qed.

Lemma create_then_close_witness :
  ∃ r st1 e',
    createNewWindow (js "Notes") (js "<p>1</p>")
      {| draws := [js "a1b2c3"; js "q1q1q1"]; now := 1700000000000 |}
      (one_window (js "T") (js "x")) = Some (r, st1, e')
    ∧ nameToNodeId (handleDelete (nodeId r) st1)
      = nameToNodeId (one_window (js "T") (js "x"))
    ∧ windowIdToNodeId (handleDelete (nodeId r) st1)
      = windowIdToNodeId (one_window (js "T") (js "x")).
Proof.
  eexists _, _, _. split; [vm_compute; reflexivity|].
  lazymatch goal with
  | |- nameToNodeId (handleDelete (nodeId ?r) ?st1) = _ ∧ _ =>
      edestruct (create_then_close (js "Notes") (js "<p>1</p>")
                   {| draws := [js "a1b2c3"; js "q1q1q1"];
                      now := 1700000000000 |}
                   {| draws := []; now := 1700000000000 |}
                   (one_window (js "T") (js "x")) st1 r)
        as (H1 & _ & H3 & _)
  end.
  - vm_compute. reflexivity.
  - vm_compute. reflexivity.
  - vm_compute. discriminate.
  - vm_compute. reflexivity.
  - vm_compute. reflexivity.
  - repeat constructor. vm_compute. discriminate.
  - split; [exact H1 | exact H3].
Defined.

(** *** The preview of [dom_replace] *)

Section Preview.
Context `{dom : DomApi}.




End Preview.


End CanvasFacts.

(* ===================================================================== *)
(** ** The settings in the browser storage                                *)
(* ===================================================================== *)

Module SettingsFacts.
Import Values Utils Dialog Settings.

(** *** Properties of an object *)

Lemma own_set_own (k k' : jsstring) (x : value) (fields : list (jsstring * value)) :
  own (set_own k x fields) k' = if str_eqb k k' then Some x else own fields k'.
Proof.
  induction fields as [|[k0 v] fields IH]; cbn [set_own own].
  - by destruct (str_eqb k k').
  - destruct (str_eqb k0 k) eqn:E0.
    + unfold str_eqb in E0. apply bool_decide_eq_true in E0. subst k0.
      cbn [own]. by destruct (str_eqb k k').
    + cbn [own]. rewrite IH.
      destruct (str_eqb k0 k') eqn:E1; [|done].
      unfold str_eqb in *. apply bool_decide_eq_true in E1. subst k0.
      apply bool_decide_eq_false in E0.
      by rewrite bool_decide_eq_false_2 by congruence.
Qed.

Lemma own_delete_own (k k' : jsstring) (fields : list (jsstring * value)) :
  own (delete_own k fields) k' = if str_eqb k k' then None else own fields k'.
Proof.
  unfold delete_own.
  induction fields as [|[k0 v] fields IH]; cbn [own].
  - by destruct (str_eqb k k').
  - rewrite filter_cons. cbn [fst].
    destruct (decide (k0 ≠ k)) as [Hne|Heq].
    + cbn [own]. rewrite IH.
      destruct (str_eqb k0 k') eqn:E1; [|done].
      unfold str_eqb in *. apply bool_decide_eq_true in E1. subst k0.
      by rewrite bool_decide_eq_false_2 by congruence.
    + apply dec_stable in Heq. subst k0. rewrite IH.
      unfold str_eqb. by destruct (bool_decide (k = k')).
Qed.

Lemma provider_name_inj (p q : AIProvider) :
  provider_name p = provider_name q → p = q.
Proof. destruct p, q; first [done | intros H; by vm_compute in H]. Qed.

Lemma name_eqb (p q : AIProvider) :
  str_eqb (provider_name p) (provider_name q) = bool_decide (p = q).
Proof.
  unfold str_eqb. apply bool_decide_ext. split; [apply provider_name_inj|].
  by intros ->.
Qed.

Section WithJson.
Context `{json : JsonApi}.

(** *** Reading and writing a map *)

Lemma stored_entry_holds (ls : Storage) (key : jsstring) (p : AIProvider)
    (fields : list (jsstring * value)) :
  denied ls = false →
  holds ls key fields →
  stored_entry key p ls
  = or_else (default VUndefined (own fields (provider_name p))) VNull.
Proof.
  intros Hd Hh. unfold stored_entry, getItem, holds in *. rewrite Hd.
  destruct (items ls !! key) as [[|c raw]|]; cbn; try by subst fields.
  by rewrite Hh.
Qed.

Lemma stored_entry_ext (ls1 ls2 : Storage) (key : jsstring) (p : AIProvider) :
  denied ls1 = denied ls2 →
  items ls1 !! key = items ls2 !! key →
  stored_entry key p ls1 = stored_entry key p ls2.
Proof. intros Hd Hi. unfold stored_entry, getItem. by rewrite Hd, Hi. Qed.

Lemma store_entry_frame (ls : Storage) (key : jsstring) (p : AIProvider)
    (x : jsstring) :
  denied (store_entry key p x ls) = denied ls
  ∧ refuses (store_entry key p x ls) = refuses ls
  ∧ ∀ key', key' ≠ key →
            items (store_entry key p x ls) !! key' = items ls !! key'.
Proof.
  unfold store_entry, getItem, setItem.
  destruct (denied ls) eqn:Hd; [done|].
  destruct (if Agent.truthy_opt (items ls !! key) then _ else _) as [e|map];
    [done|].
  destruct (assign map _ _) as [e|map']; [done|].
  destruct (refuses ls key _); [done|]. cbn.
  split; [done|]. split; [done|].
  intros key' Hne. by rewrite lookup_insert_ne.
Qed.

Lemma store_entry_holds (ls : Storage) (key : jsstring) (p : AIProvider)
    (x : jsstring) (fields : list (jsstring * value)) :
  denied ls = false →
  holds ls key fields →
  writes_back ls key (set_own (provider_name p) (VStr x) fields) →
  holds (store_entry key p x ls) key
    (set_own (provider_name p) (VStr x) fields).
Proof.
  intros Hd Hh (text & Hs & Ht & Hr & Hp).
  unfold store_entry, getItem, setItem, holds in *. rewrite Hd.
  assert (Hmap : (if Agent.truthy_opt (items ls !! key)
                  then JSON_parse (default [] (items ls !! key))
                  else Returns (VObj [])) = Returns (VObj fields)).
  { destruct (items ls !! key) as [[|c raw]|]; cbn; by subst. }
  rewrite Hmap. cbn [assign]. rewrite Hs. change (default _ (Some text)) with text.
  rewrite Hr.
  cbn [items]. rewrite lookup_insert_eq.
  destruct text as [|c text]; [done | exact Hp].
Qed.

(** X22.  A key that [setApiKey] has stored is the key that [getApiKey]
    gives for the provider (the empty key reads as [null]), and the keys
    of the other providers and the selected provider read as before.
    This holds when the storage allows the access, the entry of the keys
    is missing or holds an object, and the object with the new key can
    be written and read back. *)
Theorem setApiKey_then_getApiKey (ls : Storage) (p : AIProvider)
    (key : jsstring) (fields : list (jsstring * value)) :
  denied ls = false →
  holds ls LOCAL_STORAGE_API_KEYS fields →
  writes_back ls LOCAL_STORAGE_API_KEYS
    (set_own (provider_name p) (VStr key) fields) →
  let ls' := setApiKey p key ls in
  getApiKey p ls' = (if Tools.truthy key then VStr key else VNull)
  ∧ (∀ q, q ≠ p → getApiKey q ls' = getApiKey q ls)
  ∧ getSelectedProvider ls' = getSelectedProvider ls.
Proof.
  intros Hd Hh Hw ls'. subst ls'. unfold setApiKey, getApiKey.
  pose proof (store_entry_holds _ _ p key _ Hd Hh Hw) as Hh'.
  destruct (store_entry_frame ls LOCAL_STORAGE_API_KEYS p key)
    as (Hd' & _ & Hi').
  rewrite Hd in Hd'.
  split; [|split].
  - rewrite (stored_entry_holds _ _ p _ Hd' Hh'), own_set_own, name_eqb.
    rewrite bool_decide_eq_true_2 by done. cbn. by destruct key.
  - intros q Hq.
    rewrite (stored_entry_holds _ _ q _ Hd' Hh'),
            (stored_entry_holds _ _ q _ Hd Hh), own_set_own, name_eqb.
    by rewrite bool_decide_eq_false_2 by congruence.
  - unfold getSelectedProvider, getItem. rewrite Hd', Hd.
    by rewrite Hi' by (vm_compute; discriminate).
Qed.

(** *** Deleting a key *)

Lemma deleteApiKey_holds (ls : Storage) (p : AIProvider)
    (fields : list (jsstring * value)) :
  denied ls = false →
  holds ls LOCAL_STORAGE_API_KEYS fields →
  deleteApiKey p ls
  = match own fields (provider_name p) with
    | Some _ => forget_key p fields ls
    | None => ls
    end.
Proof.
  intros Hd Hh. unfold deleteApiKey, getItem, holds in *. rewrite Hd.
  destruct (items ls !! LOCAL_STORAGE_API_KEYS) as [[|c raw]|]; cbn;
    try by subst fields.
  rewrite Hh. cbn [has_member].
  by destruct (own fields (provider_name p)).
Qed.

Lemma delete_own_all (k k' : jsstring) (fields : list (jsstring * value)) :
  delete_own k fields = [] → k ≠ k' → own fields k' = None.
Proof.
  intros He Hne. pose proof (own_delete_own k k' fields) as H.
  rewrite He in H. cbn [own] in H.
  by rewrite (ToolsFacts.str_eqb_ne k k') in H by done.
Qed.

(** X23.  After [deleteApiKey] the provider has no key; the other
    providers keep theirs.  When the provider had an entry in the map,
    it is no longer the selected provider, and when that entry was the
    last one, both the map and the selection are removed, whichever
    provider was selected.  When it had none, nothing changes.  This
    holds when the storage allows the access, the entry of the keys is
    missing or holds an object, and what is left of the object can be
    written and read back. *)
Theorem deleteApiKey_forgets (ls : Storage) (p : AIProvider)
    (fields : list (jsstring * value)) :
  denied ls = false →
  holds ls LOCAL_STORAGE_API_KEYS fields →
  (delete_own (provider_name p) fields ≠ [] →
   writes_back ls LOCAL_STORAGE_API_KEYS (delete_own (provider_name p) fields)) →
  let ls' := deleteApiKey p ls in
  getApiKey p ls' = VNull
  ∧ (∀ q, q ≠ p → getApiKey q ls' = getApiKey q ls)
  ∧ (is_Some (own fields (provider_name p)) →
     getSelectedProvider ls' ≠ Some (provider_name p))
  ∧ (is_Some (own fields (provider_name p)) →
     delete_own (provider_name p) fields = [] →
     items ls' = delete LOCAL_STORAGE_PROVIDER
                   (delete LOCAL_STORAGE_API_KEYS (items ls)))
  ∧ (own fields (provider_name p) = None → ls' = ls).
Proof.
  intros Hd Hh Hw ls'. subst ls'.
  rewrite (deleteApiKey_holds ls p fields Hd Hh).
  assert (Hread : ∀ q, getApiKey q ls
            = or_else (default VUndefined (own fields (provider_name q))) VNull).
  { intros q. by apply stored_entry_holds. }
  destruct (own fields (provider_name p)) as [v|] eqn:Hown.
  2: { split; [by rewrite Hread, Hown|]. split; [done|].
       split; [by intros [? ?]|]. split; [by intros [? ?] | done]. }
  unfold forget_key. cbv zeta.
  destruct (delete_own (provider_name p) fields) as [|kv rest] eqn:Hrest.
  - unfold removeItem. rewrite Hd. cbn [denied].
    assert (Hnone : ∀ q, getApiKey q
              {| items := delete LOCAL_STORAGE_PROVIDER
                            (delete LOCAL_STORAGE_API_KEYS (items ls));
                 denied := false; refuses := refuses ls |} = VNull).
    { intros q. unfold getApiKey, stored_entry, getItem. cbn [denied items].
      rewrite lookup_delete_ne by (vm_compute; discriminate).
      by rewrite lookup_delete_eq. }
    split; [apply Hnone|]. split.
    { intros q Hq. rewrite Hnone, Hread.
      rewrite (delete_own_all _ (provider_name q) _ Hrest); [done|].
      intros E. by apply provider_name_inj in E. }
    split.
    { intros _. unfold getSelectedProvider, getItem. cbn [denied items].
      by rewrite lookup_delete_eq. }
    split; done.
  - destruct (Hw ltac:(done)) as (text & Hs & Ht & Hr & Hp).
    rewrite Hs. change (default _ (Some text)) with text.
    unfold setItem. rewrite Hd, Hr.
    set (ls1 := {| items := <[LOCAL_STORAGE_API_KEYS := text]> (items ls);
                   denied := false; refuses := refuses ls |}).
    assert (Hh1 : ∀ ls2, denied ls2 = false →
              items ls2 !! LOCAL_STORAGE_API_KEYS = Some text →
              ∀ q, getApiKey q ls2
                   = or_else (default VUndefined
                                (own (kv :: rest) (provider_name q))) VNull).
    { intros ls2 Hd2 Hi2 q. apply stored_entry_holds; [done|].
      unfold holds. rewrite Hi2. by destruct text. }
    assert (Hafter : ∀ ls2, denied ls2 = false →
              items ls2 !! LOCAL_STORAGE_API_KEYS = Some text →
              getApiKey p ls2 = VNull
              ∧ ∀ q, q ≠ p → getApiKey q ls2 = getApiKey q ls).
    { intros ls2 Hd2 Hi2. split.
      - rewrite (Hh1 ls2 Hd2 Hi2), <- Hrest, own_delete_own.
        by rewrite ToolsFacts.str_eqb_refl.
      - intros q Hq. rewrite (Hh1 ls2 Hd2 Hi2), Hread, <- Hrest, own_delete_own.
        rewrite ToolsFacts.str_eqb_ne; [done|].
        intros E. by apply provider_name_inj in E. }
    destruct (bool_decide (getSelectedProvider ls1 = Some (provider_name p)))
      eqn:Hsel.
    + unfold removeItem. cbn [denied ls1 items].
      set (ls2 := {| items := delete LOCAL_STORAGE_PROVIDER
                                (<[LOCAL_STORAGE_API_KEYS := text]> (items ls));
                     denied := false; refuses := refuses ls |}).
      destruct (Hafter ls2 eq_refl) as [H1 H2].
      { subst ls2. cbn [items].
        rewrite lookup_delete_ne by (vm_compute; discriminate).
        apply lookup_insert_eq. }
      split; [done|]. split; [done|]. split; [|split; done].
      intros _. unfold getSelectedProvider, getItem. subst ls2.
      cbn [denied items]. by rewrite lookup_delete_eq.
    + destruct (Hafter ls1 eq_refl) as [H1 H2].
      { subst ls1. cbn [items]. apply lookup_insert_eq. }
      split; [done|]. split; [done|]. split; [|split; done].
      intros _. by apply bool_decide_eq_false in Hsel.
Qed.

(** X24.  An entry of keys that is of no use stays so: when the storage
    denies access, or the entry holds a text that is not JSON or the
    JSON of something that is neither an object nor an array,
    [getApiKey] gives [null] for every provider, and neither [setApiKey]
    nor [deleteApiKey] changes the storage.  No call repairs the
    entry. *)
Theorem unusable_entry_stays (ls : Storage) (p : AIProvider) (key : jsstring) :
  unusable ls LOCAL_STORAGE_API_KEYS →
  getApiKey p ls = VNull
  ∧ setApiKey p key ls = ls
  ∧ deleteApiKey p ls = ls.
Proof.
  unfold getApiKey, setApiKey, deleteApiKey, stored_entry, store_entry, getItem.
  intros [Hd | (c & raw & Hi & Hp)].
  - by rewrite Hd.
  - destruct (denied ls); [done|]. rewrite Hi. cbn.
    destruct (JSON_parse (c :: raw)) as [e|v]; [done|].
    by destruct v.
Qed.

End WithJson.

Lemma setApiKey_then_getApiKey_witness :
  let ls := open_storage [(LOCAL_STORAGE_API_KEYS, jq "{'openai':'sk-1'}")] in
  let ls' := @setApiKey MiniJson anthropic (js "sk-ant-2") ls in
  @getApiKey MiniJson anthropic ls' = VStr (js "sk-ant-2")
  ∧ @getApiKey MiniJson openai ls' = VStr (js "sk-1").
Proof.
  intros ls ls'.
  destruct (@setApiKey_then_getApiKey MiniJson ls anthropic (js "sk-ant-2")
              [(js "openai", VStr (js "sk-1"))]) as (H1 & H2 & _).
  - reflexivity.
  - vm_compute. reflexivity.
  - exists (jq "{'openai':'sk-1','anthropic':'sk-ant-2'}").
    repeat split; vm_compute; first [reflexivity | discriminate].
  - split; [exact H1|]. fold ls' in H2. rewrite (H2 openai) by discriminate.
    vm_compute. reflexivity.
Defined.

Lemma deleteApiKey_forgets_witness :
  let ls := open_storage
              [(LOCAL_STORAGE_API_KEYS, jq "{'openai':'sk-1'}");
               (LOCAL_STORAGE_PROVIDER, js "anthropic")] in
  let ls' := @deleteApiKey MiniJson openai ls in
  @getApiKey MiniJson openai ls' = VNull
  ∧ items ls' !! LOCAL_STORAGE_PROVIDER = None.
Proof.
  intros ls ls'.
  destruct (@deleteApiKey_forgets MiniJson ls openai
              [(js "openai", VStr (js "sk-1"))]) as (H1 & _ & _ & H4 & _).
  - reflexivity.
  - vm_compute. reflexivity.
  - intros H. exfalso. apply H. vm_compute. reflexivity.
  - split; [exact H1|]. subst ls'.
    rewrite H4; [apply lookup_delete_eq | by eexists | vm_compute; reflexivity].
Defined.

Lemma unusable_entry_stays_witness :
  let ls := open_storage [(LOCAL_STORAGE_API_KEYS, js "null")] in
  @setApiKey MiniJson openai (js "sk-1") ls = ls
  ∧ @getApiKey MiniJson openai ls = VNull.
Proof.
  intros ls.
  destruct (@unusable_entry_stays MiniJson ls openai (js "sk-1"))
    as (H1 & H2 & _).
  - right. exists 110, (js "ull"). split; vm_compute; [reflexivity | exact I].
  - split; [exact H2 | exact H1].
Defined.

(** *** Saving from the dialog *)

Section Saving.
Context `{json : JsonApi}.

Lemma getSelectedProvider_ext (ls1 ls2 : Storage) :
  denied ls1 = denied ls2 →
  items ls1 !! LOCAL_STORAGE_PROVIDER = items ls2 !! LOCAL_STORAGE_PROVIDER →
  getSelectedProvider ls1 = getSelectedProvider ls2.
Proof. intros Hd Hi. unfold getSelectedProvider, getItem. by rewrite Hd, Hi. Qed.

(** X25.  [handleSave] does nothing when the provider has no key yet and
    the field is blank.  With a key in the field it selects the
    provider and stores the trimmed key for it, so that
    [getSelectedProvider] and [getApiKey] then give the two values a run
    starts from, and it hands the pair to [onSave]; storing the model
    afterwards does not disturb them.  The second part holds when the
    storage allows the access and accepts the provider name, the entry
    of the keys is missing or holds an object, and the object with the
    new key can be written and read back. *)
Theorem handleSave_saves (ls : Storage) (d : state) (existingKey : value)
    (fields : list (jsstring * value)) :
  (truthy_value existingKey = false → trim (apiKeyValue d) = [] →
   handleSave d existingKey ls = (ls, None))
  ∧ (trim (apiKeyValue d) ≠ [] →
     denied ls = false →
     refuses ls LOCAL_STORAGE_PROVIDER (provider_name (provider d)) = false →
     holds ls LOCAL_STORAGE_API_KEYS fields →
     writes_back ls LOCAL_STORAGE_API_KEYS
       (set_own (provider_name (provider d))
          (VStr (trim (apiKeyValue d))) fields) →
     getSelectedProvider (handleSave d existingKey ls).1
     = Some (provider_name (provider d))
     ∧ getApiKey (provider d) (handleSave d existingKey ls).1
       = VStr (trim (apiKeyValue d))
     ∧ (handleSave d existingKey ls).2
       = Some (provider d, VStr (trim (apiKeyValue d)))).
Proof.
  unfold handleSave. cbv zeta. split.
  { intros -> ->. done. }
  intros Hne Hd Hr Hh Hw.
  set (entered := trim (apiKeyValue d)) in *.
  assert (Ht : Tools.truthy entered = true) by (by destruct entered).
  rewrite Ht, andb_false_r. cbn [fst snd]. unfold or_else.
  cbn [truthy_value]. rewrite ?Ht.
  set (ls1 := setSelectedProvider (provider d) ls).
  assert (H1 : denied ls1 = false ∧ refuses ls1 = refuses ls
               ∧ items ls1 = <[LOCAL_STORAGE_PROVIDER :=
                                 provider_name (provider d)]> (items ls)).
  { subst ls1. unfold setSelectedProvider, setItem. by rewrite Hd, Hr. }
  destruct H1 as (Hd1 & Hr1 & Hi1).
  assert (Hh1 : holds ls1 LOCAL_STORAGE_API_KEYS fields).
  { unfold holds in *. rewrite Hi1.
    by rewrite lookup_insert_ne by (vm_compute; discriminate). }
  assert (Hw1 : writes_back ls1 LOCAL_STORAGE_API_KEYS
                  (set_own (provider_name (provider d)) (VStr entered) fields)).
  { unfold writes_back in *. by rewrite Hr1. }
  set (ls2 := setApiKey (provider d) entered ls1).
  pose proof (store_entry_holds _ _ (provider d) entered _ Hd1 Hh1 Hw1) as Hh2.
  destruct (store_entry_frame ls1 LOCAL_STORAGE_API_KEYS (provider d) entered)
    as (Hd2 & _ & Hi2).
  fold (setApiKey (provider d) entered ls1) in Hh2, Hd2, Hi2.
  fold ls2 in Hh2, Hd2, Hi2. rewrite Hd1 in Hd2.
  assert (Hkey : getApiKey (provider d) ls2 = VStr entered).
  { unfold getApiKey.
    rewrite (stored_entry_holds _ _ (provider d) _ Hd2 Hh2), own_set_own.
    rewrite ToolsFacts.str_eqb_refl.
    change (default _ (Some ?v)) with v. unfold or_else.
    cbn [truthy_value]. by rewrite Ht. }
  assert (Hsel : getSelectedProvider ls2 = Some (provider_name (provider d))).
  { unfold getSelectedProvider, getItem. rewrite Hd2.
    rewrite Hi2 by (vm_compute; discriminate). rewrite Hi1, lookup_insert_eq.
    by destruct (provider d). }
  destruct (Tools.truthy (modelId d)); [|done].
  destruct (store_entry_frame ls2 LOCAL_STORAGE_SELECTED_MODELS (provider d)
              (modelId d)) as (Hd3 & _ & Hi3).
  fold (setSelectedModel (provider d) (modelId d) ls2) in Hd3, Hi3.
  split; [|split; [|done]].
  - rewrite <- Hsel. apply getSelectedProvider_ext; [done|].
    apply Hi3. vm_compute. discriminate.
  - rewrite <- Hkey. apply stored_entry_ext; [done|].
    apply Hi3. vm_compute. discriminate.
Qed.

(** X26.  A run never starts without a model: the model asked for, else
    the model stored for the provider, else the default of the provider,
    and the result is never empty.  With no model stored the default is
    used; but the default of [anthropic] is none of the models that
    [MODEL_OPTIONS] lists for it: only [openai] has its default among
    its options. *)
Theorem model_is_resolved (model : option jsstring) (p : AIProvider)
    (ls : Storage) :
  truthy_value (resolve_model model p ls) = true
  ∧ (items ls !! LOCAL_STORAGE_SELECTED_MODELS = None →
     resolve_model None p ls = VStr (getDefaultModel p))
  ∧ (∀ options, MODEL_OPTIONS p = Some options →
       (getDefaultModel p ∈ options.*1 ↔ p = openai)).
Proof.
  split; [|split].
  - unfold resolve_model. cbv zeta.
    destruct model as [[|c m]|]; cbn [Agent.truthy_opt]; try done;
      unfold or_else;
      destruct (truthy_value (getSelectedModel p ls)) eqn:E; try done;
      by destruct p.
  - intros Hi. unfold resolve_model, getSelectedModel, stored_entry, getItem.
    cbn [Agent.truthy_opt]. rewrite Hi. by destruct (denied ls).
  - intros options Ho.
    destruct p; cbn in Ho; try discriminate; injection Ho as <-.
    + split; [done|]. intros _. apply (bool_decide_unpack _). vm_compute. exact I.
    + split; [|done]. intros Hin. exfalso. revert Hin.
      apply (bool_decide_unpack _). vm_compute. exact I.
Qed.

End Saving.

Lemma handleSave_saves_witness :
  let d := {| provider := anthropic; apiKeyValue := js "  sk-ant-2 ";
              modelId := js "claude-opus" |} in
  let ls := open_storage [(LOCAL_STORAGE_API_KEYS, jq "{'openai':'sk-1'}")] in
  let ls' := (@handleSave MiniJson d (VStr []) ls).1 in
  getSelectedProvider ls' = Some (js "anthropic")
  ∧ @getApiKey MiniJson anthropic ls' = VStr (js "sk-ant-2").
Proof.
  intros d ls ls'.
  destruct (@handleSave_saves MiniJson ls d (VStr [])
              [(js "openai", VStr (js "sk-1"))]) as [_ H].
  destruct H as (H1 & H2 & _).
  - vm_compute. discriminate.
  - reflexivity.
  - reflexivity.
  - vm_compute. reflexivity.
  - exists (jq "{'openai':'sk-1','anthropic':'sk-ant-2'}").
    repeat split; vm_compute; first [reflexivity | discriminate].
  - split; [exact H1 | exact H2].
Defined.

(** *** Errors that ask for a new key *)

Lemma includes_here (a p b : jsstring) : includes (a ++ p ++ b) p = true.
Proof.
  induction a as [|c a IH]; cbn [app].
  - assert (H : startsWith (p ++ b) p = true).
    { unfold startsWith.
      by rewrite (proj2 (ExtractFacts.strip_prefix_Some p (p ++ b) b) eq_refl). }
    destruct (p ++ b); cbn [includes]; by rewrite H.
  - cbn [includes]. by rewrite IH, orb_true_r.
Qed.

Lemma lowered_app (a b : jsstring) : lowered (a ++ b) = lowered a ++ lowered b.
Proof. unfold lowered. by rewrite fmap_app, join_app. Qed.

(** X27.  What [isAuthError] goes by.  A value that is not an object (a
    thrown string, [null]) is never an authentication error, whatever
    its text.  A status 401 or 403 decides at once, whatever the other
    fields hold.  A message that holds one of the five phrases, in any
    letter case and anywhere in the text (the digits 401 inside a longer
    number included), makes the error an authentication error.  The call
    returns (it does not throw) whenever the message, if truthy, is a
    string. *)
Theorem isAuthError_cases :
  (∀ error, (∀ fields, error ≠ VObj fields) → isAuthError error = Returns false)
  ∧ (∀ fields x,
       own fields (js "status") = Some (VNum x) →
       x = 401%float ∨ x = 403%float →
       isAuthError (VObj fields) = Returns true)
  ∧ (∀ fields pre w post,
       own fields (js "message") = Some (VStr (pre ++ w ++ post)) →
       lowered w ∈ auth_phrases →
       isAuthError (VObj fields) = Returns true)
  ∧ (∀ fields,
       (∀ v, own fields (js "message") = Some v → truthy_value v = true →
             ∃ s, v = VStr s) →
       ∃ b, isAuthError (VObj fields) = Returns b).
Proof.
  split; [|split; [|split]].
  - intros error Hno. unfold isAuthError, and_then. cbv zeta.
    destruct error as [ | |b|x|s|items|fields]; try done.
    + by destruct b.
    + destruct (truthy_value (VNum x)) eqn:E; [done|].
      cbn -[truthy_value]. by rewrite !E.
    + by destruct s.
    + by destruct (Hno fields).
  - intros fields x Hs Hx. unfold isAuthError, and_then. cbv zeta.
    cbn [truthy_value optional]. rewrite Hs. cbn [default].
    change (default _ (Some (VNum x))) with (VNum x).
    by destruct Hx as [-> | ->].
  - intros fields pre w post Hm Hw. unfold isAuthError, and_then. cbv zeta.
    cbn [truthy_value optional]. rewrite Hm.
    change (default _ (Some ?v)) with v.
    destruct (_ && _); [done|]. destruct (_ && _); [done|].
    assert (Hne : pre ++ w ++ post ≠ []).
    { intros E. apply app_eq_nil in E as [_ E]. apply app_eq_nil in E as [E _].
      subst w. revert Hw. apply (bool_decide_unpack _). vm_compute. exact I. }
    cbn [truthy_value]. destruct (pre ++ w ++ post) eqn:E; [done|].
    cbn [Tools.truthy]. rewrite <- E. f_equal.
    apply existsb_exists. exists (lowered w). split.
    + by apply list_elem_of_In.
    + rewrite !lowered_app. apply includes_here.
  - intros fields Hmsg. unfold isAuthError, and_then. cbv zeta.
    cbn [truthy_value optional].
    destruct (_ && _); [by eexists|]. destruct (_ && _); [by eexists|].
    destruct (own fields (js "message")) as [v|] eqn:Hv.
    + change (default _ (Some v)) with v.
      destruct (truthy_value v) eqn:Ht; [|by eexists].
      destruct (Hmsg v eq_refl Ht) as [s ->]. by eexists.
    + by eexists.
Qed.

End SettingsFacts.

(* ===================================================================== *)
(** ** From the history of the component to the messages of a request    *)
(* ===================================================================== *)

Module HistoryFacts.
Import Values History HistoryNotions.

Section WithJson.
Context `{json : JsonApi}.

Lemma convert_one_short (m : ModelMessage) :
  (length (convert_one m) ≤ 1)%nat
  ∧ Forall (λ o, message_role o = role m
                 ∧ message_role o ∈ [js "user"; js "assistant"; js "tool"])
      (convert_one m).
Proof.
  assert (Hu : js "user" ∈ [js "user"; js "assistant"; js "tool"]) by by left.
  assert (Ha : js "assistant" ∈ [js "user"; js "assistant"; js "tool"]).
  { right. by left. }
  assert (Ht : js "tool" ∈ [js "user"; js "assistant"; js "tool"]).
  { right. right. by left. }
  unfold convert_one, str_eqb.
  destruct (decide (role m = js "user")) as [E|?].
  { rewrite bool_decide_eq_true_2 by done. cbv zeta. cbn [length]. split; [lia|].
    constructor; [|constructor]. cbn [message_role]. by rewrite E. }
  rewrite bool_decide_eq_false_2 by done.
  destruct (decide (role m = js "assistant")) as [E|?].
  { rewrite bool_decide_eq_true_2 by done. rewrite E.
    destruct (content m) as [ | |b|x|s|items|fields];
      [ | | | | | destruct (existsb _ items) | ]; cbn [length];
      (split; [lia|]); repeat (constructor; [by split|]); constructor. }
  rewrite bool_decide_eq_false_2 by done.
  destruct (decide (role m = js "tool")) as [E|?].
  { rewrite bool_decide_eq_true_2 by done. cbv zeta. cbn [length]. split; [lia|].
    constructor; [|constructor]. cbn [message_role]. by rewrite E. }
  rewrite bool_decide_eq_false_2 by done. cbn [length]. split; [lia | constructor].
Qed.

(** X28.  The messages of a request begin with the system prompt and end
    with the user prompt.  Between the two, the entries of the history
    are converted one by one, in their order: every entry gives at most
    one message, of the role of the entry; an entry of role [user] or
    [tool] always gives one, whatever its content; an entry of another
    role than [user], [assistant] and [tool] gives none. *)
Theorem convertHistory_shape (history : list ModelMessage)
    (systemPrompt userPrompt : jsstring) :
  ∃ parts,
    convertHistoryToOpenAIMessages history systemPrompt userPrompt
    = text_message (js "system") systemPrompt
      :: concat parts ++ [text_message (js "user") userPrompt]
    ∧ Forall2 (λ m part,
         (length part ≤ 1)%nat
         ∧ Forall (λ o, message_role o = role m) part
         ∧ (role m ∈ [js "user"; js "tool"] → length part = 1%nat)
         ∧ (role m ∉ [js "user"; js "assistant"; js "tool"] → part = []))
        history parts.
Proof.
  exists (convert_one <$> history).
  unfold convertHistoryToOpenAIMessages. cbn [app].
  split.
  { do 2 f_equal. induction history as [|m history IH]; [done|].
    by rewrite bind_cons, fmap_cons, concat_cons, IH. }
  apply Forall2_fmap_r, Forall_Forall2_diag, list.Forall_forall.
  intros m _. destruct (convert_one_short m) as [Hlen Hroles].
  split; [done|]. split; [|split].
  - eapply list.Forall_impl; [exact Hroles|]. by intros o [? _].
  - intros Hin. unfold convert_one, str_eqb.
    apply elem_of_cons in Hin as [E|Hin].
    { by rewrite bool_decide_eq_true_2. }
    apply list_elem_of_singleton in Hin. rewrite Hin.
    rewrite !bool_decide_eq_false_2 by done.
    by rewrite bool_decide_eq_true_2.
  - intros Hout. destruct (convert_one m) as [|o rest]; [done|].
    apply list.Forall_cons in Hroles as [[E Hin] _]. rewrite E in Hin. done.
Qed.

Lemma bind_empty {A B} (f : A → list B) : [] ≫= f = [].
Proof. reflexivity. Qed.

Lemma coalesce_or_else (a d : value) :
  coalesce (or_else a (VObj [])) d = or_else a (VObj []).
Proof.
  unfold or_else. destruct (truthy_value a) eqn:E; [|done].
  by destruct a.
Qed.

Lemma call_round_trip (name id : jsstring) (args : value) :
  convert_one (toToolCallAssistantMessage name id args)
  = [calls_message
       [{| call_id := VStr id; call_name := VStr name;
           call_arguments := JSON_stringify (or_else args (VObj [])) |}]].
Proof.
  unfold convert_one, toToolCallAssistantMessage. cbn [role content].
  rewrite ToolsFacts.str_eqb_ne by done. rewrite ToolsFacts.str_eqb_refl.
  set (part := VObj _).
  assert (Hty : of_type (js "tool-call") part = true) by reflexivity.
  cbn [existsb List.filter]. rewrite Hty. cbn [orb fmap list_fmap].
  change (optional part (js "toolCallId")) with (VStr id).
  change (optional part (js "toolName")) with (VStr name).
  change (optional part (js "input")) with (or_else args (VObj [])).
  by rewrite coalesce_or_else.
Qed.

Lemma result_round_trip (name id : jsstring) (res : value) :
  id ≠ [] → nullish res = false →
  convert_one (toToolMessageFromResult (VStr id) (VStr name) res)
  = [result_message (VStr id) (as_content res)].
Proof.
  intros Hid Hres.
  unfold convert_one, toToolMessageFromResult. cbn [role content].
  rewrite !ToolsFacts.str_eqb_ne by done. rewrite ToolsFacts.str_eqb_refl.
  cbv zeta. set (part := VObj _).
  change (default VUndefined (head [part])) with part.
  change (optional part (js "toolCallId")) with (VStr id).
  change (optional part (js "result")) with res.
  assert (or_else (VStr id) (optional part (js "tool_call_id")) = VStr id) as ->.
  { unfold or_else. cbn [truthy_value]. by destruct id. }
  assert (coalesce (coalesce res (optional part (js "content"))) part = res) as ->.
  { unfold coalesce. by rewrite !Hres. }
  done.
Qed.

Lemma exchange_round_trip (x : exchange) :
  toolCallId x ≠ [] → nullish (result x) = false →
  exchange_entries x ≫= convert_one = exchange_messages x.
Proof.
  intros Hid Hres. unfold exchange_entries, exchange_messages.
  rewrite bind_cons, bind_cons, bind_empty, app_nil_r.
  by rewrite call_round_trip, result_round_trip.
Qed.

(** X29.  The component and the library agree on the shape of the
    history.  What [processAgentStream] appends after a run (the user
    message, for every tool exchange the entry of the call and the entry
    of the result, and the final text) comes back from
    [convertHistoryToOpenAIMessages] as the user message, for every
    exchange the assistant message with the call (its arguments as JSON
    text) and the tool message with the same identifier, and the
    assistant text.  This holds for exchanges with a non-empty
    identifier and a result that is neither [null] nor [undefined]. *)
Theorem turn_round_trip (userMessageForHistory text finalText : jsstring)
    (exchanges : list exchange) (systemPrompt userPrompt : jsstring) :
  Forall (λ x, toolCallId x ≠ [] ∧ nullish (result x) = false) exchanges →
  convertHistoryToOpenAIMessages
    (turn userMessageForHistory (exchanges ≫= exchange_entries) text finalText)
    systemPrompt userPrompt
  = [text_message (js "system") systemPrompt;
     text_message (js "user") userMessageForHistory]
    ++ (exchanges ≫= exchange_messages)
    ++ [text_message (js "assistant")
          (if Tools.truthy text then text else finalText);
        text_message (js "user") userPrompt].
Proof.
  intros Hx. unfold convertHistoryToOpenAIMessages, turn.
  rewrite !bind_app, !bind_cons, !bind_empty, !app_nil_r.
  change (convert_one {| role := js "user"; content := VStr userMessageForHistory |})
    with [text_message (js "user") userMessageForHistory].
  set (final := convert_one _).
  change final
    with [text_message (js "assistant")
            (if Tools.truthy text then text else finalText)].
  clear final. cbn [app]. do 2 f_equal. rewrite <- app_assoc. f_equal.
  induction Hx as [|x xs [Hid Hres] _ IH]; [done|].
  rewrite !bind_cons, bind_app, IH. f_equal.
  by apply exchange_round_trip.
Qed.

End WithJson.

Lemma turn_round_trip_witness :
  let x := {| toolName := js "update_window_title"; toolCallId := js "call_1";
              argsObj := VObj [];
              result := VObj [(js "status", VStr (js "ok"))] |} in
  convertHistoryToOpenAIMessages (json := Settings.MiniJson)
    (turn (js "hello") ([x] ≫= exchange_entries) [] (js "done"))
    (js "system prompt") (js "next")
  = [text_message (js "system") (js "system prompt");
     text_message (js "user") (js "hello")]
    ++ ([x] ≫= exchange_messages (json := Settings.MiniJson))
    ++ [text_message (js "assistant") (js "done");
        text_message (js "user") (js "next")].
Proof.
  intros x.
  apply (turn_round_trip (json := Settings.MiniJson) (js "hello") [] (js "done") [x]).
  repeat constructor; vm_compute; discriminate.
Defined.

End HistoryFacts.

(* ===================================================================== *)
(** ** A window that is previewed while its arguments stream in           *)
(* ===================================================================== *)

Module PreviewFacts.
Import Tools Canvas Preview.

Lemma of_N_digits (n : N) : Forall (λ c, 48 ≤ c ≤ 57) (of_N n).
Proof.
  unfold of_N. generalize (N.to_uint n). intros u.
  induction u as [|u IH|u IH|u IH|u IH|u IH|u IH|u IH|u IH|u IH|u IH];
    [constructor|..];
    (apply list.Forall_cons; split; [vm_compute; split; discriminate | exact IH]).
Qed.

Lemma new_id_not_provisional (t : N) (r toolCallId : jsstring) :
  js "iframe-" ++ of_N t ++ js "-" ++ r ≠ provisional_id toolCallId.
Proof.
  unfold provisional_id.
  change (js "iframe-provisional-") with (js "iframe-" ++ js "provisional-").
  rewrite <- app_assoc. intros H%app_inv_head.
  pose proof (of_N_digits t) as Hd.
  destruct (of_N t) as [|c rest].
  - discriminate H.
  - apply list.Forall_cons in Hd as [Hc _].
    injection H as -> _. vm_compute in Hc. destruct Hc as [_ Hc]. by apply Hc.
Qed.

Lemma filter_all {A} (P : A → Prop) `{∀ x, Decision (P x)} (l : list A) :
  Forall P l → filter P l = l.
Proof.
  induction 1 as [|x l Hx _ IH]; [done|].
  by rewrite filter_cons, decide_True, IH.
Qed.

Lemma deselect_twice (l : list node) :
  deselect <$> (deselect <$> l) = deselect <$> l.
Proof. rewrite <- list_fmap_compose. by apply Forall_fmap_ext_1, list.Forall_forall. Qed.

Lemma provisional_id_truthy (toolCallId : jsstring) :
  truthy (provisional_id toolCallId) = true.
Proof. reflexivity. Qed.

Lemma ensure_existing (toolCallId : jsstring) (c : canvas) (entry : create_entry) :
  streamingCreate c !! toolCallId = Some entry →
  ce_nodeId entry = provisional_id toolCallId →
  ensureProvisionalCreateNode toolCallId c = (provisional_id toolCallId, c).
Proof.
  intros Hl Hid. unfold ensureProvisionalCreateNode.
  by rewrite Hl, Hid, provisional_id_truthy.
Qed.

Lemma extract_name_empty :
  Extract.extractLatestJsonStringField [] (js "name") = None.
Proof. vm_compute. reflexivity. Qed.

Lemma take_snoc_cases {A} (k : nat) (ds : list A) (d : A) :
  take k (ds ++ [d]) = take k ds ∨ take k (ds ++ [d]) = ds ++ [d].
Proof.
  destruct (decide (k ≤ length ds)%nat).
  - left. by rewrite take_app_le.
  - right. apply take_ge. rewrite length_app. cbn. lia.
Qed.

Lemma started (toolCallId : jsstring) (c : canvas) :
  streamingCreate c !! toolCallId = None →
  Forall (λ x, id x ≠ provisional_id toolCallId) (nodes (st c)) →
  let c1 := on_create_start toolCallId c in
  streamingCreate c1 !! toolCallId
  = Some {| ce_nodeId := provisional_id toolCallId; ce_name := None;
            argsAccum := None |}
  ∧ (∃ p, nodes (st c1) = (deselect <$> nodes (st c)) ++ [p]
          ∧ id p = provisional_id toolCallId)
  ∧ provisionalNameToNodeId (st c1) = provisionalNameToNodeId (st c).
Proof.
  intros Hfresh Hids c1. subst c1.
  unfold on_create_start, ensureProvisionalCreateNode. rewrite Hfresh.
  cbn [st streamingCreate with_nodes nodes provisionalNameToNodeId].
  split; [by rewrite lookup_insert_eq|]. split; [|done].
  rewrite fmap_app.
  exists {| id := provisional_id toolCallId; html := skeleton; title := creating;
            zIndex := 900; selected := true |}.
  split; [|reflexivity]. f_equal.
  - rewrite <- list_fmap_compose. apply Forall_fmap_ext_1.
    eapply list.Forall_impl; [exact Hids|]. intros x Hx.
    unfold select_only, deselect, compose. cbn [id html title zIndex selected].
    by rewrite ToolsFacts.str_eqb_ne.
  - cbn [fmap list_fmap]. unfold select_only. cbn [id html title zIndex selected].
    by rewrite ToolsFacts.str_eqb_refl.
Qed.

Lemma delta_effect (toolCallId d : jsstring) (c : canvas) (entry : create_entry) :
  streamingCreate c !! toolCallId = Some entry →
  ce_nodeId entry = provisional_id toolCallId →
  let pid := provisional_id toolCallId in
  let seen := default [] (argsAccum entry) ++ d in
  let c' := on_create_delta toolCallId d c in
  ∃ renamed : option jsstring,
    match renamed with
    | Some nm =>
        nm ≠ [] ∧ Extract.extractLatestJsonStringField seen (js "name") = Some nm
    | None =>
        ∀ nm, nm ≠ [] →
          Extract.extractLatestJsonStringField seen (js "name") = Some nm →
          ce_name entry = Some nm
    end
    ∧ streamingCreate c' !! toolCallId
      = Some {| ce_nodeId := pid;
                ce_name := match renamed with
                           | Some nm => Some nm
                           | None => ce_name entry
                           end;
                argsAccum := Some seen |}
    ∧ provisionalNameToNodeId (st c')
      = match renamed with
        | Some nm => <[nm := pid]> (provisionalNameToNodeId (st c))
        | None => provisionalNameToNodeId (st c)
        end
    ∧ nodes (st c')
      = match renamed with
        | Some nm => (λ n, if str_eqb (id n) pid then set_title nm n else n)
                     <$> nodes (st c)
        | None => nodes (st c)
        end.
Proof.
  intros Hentry Hpid pid seen c'. subst c'. unfold on_create_delta.
  rewrite (ensure_existing _ _ _ Hentry Hpid), Hentry.
  change (default _ (Some entry)) with entry.
  assert (Hseen : match argsAccum entry with
                  | Some (a :: acc) => (a :: acc) ++ d | _ => d end = seen).
  { subst seen. by destruct (argsAccum entry) as [[|a acc]|]. }
  rewrite Hseen. cbv zeta. fold seen. rewrite Hpid. fold pid.
  set (np := Extract.extractLatestJsonStringField seen (js "name")).
  set (hp := Extract.extractLatestJsonStringField seen (js "html")).
  cbn [streamingCreate st]. rewrite lookup_insert_eq.
  destruct np as [[|a nm]|] eqn:Hnp.
  - exists None. split; [by intros nm Hnm [= <-]|].
    split; [done|]. by destruct hp.
  - destruct (bool_decide (ce_name entry = Some (a :: nm))) eqn:Hb.
    + apply bool_decide_eq_true_1 in Hb. exists None.
      split; [by intros nm' _ [= <-]|]. split; [done|]. by destruct hp.
    + exists (Some (a :: nm)). split; [done|]. split; [done|]. by destruct hp.
  - exists None. split; [done|]. split; [done|]. by destruct hp.
Qed.

Lemma streamed (toolCallId name : jsstring) (c : canvas) (deltas : list jsstring) :
  streamingCreate c !! toolCallId = None →
  Forall (λ x, id x ≠ provisional_id toolCallId) (nodes (st c)) →
  provisionalNameToNodeId (st c) !! name = None →
  let pid := provisional_id toolCallId in
  let c2 := foldl (λ c delta, on_create_delta toolCallId delta c)
              (on_create_start toolCallId c) deltas in
  (∃ entry, streamingCreate c2 !! toolCallId = Some entry
      ∧ ce_nodeId entry = pid
      ∧ default [] (argsAccum entry) = concat deltas
      ∧ (∀ n, ce_name entry = Some n →
           provisionalNameToNodeId (st c2) !! n = Some pid))
  ∧ (∃ p, nodes (st c2) = (deselect <$> nodes (st c)) ++ [p] ∧ id p = pid)
  ∧ (∀ v, provisionalNameToNodeId (st c2) !! name = Some v →
       v = pid ∧ name ≠ []
       ∧ ∃ k, Extract.extractLatestJsonStringField (concat (take k deltas))
                (js "name") = Some name)
  ∧ (name ≠ [] →
     ∀ k, Extract.extractLatestJsonStringField (concat (take k deltas))
            (js "name") = Some name →
          provisionalNameToNodeId (st c2) !! name = Some pid).
Proof.
  intros Hfresh Hids Hname pid.
  induction deltas as [|d ds IH] using rev_ind; intros c2.
  - subst c2. cbn [foldl].
    destruct (started toolCallId c Hfresh Hids) as (Hentry & Hnodes & Hprov).
    split; [|split; [done|split]].
    + eexists. split; [exact Hentry|]. by repeat split.
    + intros v. rewrite Hprov, Hname. done.
    + intros _ k. rewrite take_nil. cbn [concat]. by rewrite extract_name_empty.
  - subst c2. rewrite foldl_app. cbn [foldl].
    set (c2 := foldl _ _ ds) in *. cbv zeta in IH.
    destruct IH as ((entry & Hentry & Hpid & Hacc & Hshown) & (p & Hnodes & Hp)
                    & Honly & Hall).
    destruct (delta_effect toolCallId d c2 entry Hentry Hpid)
      as (renamed & Hren & Hentry' & Hprov' & Hnodes').
    cbv zeta in Hren, Hentry', Hprov', Hnodes'. fold pid in Hentry', Hprov', Hnodes'.
    assert (Hseen : default [] (argsAccum entry) ++ d = concat (ds ++ [d])).
    { rewrite concat_app. cbn [concat]. by rewrite app_nil_r, Hacc. }
    rewrite Hseen in Hren, Hentry'.
    assert (Hlast : take (S (length ds)) (ds ++ [d]) = ds ++ [d]).
    { apply take_ge. rewrite length_app. cbn. lia. }
    assert (Hkeep : ∀ n, provisionalNameToNodeId (st c2) !! n = Some pid →
              provisionalNameToNodeId
                (st (on_create_delta toolCallId d c2)) !! n = Some pid).
    { intros n Hn. rewrite Hprov'. destruct renamed as [nm|]; [|done].
      destruct (decide (nm = n)) as [->|Hne].
      - by rewrite lookup_insert_eq.
      - by rewrite lookup_insert_ne. }
    split; [|split; [|split]].
    + eexists. split; [exact Hentry'|]. split; [done|]. split; [done|].
      cbn [ce_name]. intros n Hn. destruct renamed as [nm|].
      * injection Hn as ->. rewrite Hprov'. by rewrite lookup_insert_eq.
      * by apply Hkeep, Hshown.
    + rewrite Hnodes'. destruct renamed as [nm|]; [|by exists p].
      rewrite Hnodes, fmap_app. cbn [fmap list_fmap].
      rewrite Hp, ToolsFacts.str_eqb_refl.
      exists (set_title nm p). split; [|done]. f_equal.
      rewrite <- list_fmap_compose.
      apply Forall_fmap_ext_1. eapply list.Forall_impl; [exact Hids|].
      intros x Hx. unfold compose. cbn [id deselect].
      by rewrite ToolsFacts.str_eqb_ne.
    + intros v. rewrite Hprov'. destruct renamed as [nm|].
      * destruct (decide (nm = name)) as [->|Hne].
        -- rewrite lookup_insert_eq. intros [= <-]. destruct Hren as [Hnm Hex].
           split; [done|]. split; [done|]. exists (S (length ds)).
           by rewrite Hlast.
        -- rewrite lookup_insert_ne by done. intros Hv.
           destruct (Honly v Hv) as (-> & Hnm & k & Hk).
           split; [done|]. split; [done|].
           exists (min k (length ds)).
           rewrite take_app_le by lia.
           destruct (decide (k ≤ length ds)%nat).
           ++ by rewrite Nat.min_l.
           ++ rewrite Nat.min_r by lia. rewrite take_ge in Hk by lia.
              by rewrite firstn_all.
      * intros Hv. destruct (Honly v Hv) as (-> & Hnm & k & Hk).
        split; [done|]. split; [done|].
        exists (min k (length ds)).
        rewrite take_app_le by lia.
        destruct (decide (k ≤ length ds)%nat).
        -- by rewrite Nat.min_l.
        -- rewrite Nat.min_r by lia. rewrite take_ge in Hk by lia.
           by rewrite firstn_all.
    + intros Hnm k Hk.
      destruct (take_snoc_cases k ds d) as [Ht|Ht]; rewrite Ht in Hk.
      * by apply Hkeep, (Hall Hnm k).
      * rewrite Hprov'. destruct renamed as [nm|].
        -- destruct Hren as [_ Hex]. rewrite Hex in Hk. injection Hk as ->.
           by rewrite lookup_insert_eq.
        -- by apply Hshown, Hren.
Qed.

(** X30.  A window whose arguments stream in is previewed on a node of
    its own, and the call of the tool leaves one node for it.  For a
    call with a new identifier, on a canvas with no preview waiting
    under the name, the events of the call ([tool-call], the deltas of
    the arguments, the tool itself, [tool-result]) leave the nodes that
    were there, deselected, and after them one selected node that
    carries the decoded markup and the final name.  That node is the
    preview node exactly when the name the tool is called with is not
    empty and is what [extractLatestJsonStringField] read as the name
    after one of the deltas; otherwise the tool makes a second node and
    the [tool-result] event removes the preview. *)
Theorem streamed_create_one_node (toolCallId name html : jsstring)
    (deltas : list jsstring) (e e' : env) (c c' : canvas)
    (r : CreateNewWindowResult) :
  streamingCreate c !! toolCallId = None →
  Forall (λ x, id x ≠ provisional_id toolCallId) (nodes (st c)) →
  provisionalNameToNodeId (st c) !! name = None →
  streamed_create toolCallId deltas name html e c = Some (r, c', e') →
  (∃ x, nodes (st c') = (deselect <$> nodes (st c)) ++ [x]
        ∧ id x = nodeId r
        ∧ Tools.html x = decodePossibleEscapes html
        ∧ title x = finalName r
        ∧ selected x = true)
  ∧ (nodeId r = provisional_id toolCallId
     ↔ name ≠ []
       ∧ ∃ k, Extract.extractLatestJsonStringField (concat (take k deltas))
                (js "name") = Some name).
Proof.
  intros Hfresh Hids Hname H. unfold streamed_create in H. cbv zeta in H.
  destruct (streamed toolCallId name c deltas Hfresh Hids Hname)
    as ((entry & Hentry & Hpid & _ & _) & (p & Hnodes & Hp) & Honly & Hall).
  cbv zeta in Hentry, Hnodes, Honly, Hall.
  set (c2 := foldl _ _ deltas) in *.
  set (pid := provisional_id toolCallId) in *.
  unfold createNewWindow in H.
  destruct (unique_name (nameToNodeId (st c2)) name) as [fn|]; [|done].
  cbn [mbind option_bind] in H.
  destruct (fresh_windowId (draws e) (windowIdToNodeId (st c2)))
    as [[w ds]|]; [|done].
  cbn [mbind option_bind] in H. cbv zeta in H.
  unfold get_truthy in H.
  destruct (provisionalNameToNodeId (st c2) !! name) as [v|] eqn:Hv.
  - destruct (Honly v eq_refl) as (-> & Hnm & Hk).
    subst pid. rewrite provisional_id_truthy in H.
    cbn [mbind option_bind] in H. injection H as <- <- _.
    unfold on_create_result. cbn [streamingCreate st nodeId nodes].
    rewrite Hentry, Hpid, ToolsFacts.str_eqb_refl, andb_false_r.
    cbn [st nodes]. split; [|done].
    rewrite Hnodes, fmap_app. cbn [fmap list_fmap].
    rewrite Hp, ToolsFacts.str_eqb_refl. cbn [negb].
    eexists. split.
    { f_equal.
      rewrite <- list_fmap_compose. apply Forall_fmap_ext_1.
      eapply list.Forall_impl; [exact Hids|].
      intros x Hx. unfold compose. cbn [id deselect].
      by rewrite ToolsFacts.str_eqb_ne. }
    by cbn [id Tools.html title selected].
  - destruct ds as [|d ds]; [done|].
    pose proof (new_id_not_provisional (now e) d toolCallId) as Hnew.
    fold pid in Hnew.
    remember (js "iframe-" ++ of_N (now e) ++ js "-" ++ d) as newId eqn:HnewId.
    cbn [mbind option_bind] in H. injection H as <- <- _.
    unfold on_create_result. cbn [streamingCreate st nodeId nodes].
    rewrite Hentry, Hpid. subst pid. rewrite provisional_id_truthy.
    rewrite ToolsFacts.str_eqb_ne by done. cbn [andb negb st with_nodes nodes].
    split.
    + rewrite Hnodes, fmap_app, !list.filter_app. cbn [fmap list_fmap].
      rewrite !filter_cons, !filter_nil. cbn [id deselect].
      destruct (decide (id p ≠ _)) as [Hc|_]; [by destruct Hc|].
      destruct (decide (newId ≠ _)) as [_|Hc]; [|by destruct Hc].
      rewrite app_nil_r.
      rewrite deselect_twice.
      eexists. split.
      { f_equal. apply filter_all. apply Forall_fmap.
        eapply list.Forall_impl; [exact Hids|]. by intros x Hx. }
      by cbn [id Tools.html title selected].
    + split.
      * intros Hc. by destruct Hnew.
      * intros [Hnm [k Hk]]. by specialize (Hall Hnm k Hk).
Qed.

Lemma streamed_create_one_node_witness :
  ∃ r c' e',
    streamed_create (js "call_1")
      [jq "{'name':'No"; jq "tes','html':'<p>hi</p>'}"]
      (js "Notes") (js "<p>hi</p>")
      {| draws := [js "abc123"; js "xyz789"]; now := 1700000000000 |}
      {| st := Props.one_window (js "Clock") (js "<p>12:00</p>");
         streamingCreate := ∅ |}
    = Some (r, c', e')
    ∧ nodeId r = provisional_id (js "call_1")
    ∧ length (nodes (st c')) = 2%nat.
Proof.
  destruct (streamed_create _ _ _ _ _ _) as [[[r c'] e']|] eqn:E;
    [|vm_compute in E; discriminate].
  exists r, c', e'. split; [reflexivity|].
  edestruct (streamed_create_one_node (js "call_1") (js "Notes")) as [Hx Hr];
    [| | |exact E|].
  - reflexivity.
  - repeat constructor. vm_compute. discriminate.
  - reflexivity.
  - split.
    + apply Hr. split; [discriminate|]. exists 2%nat. vm_compute. reflexivity.
    + destruct Hx as (x & -> & _). reflexivity.
Defined.

End PreviewFacts.
